(** * gbs.py: a places-search pipeline, embedded and checked against its specification

    The development follows the layout of [src/gbs.py]: the rate limiter,
    the e-mail extractor, the place enricher, the search orchestrator,
    persistence, remote sync and the driver [main].

    Everything outside [gbs.py] (the environment variables, the clock, the
    Google Maps client, the page fetch with its HTML parsing and pattern
    search, pandas' and json's rendering of one record, Supabase) is gathered
    in a record [World] of oracles; an oracle that answers a call sees the
    trace of everything that happened before.  The program itself is a
    state-and-exception monad [M] over a [State] holding the clock, the
    limiter's timestamp list, the chronological trace of effects and the files
    written.

    What the model leaves out, and where:
    - time is counted in integer clock ticks, the clock never goes back and a
      sleep lasts at least as long as asked ([tick]); the rounding of
      [time.time()]'s floats is not modelled;
    - the worker threads of the enrichment are run one after the other, in
      submission order, and [as_completed] yields their futures in an order
      the world chooses ([completion_rank]);
    - the [while] loop of the orchestrator is bounded by a fuel argument;
    - writing a file always succeeds ([write_file]);
    - strings are ASCII text. *)

From Stdlib Require Import ZArith List String Ascii Bool Lia DecimalString Sorted.
From stdpp Require Import base option list gmap strings.
Import ListNotations.

Local Open Scope string_scope.
Local Open Scope list_scope.
Local Open Scope Z_scope.

(** ** Python values and exceptions *)

(** The exceptions that can travel through the program. [ProviderError]
    stands for whatever a foreign library raises (googlemaps, requests,
    supabase). *)
Inductive exn : Type :=
| ValueError (msg : string)
| KeyError (key : string)
| IndexError (msg : string)
| TypeError (msg : string)
| ProviderError (msg : string).

(** The result of running a piece of the program: a value, a raised
    exception, or no result at all ([OutOfFuel]: the loop bound of the model
    was reached, or a foreign call never came back). *)
Inductive Outcome (A : Type) : Type :=
| Ok (a : A)
| Raise (e : exn)
| OutOfFuel.
Arguments Ok {A} a.
Arguments Raise {A} e.
Arguments OutOfFuel {A}.

(** A JSON number as Python holds it: an [int], or a [float] kept by its
    [repr]. *)
Inductive Number : Type :=
| Int (z : Z)
| Float (repr : string).

(** The [location] argument: the string read from the environment, or a
    tuple. *)
Inductive Location : Type :=
| LocStr (s : string)
| LocTuple (xs : list Number).

Definition Coords : Type := (Number * Number)%type.

(** One match of the geocoder:
    [m['geometry']['location']['lat']] and [...['lng']]. *)
Record GeocodeMatch : Type := { lat : Number; lng : Number }.

(** One entry of a search page; [place['place_id']] raises [KeyError] when
    the key is absent. *)
Record RawPlaceRef : Type := { place_id : option string }.

(** A search page: [places['results']] and [places.get('next_page_token')]. *)
Record PlacesResponse : Type := {
  places_results : option (list RawPlaceRef);
  places_next_page_token : option string
}.

(** The [info] dictionary of a detail response, read with [info.get]. *)
Record PlaceInfo : Type := {
  name : option string;
  formatted_address : option string;
  formatted_phone_number : option string;
  website : option string;
  rating : option Number;
  user_ratings_total : option Z;
  types : option (list string)
}.

(** A detail response: [details['result']]. *)
Record PlaceResponse : Type := { result : option PlaceInfo }.

(** The dictionary returned by [get_place_details]. *)
Record PlaceRecord : Type := {
  Name : option string;
  Address : option string;
  Phone : option string;
  Website : option string;
  Email : option string;
  Rating : option Number;
  Reviews : option Z;
  Types : string
}.

(** The keys of that dictionary, in insertion order. *)
Definition PlaceRecord_fields : list string :=
  ["Name"; "Address"; "Phone"; "Website"; "Email"; "Rating"; "Reviews"; "Types"].

(** ** Effects *)

Inductive Level : Type := DEBUG | INFO | ERROR.

(** An interpolated value of a log message. *)
Inductive Arg : Type :=
| AStr (s : string)
| AOpt (s : option string)
| AInt (z : Z)
| ABool (b : bool)
| ALoc (l : Location)
| ANum (n : Number)
| AExn (e : exn).

(** What the program does to the outside, in the order it does it. [Stamp]
    is the limiter's [self.calls.append(time.time())]. *)
Inductive Event : Type :=
| Stamp (t : Z)
| Sleep (ticks : Z)
| ClientInit (key : string)
| Geocode (address : Location)
| Places (query : string) (location : Coords) (radius : Z) (page_token : option string)
| Place (id : string)
| HttpGet (url : string)
| WriteFile (path content : string)
| CreateClient (url key : option string)
| Insert (table : string) (item : PlaceRecord)
| Log (lvl : Level) (template : string) (args : list Arg).

(** ** Pure helpers: truth values, [str], slices, ordering *)

(** Truth value of a [str]: false for the empty string only. *)
Definition truthy (s : string) : bool := negb (String.eqb s "").

(** Truth value of a [str] or [None]. *)
Definition truthy_opt (o : option string) : bool :=
  match o with
  | Some s => truthy s
  | None => false
  end.

(** [str(n)] for an [int]. *)
Definition str_int (z : Z) : string := NilZero.string_of_int (Z.to_int z).

Definition str_Number (n : Number) : string :=
  match n with
  | Int z => str_int z
  | Float r => r
  end.

(** [str(location)]: the string itself, or the tuple's [repr]. *)
Definition str_Location (l : Location) : string :=
  match l with
  | LocStr s => s
  | LocTuple [] => "()"
  | LocTuple [x] => ("(" ++ str_Number x ++ ",)")%string
  | LocTuple xs => ("(" ++ String.concat ", " (map str_Number xs) ++ ")")%string
  end.

(** [l[:n]], negative [n] counting from the end. *)
Definition slice_to {A} (l : list A) (n : Z) : list A :=
  if 0 <=? n then firstn (Z.to_nat n) l
  else firstn (Z.to_nat (Z.of_nat (length l) + n)) l.

(** Pair each element with its index. *)
Fixpoint indexed {A} (i : nat) (l : list A) : list (nat * A) :=
  match l with
  | [] => []
  | x :: l => (i, x) :: indexed (S i) l
  end.

Fixpoint insert_by_rank {A} (rank : nat -> nat) (x : nat * A) (l : list (nat * A))
  : list (nat * A) :=
  match l with
  | [] => [x]
  | y :: l' =>
      if (rank (fst x) <=? rank (fst y))%nat then x :: l
      else y :: insert_by_rank rank x l'
  end.

(** The indexed elements in increasing rank, equal ranks in index order. *)
Definition by_rank {A} (rank : nat -> nat) (l : list (nat * A)) : list (nat * A) :=
  fold_right (insert_by_rank rank) [] l.

(** [str.lower()] on ASCII text. *)
Definition lower_ascii (c : ascii) : ascii :=
  let n := nat_of_ascii c in
  if ((65 <=? n) && (n <=? 90))%nat then ascii_of_nat (n + 32) else c.

Fixpoint lower (s : string) : string :=
  match s with
  | EmptyString => EmptyString
  | String c s => String (lower_ascii c) (lower s)
  end.

(** [int(s)] for a [str]: blanks around, a sign, decimal digits, single
    underscores between digits; [None] is the [ValueError]. *)
Definition is_space (c : ascii) : bool :=
  let n := nat_of_ascii c in
  (((9 <=? n) && (n <=? 13)) || (n =? 32))%nat.

Definition digit_of (c : ascii) : option Z :=
  let n := nat_of_ascii c in
  if ((48 <=? n) && (n <=? 57))%nat then Some (Z.of_nat (n - 48)) else None.

Fixpoint lstrip (s : string) : string :=
  match s with
  | String c s' => if is_space c then lstrip s' else s
  | EmptyString => EmptyString
  end.

Fixpoint rstrip (s : string) : string :=
  match s with
  | String c s' =>
      match rstrip s' with
      | EmptyString => if is_space c then EmptyString else String c EmptyString
      | r => String c r
      end
  | EmptyString => EmptyString
  end.

(** The digits after the sign; [after_digit] tells whether the character
    before was a digit, which an underscore and the end both require. *)
Fixpoint digits (acc : Z) (after_digit : bool) (s : string) : option Z :=
  match s with
  | EmptyString => if after_digit then Some acc else None
  | String c s' =>
      match digit_of c with
      | Some d => digits (10 * acc + d) true s'
      | None =>
          if Ascii.eqb c "_"%char && after_digit then digits acc false s' else None
      end
  end.

Definition parse_int (s : string) : option Z :=
  match rstrip (lstrip s) with
  | String "-" s' => z ← digits 0 false s'; Some (- z)
  | String "+" s' => digits 0 false s'
  | s' => digits 0 false s'
  end.

(** The message of the [ValueError] raised by [int(s)]. *)
Definition int_error (s : string) : exn :=
  ValueError ("invalid literal for int() with base 10: '" ++ s ++ "'")%string.

Definition nl : string := String "010"%char EmptyString.

(** ** The rate limiter's object *)

Record RateLimiter : Type := {
  max_calls : Z;
  period : Z;
  calls : list Z
}.

(** [RateLimiter.__init__] *)
Definition RateLimiter_init (max_calls period : Z) : RateLimiter :=
  {| max_calls := max_calls; period := period; calls := [] |}.

(** Time is counted in clock ticks; [second] ticks make one second. *)
Definition second : Z := 1000000.

Definition RATE_LIMIT : Z := 10.
Definition RATE_LIMIT_PERIOD : Z := 1 * second.

(** ** State and world *)

Record State : Type := {
  clock : Z;                      (* the time of the last clock access *)
  reads : nat;                    (* number of clock accesses so far *)
  limiter : RateLimiter;          (* the module's one decorator instance *)
  trace : list Event;
  files : gmap string string
}.

Record World : Type := {
  (* os.environ, after load_dotenv() *)
  environ : gmap string string;
  (* ticks that pass before the k-th clock access (a time.time() read, or
     the wake-up of a time.sleep) *)
  elapsed : nat -> nat;
  (* googlemaps.Client(key=...) *)
  googlemaps_Client : string -> Outcome unit;
  (* gmaps.geocode, gmaps.places, gmaps.place: the answer may depend on
     everything that happened before *)
  gmaps_geocode : list Event -> Location -> Outcome (list GeocodeMatch);
  gmaps_places : list Event -> string -> Coords -> Z -> option string -> Outcome PlacesResponse;
  gmaps_place : list Event -> string -> Outcome PlaceResponse;
  (* requests.get(url, timeout=10), BeautifulSoup(...).get_text() and
     re.findall(email_regex, ...): the matches found on the page *)
  page_emails : list Event -> string -> Outcome (list string);
  (* the order in which the futures complete: rank of the i-th submitted task *)
  completion_rank : nat -> nat;
  (* pandas' rendering of one row of a frame, json's rendering of one object *)
  pandas_row : list PlaceRecord -> PlaceRecord -> string;
  json_object : PlaceRecord -> string;
  (* supabase: create_client, and table(..).insert(item).execute() with the
     truth value of response.data *)
  supabase_create_client : option string -> option string -> Outcome unit;
  supabase_insert : list Event -> string -> PlaceRecord -> Outcome bool
}.

Definition initial_state : State :=
  {| clock := 0; reads := 0%nat;
     limiter := RateLimiter_init RATE_LIMIT RATE_LIMIT_PERIOD;
     trace := []; files := ∅ |}.

(** ** The monad *)

Definition M (A : Type) : Type := State -> Outcome A * State.

Definition ret {A} (a : A) : M A := fun s => (Ok a, s).

Definition bind {A B} (m : M A) (k : A -> M B) : M B :=
  fun s =>
    match m s with
    | (Ok a, s') => k a s'
    | (Raise e, s') => (Raise e, s')
    | (OutOfFuel, s') => (OutOfFuel, s')
    end.

Definition raise {A} (e : exn) : M A := fun s => (Raise e, s).

Definition out_of_fuel {A} : M A := fun s => (OutOfFuel, s).

(** [try: m except Exception as e: h e] *)
Definition try_except {A} (m : M A) (h : exn -> M A) : M A :=
  fun s =>
    match m s with
    | (Raise e, s') => h e s'
    | r => r
    end.

(** Lift the answer of an oracle. *)
Definition reply {A} (o : Outcome A) : M A := fun s => (o, s).

Declare Scope py_scope.
Delimit Scope py_scope with py.
Notation "x <- c ;; k" := (bind c (fun x => k))
  (at level 100, c at next level, right associativity) : py_scope.
Notation "c ;;; k" := (bind c (fun _ => k))
  (at level 100, right associativity) : py_scope.
Local Open Scope py_scope.

Definition emit (e : Event) : M unit :=
  fun s => (Ok tt, {| clock := clock s; reads := reads s; limiter := limiter s;
                      trace := trace s ++ [e]; files := files s |}).

Definition logger (lvl : Level) (template : string) (args : list Arg) : M unit :=
  emit (Log lvl template args).

Definition get_trace : M (list Event) := fun s => (Ok (trace s), s).

Definition get_limiter : M RateLimiter := fun s => (Ok (limiter s), s).

(** [self.calls = l] *)
Definition set_calls (l : list Z) : M unit :=
  fun s => (Ok tt, {| clock := clock s; reads := reads s;
                      limiter := {| max_calls := max_calls (limiter s);
                                    period := period (limiter s);
                                    calls := l |};
                      trace := trace s; files := files s |}).

(** [open(path, 'w')] and the write: the file is replaced. *)
Definition write_file (path content : string) : M unit :=
  fun s => (Ok tt, {| clock := clock s; reads := reads s; limiter := limiter s;
                      trace := trace s ++ [WriteFile path content];
                      files := <[path := content]> (files s) |}).

Section Program.

Context (w : World).

(** The clock moves on by what the world lets pass, never backwards. *)
Definition tick (extra : Z) : M Z :=
  fun s =>
    let t := clock s + extra + Z.of_nat (elapsed w (reads s)) in
    (Ok t, {| clock := t; reads := S (reads s); limiter := limiter s;
              trace := trace s; files := files s |}).

(** [time.time()] *)
Definition time_time : M Z := tick 0.

(** [time.sleep(d)]: at least [d] ticks pass. *)
Definition time_sleep (d : Z) : M unit :=
  emit (Sleep d) ;;; _ <- tick d ;; ret tt.

(** *** RateLimiter.__call__: the body of [wrapped], up to the call of [f] *)
Definition throttle : M unit :=
  now <- time_time ;;
  self <- get_limiter ;;
  let kept := List.filter (fun t => now - t <? period self) (calls self) in
  set_calls kept ;;;
  (if max_calls self <=? Z.of_nat (length kept) then
     match kept with
     | [] => raise (IndexError "list index out of range")
     | t0 :: _ =>
         let sleep_time := period self - (now - t0) in
         if 0 <? sleep_time then time_sleep sleep_time else ret tt
     end
   else ret tt) ;;;
  t <- time_time ;;
  self <- get_limiter ;;
  set_calls (calls self ++ [t]) ;;;
  emit (Stamp t).

Definition wrapped {A} (f : M A) : M A := throttle ;;; f.

(** [rate_limited_api_call(func, *args, **kwargs)], decorated. *)
Definition rate_limited_api_call {A} (func : M A) : M A := wrapped func.

(** A call into the world: it is recorded, and answered from what happened
    before it. *)
Definition foreign {A} (e : Event) (answer : list Event -> Outcome A) : M A :=
  h <- get_trace ;;
  emit e ;;;
  reply (answer h).

(** *** extract_email_from_website *)
Definition extract_email_from_website (url : string) : M (option string) :=
  try_except
    (emails <- foreign (HttpGet url) (fun h => page_emails w h url) ;;
     ret (match emails with
          | e :: _ => Some e
          | [] => None
          end))
    (fun e =>
       logger ERROR "Error extracting email from {url}: {e}" [AStr url; AExn e] ;;;
       ret None).

(** *** get_place_details *)
Definition get_place_details (place_id : string) : M PlaceRecord :=
  details <- rate_limited_api_call
               (foreign (Place place_id) (fun h => gmaps_place w h place_id)) ;;
  info <- (match result details with
           | Some info => ret info
           | None => raise (KeyError "result")
           end) ;;
  let website := website info in
  email <- (match website with
            | Some url =>
                if truthy url then
                  logger INFO "Attempting to extract email from website: {website}" [AStr url] ;;;
                  email <- extract_email_from_website url ;;
                  (if truthy_opt email
                   then logger INFO "Email extracted: {email}" [AOpt email]
                   else logger INFO "No email found on the website" []) ;;;
                  ret email
                else ret None
            | None => ret None
            end) ;;
  ret {| Name := name info;
         Address := formatted_address info;
         Phone := formatted_phone_number info;
         Website := website;
         Email := email;
         Rating := rating info;
         Reviews := user_ratings_total info;
         Types := String.concat ", " (default [] (types info)) |}.

(** *** get_location_coordinates *)
Definition get_location_coordinates (location : Location) : M Coords :=
  logger DEBUG "Attempting to get coordinates for location: {location}" [ALoc location] ;;;
  match location with
  | LocTuple [a; b] =>
      logger DEBUG "Location is already in coordinate form: {location}" [ALoc location] ;;;
      ret (a, b)
  | _ =>
      try_except
        (geocode_result <- rate_limited_api_call
                             (foreign (Geocode location) (fun h => gmaps_geocode w h location)) ;;
         match geocode_result with
         | m :: _ =>
             logger DEBUG "Geocoded {location} to coordinates: ({lat}, {lng})"
                    [ALoc location; ANum (lat m); ANum (lng m)] ;;;
             ret (lat m, lng m)
         | [] =>
             raise (ValueError ("Unable to geocode location: " ++ str_Location location)%string)
         end)
        (fun e =>
           logger ERROR "Error geocoding location {location}: {e}" [ALoc location; AExn e] ;;;
           raise e)
  end.

(** *** get_google_maps_data *)

(** One turn of the [while] loop: the new [results] and [next_page_token],
    and whether the loop goes on ([false]: a [break]). *)
Definition search_page (query : string) (location_coords : Coords) (radius num_results : Z)
    (results : list RawPlaceRef) (next_page_token : option string)
  : M (bool * list RawPlaceRef * option string) :=
  try_except
    (logger DEBUG "Searching for places. Current results: {len(results)}, Target: {num_results}"
            [AInt (Z.of_nat (length results)); AInt num_results] ;;;
     places <- (if truthy_opt next_page_token then
                  time_sleep (2 * second) ;;;
                  rate_limited_api_call
                    (foreign (Places query location_coords radius next_page_token)
                       (fun h => gmaps_places w h query location_coords radius next_page_token))
                else
                  rate_limited_api_call
                    (foreign (Places query location_coords radius None)
                       (fun h => gmaps_places w h query location_coords radius None))) ;;
     page <- (match places_results places with
              | Some page => ret page
              | None => raise (KeyError "results")
              end) ;;
     let results := results ++ page in
     let next_page_token := places_next_page_token places in
     logger INFO "Fetched {len(results)} results so far" [AInt (Z.of_nat (length results))] ;;;
     if negb (truthy_opt next_page_token) then
       logger DEBUG "No more pages available" [] ;;;
       ret (false, results, next_page_token)
     else ret (true, results, next_page_token))
    (fun e =>
       logger ERROR "Error fetching places: {e}" [AExn e] ;;;
       ret (false, results, next_page_token)).

(** [while len(results) < num_results: ...]; the loop need not end (a
    provider may hand out empty pages with tokens for ever), so the model
    bounds the number of turns by [fuel]. *)
Fixpoint search_loop (fuel : nat) (query : string) (location_coords : Coords)
    (radius num_results : Z) (results : list RawPlaceRef) (next_page_token : option string)
  : M (list RawPlaceRef) :=
  if Z.of_nat (length results) <? num_results then
    match fuel with
    | O => out_of_fuel
    | S fuel =>
        r <- search_page query location_coords radius num_results results next_page_token ;;
        match r with
        | (true, results, next_page_token) =>
            search_loop fuel query location_coords radius num_results results next_page_token
        | (false, results, _) => ret results
        end
    end
  else ret results.

(** A future: the task is run, its outcome kept for [future.result()]. *)
Definition submit {A} (task : M A) : M (Outcome A) :=
  fun s => let (r, s') := task s in (Ok r, s').

(** The dictionary comprehension over [results]: one task per place, in
    order; a place without ['place_id'] raises [KeyError] on the spot. *)
Fixpoint submit_all (places : list RawPlaceRef) : M (list (Outcome PlaceRecord)) :=
  match places with
  | [] => ret []
  | place :: rest =>
      id <- (match place_id place with
             | Some id => ret id
             | None => raise (KeyError "place_id")
             end) ;;
      future <- submit (get_place_details id) ;;
      futures <- submit_all rest ;;
      ret (future :: futures)
  end.

(** [as_completed]: the futures by completion rank. *)
Definition as_completed {A} (futures : list A) : list A :=
  map snd (by_rank (completion_rank w) (indexed 0 futures)).

(** [for future in as_completed(...)]: results are appended to [data],
    failures logged. *)
Fixpoint collect (futures : list (Outcome PlaceRecord)) (data : list PlaceRecord)
  : M (list PlaceRecord) :=
  match futures with
  | [] => ret data
  | Ok record :: rest => collect rest (data ++ [record])
  | Raise e :: rest =>
      logger ERROR "Error fetching place details: {e}" [AExn e] ;;;
      collect rest data
  | OutOfFuel :: _ => out_of_fuel
  end.

Definition get_google_maps_data (fuel : nat) (api_key : string) (location : Location)
    (query : string) (num_results radius : Z) : M (list PlaceRecord) :=
  emit (ClientInit api_key) ;;;
  reply (googlemaps_Client w api_key) ;;;
  logger INFO "Fetching data for query: {query} in location: {location}"
         [AStr query; ALoc location] ;;;
  coords <- try_except
              (c <- get_location_coordinates location ;; ret (Some c))
              (fun e =>
                 logger ERROR "Failed to get coordinates for location {location}: {e}"
                        [ALoc location; AExn e] ;;;
                 ret None) ;;
  match coords with
  | None => ret []
  | Some location_coords =>
      results <- search_loop fuel query location_coords radius num_results [] None ;;
      let results := slice_to results num_results in
      futures <- submit_all results ;;
      data <- collect (as_completed futures) [] ;;
      logger INFO "Successfully fetched details for {len(data)} places"
             [AInt (Z.of_nat (length data))] ;;;
      ret data
  end.

(** [os.getenv(key)] and [os.getenv(key, default)] *)
Definition os_getenv (key : string) : option string := environ w !! key.

Definition os_getenv_default (key default : string) : string :=
  match environ w !! key with
  | Some v => v
  | None => default
  end.

(** *** save_to_file *)

(** The columns of [pd.DataFrame(data)] for a list of dictionaries: the keys
    of the dictionaries; every record has the same eight, and an empty list
    has none. *)
Definition DataFrame_columns (data : list PlaceRecord) : list string :=
  match data with
  | [] => []
  | _ :: _ => PlaceRecord_fields
  end.

(** [pd.DataFrame(data).to_csv(csv_file, index=False)]: the line of column
    names, then one line per record. *)
Definition to_csv (data : list PlaceRecord) : string :=
  (String.concat "," (DataFrame_columns data) ++ nl
   ++ String.concat "" (map (fun r => pandas_row w data r ++ nl) data))%string.

(** [json.dump(data, f, indent=2)] for a list. *)
Definition json_dump (data : list PlaceRecord) : string :=
  match data with
  | [] => "[]"
  | _ :: _ =>
      ("[" ++ nl ++ "  "
       ++ String.concat ("," ++ nl ++ "  ") (map (json_object w) data)
       ++ nl ++ "]")%string
  end.

Definition save_to_file (data : list PlaceRecord) (output_file : string)
    (output_csv output_json : bool) : M unit :=
  (if output_csv then
     let csv_file := (output_file ++ ".csv")%string in
     write_file csv_file (to_csv data) ;;;
     logger INFO "Data saved to CSV: {csv_file}" [AStr csv_file]
   else ret tt) ;;;
  (if output_json then
     let json_file := (output_file ++ ".json")%string in
     write_file json_file (json_dump data) ;;;
     logger INFO "Data saved to JSON: {json_file}" [AStr json_file]
   else ret tt).

(** *** add_to_supabase *)

Fixpoint insert_items (table_name : string) (data : list PlaceRecord) : M unit :=
  match data with
  | [] => ret tt
  | item :: rest =>
      try_except
        (response_data <- foreign (Insert table_name item)
                            (fun h => supabase_insert w h table_name item) ;;
         if response_data : bool
         then logger INFO "Successfully added item: {item['Name']} to Supabase" [AOpt (Name item)]
         else logger ERROR "Failed to add item: {item['Name']} to Supabase" [AOpt (Name item)])
        (fun e => logger ERROR "Error adding item to Supabase: {e}" [AExn e]) ;;;
      insert_items table_name rest
  end.

Definition add_to_supabase (data : list PlaceRecord) : M unit :=
  let url := os_getenv "SUPABASE_URL" in
  let key := os_getenv "SUPABASE_KEY" in
  emit (CreateClient url key) ;;;
  reply (supabase_create_client w url key) ;;;
  let table_name := os_getenv_default "SUPABASE_TABLE_NAME" "google_maps_data" in
  insert_items table_name data.

(** *** main *)

(** The [config] dictionary as first built. *)
Record Config : Type := {
  GOOGLE_MAPS_API_KEY : option string;
  SEARCH_LOCATION : option string;
  SEARCH_QUERY : option string;
  NUM_RESULTS : string;
  SEARCH_RADIUS : string;
  OUTPUT_FILE : string;
  OUTPUT_CSV : bool;
  OUTPUT_JSON : bool;
  USE_SUPABASE : bool
}.

Definition read_config : Config :=
  {| GOOGLE_MAPS_API_KEY := os_getenv "GOOGLE_MAPS_API_KEY";
     SEARCH_LOCATION := os_getenv "SEARCH_LOCATION";
     SEARCH_QUERY := os_getenv "SEARCH_QUERY";
     NUM_RESULTS := os_getenv_default "NUM_RESULTS" "100";
     SEARCH_RADIUS := os_getenv_default "SEARCH_RADIUS" "50000";
     OUTPUT_FILE := os_getenv_default "OUTPUT_FILE" "output";
     OUTPUT_CSV := String.eqb (lower (os_getenv_default "OUTPUT_CSV" "true")) "true";
     OUTPUT_JSON := String.eqb (lower (os_getenv_default "OUTPUT_JSON" "true")) "true";
     USE_SUPABASE := String.eqb (lower (os_getenv_default "USE_SUPABASE" "false")) "true" |}.

(** [config.items()], in insertion order; [num_results] and [radius] are
    the current values under those two keys (strings first, integers after
    the conversion). *)
Definition config_items (config : Config) (num_results radius : Arg) : list (string * Arg) :=
  [ ("GOOGLE_MAPS_API_KEY", AOpt (GOOGLE_MAPS_API_KEY config));
    ("SEARCH_LOCATION", AOpt (SEARCH_LOCATION config));
    ("SEARCH_QUERY", AOpt (SEARCH_QUERY config));
    ("NUM_RESULTS", num_results);
    ("SEARCH_RADIUS", radius);
    ("OUTPUT_FILE", AStr (OUTPUT_FILE config));
    ("OUTPUT_CSV", ABool (OUTPUT_CSV config));
    ("OUTPUT_JSON", ABool (OUTPUT_JSON config));
    ("USE_SUPABASE", ABool (USE_SUPABASE config)) ].

Definition is_None (v : Arg) : bool :=
  match v with
  | AOpt None => true
  | _ => false
  end.

(** [[key for key, value in config.items() if value is None]] *)
Definition missing_config (config : Config) : list string :=
  map fst (List.filter (fun kv => is_None (snd kv))
             (config_items config (AStr (NUM_RESULTS config)) (AStr (SEARCH_RADIUS config)))).

(** [for x in l: body x] *)
Fixpoint for_each {A} (l : list A) (body : A -> M unit) : M unit :=
  match l with
  | [] => ret tt
  | x :: l => body x ;;; for_each l body
  end.

(** [try: ... except ValueError as e: ...] *)
Definition try_except_ValueError {A} (m : M A) (h : exn -> M A) : M A :=
  fun s =>
    match m s with
    | (Raise (ValueError msg), s') => h (ValueError msg) s'
    | r => r
    end.

(** [int(config[key])] *)
Definition int_of (v : string) : M Z :=
  match parse_int v with
  | Some z => ret z
  | None => raise (int_error v)
  end.

(** [all([...])] over three [os.getenv] results. *)
Definition all_set (l : list (option string)) : bool := forallb truthy_opt l.

(** The end of [main], reached with records: the files, then the sync. *)
Definition deliver (config : Config) (data : list PlaceRecord) : M unit :=
  save_to_file data (OUTPUT_FILE config) (OUTPUT_CSV config) (OUTPUT_JSON config) ;;;
  if USE_SUPABASE config then
    if negb (all_set [os_getenv "SUPABASE_URL"; os_getenv "SUPABASE_KEY";
                      os_getenv "SUPABASE_TABLE_NAME"])
    then logger ERROR "Supabase is enabled but missing required configuration. Please check your .env file for SUPABASE_URL, SUPABASE_KEY, and SUPABASE_TABLE_NAME." []
    else add_to_supabase data
  else ret tt.

(** The part of [main] after the configuration was validated and converted. *)
Definition run_pipeline (fuel : nat) (config : Config)
    (api_key location query : string) (num_results radius : Z) : M unit :=
  logger INFO "Current configuration:" [] ;;;
  for_each (config_items config (AInt num_results) (AInt radius))
    (fun kv =>
       if negb (String.eqb (fst kv) "GOOGLE_MAPS_API_KEY")
       then logger INFO "{key}: {value}" [AStr (fst kv); snd kv]
       else ret tt) ;;;
  logger DEBUG "Search location from config: {config['SEARCH_LOCATION']}" [AStr location] ;;;
  data <- get_google_maps_data fuel api_key (LocStr location) query num_results radius ;;
  match data with
  | [] => logger ERROR "No data retrieved. Check the logs for errors." []
  | _ :: _ => deliver config data
  end.

Definition main (fuel : nat) : M unit :=
  let config := read_config in
  let missing_config := missing_config config in
  match missing_config with
  | _ :: _ =>
      logger ERROR "Missing required configuration. Please check your .env file." [] ;;;
      for_each missing_config
        (fun item => logger ERROR "Missing configuration: {item}" [AStr item])
  | [] =>
      converted <- try_except_ValueError
                     (num_results <- int_of (NUM_RESULTS config) ;;
                      radius <- int_of (SEARCH_RADIUS config) ;;
                      ret (Some (num_results, radius)))
                     (fun e =>
                        logger ERROR "Error in configuration values: {e}" [AExn e] ;;;
                        ret None) ;;
      match converted with
      | None => ret tt
      | Some (num_results, radius) =>
          match GOOGLE_MAPS_API_KEY config, SEARCH_LOCATION config, SEARCH_QUERY config with
          | Some api_key, Some location, Some query =>
              run_pipeline fuel config api_key location query num_results radius
          | _, _, _ =>
              (* not reached: nothing is missing here *)
              raise (TypeError "NoneType")
          end
      end
  end.

End Program.

(** ** Observations on runs *)

(** The timestamps the limiter recorded, oldest first. *)
Definition stamps (tr : list Event) : list Z :=
  flat_map (fun e => match e with Stamp t => [t] | _ => [] end) tr.

(** [t] lies in the window of [P] ticks that starts at [t0]. *)
Definition in_window (t0 P t : Z) : bool := (t0 <=? t) && (t <? t0 + P).

Definition calls_in_window (t0 P : Z) (l : list Z) : nat :=
  length (List.filter (in_window t0 P) l).

(** A callee of the limiter that is not itself a client of it: it leaves the
    limiter's object alone, records no timestamp, and takes time. *)
Definition callee {A} (f : M A) : Prop :=
  forall s, limiter (snd (f s)) = limiter s
            /\ stamps (trace (snd (f s))) = stamps (trace s)
            /\ clock s <= clock (snd (f s)).

(** A call handed to the limiter: a callee, whatever it returns. *)
Inductive Call : Type :=
| call {A : Type} (f : M A).

Definition well_behaved (c : Call) : Prop :=
  match c with
  | call f => callee f
  end.

(** The state after the call went through the limiter; whether the callee
    returns or raises, the consumer goes on. *)
Definition run_call (w : World) (c : Call) (s : State) : State :=
  match c with
  | call f => snd (rate_limited_api_call w f s)
  end.

(** A sequence of calls issued one after the other through the limiter. *)
Fixpoint issue (w : World) (cs : list Call) (s : State) : State :=
  match cs with
  | [] => s
  | c :: cs => issue w cs (run_call w c s)
  end.

(** The limiter's own events. *)
Definition is_timing (e : Event) : bool :=
  match e with
  | Stamp _ | Sleep _ => true
  | _ => false
  end.

(** The first clock reading of [throttle] in state [s], and the timestamps
    it keeps. *)
Definition reading (w : World) (s : State) : Z :=
  clock s + 0 + Z.of_nat (elapsed w (reads s)).

Definition kept (w : World) (s : State) : list Z :=
  List.filter (fun t => reading w s - t <? period (limiter s)) (calls (limiter s)).

(** The invariant of the limiter's object and of the timestamps recorded so
    far, for a limiter of [N] calls per [P] ticks. *)
Record limiter_inv (N P : Z) (s : State) : Prop := {
  inv_max_calls : max_calls (limiter s) = N;
  inv_period : period (limiter s) = P;
  inv_sorted : StronglySorted Z.le (calls (limiter s));
  inv_past : List.Forall (fun t => t <= clock s) (calls (limiter s));
  inv_recent : forall c, clock s <= c ->
      List.filter (fun t => c - t <? P) (calls (limiter s))
      = List.filter (fun t => c - t <? P) (stamps (trace s));
  inv_window : forall t0, Z.of_nat (calls_in_window t0 P (stamps (trace s))) <= N
}.

(** A state the program can be in when it calls out: the limiter's object is
    the module's, with its invariant. *)
Definition ready (s : State) : Prop :=
  limiter_inv RATE_LIMIT RATE_LIMIT_PERIOD s.

(** The state [s] after the events [evs]. *)
Definition after (s : State) (evs : list Event) : State :=
  {| clock := clock s; reads := reads s; limiter := limiter s;
     trace := trace s ++ evs; files := files s |}.

(** A 2-tuple, the only input [get_location_coordinates] takes for
    coordinates. *)
Definition is_pair (l : Location) : bool :=
  match l with
  | LocTuple [_; _] => true
  | _ => false
  end.

(** The geocoder finds nothing: an empty list, or an exception. *)
Definition no_match {A} (o : Outcome (list A)) : Prop :=
  o = Ok [] \/ exists e, o = Raise e.

Definition is_HttpGet (e : Event) : bool :=
  match e with HttpGet _ => true | _ => false end.

Definition is_Log (e : Event) : bool :=
  match e with Log _ _ _ => true | _ => false end.

(** The events of searching, enriching, writing and syncing. *)
Definition is_pipeline_work (e : Event) : bool :=
  match e with
  | Places _ _ _ _ | Place _ | HttpGet _ | WriteFile _ _
  | CreateClient _ _ | Insert _ _ => true
  | _ => false
  end.

(** The state [s] after [time.sleep(d)]. *)
Definition slept (w : World) (s : State) (d : Z) : State :=
  {| clock := clock s + d + Z.of_nat (elapsed w (reads s));
     reads := S (reads s); limiter := limiter s;
     trace := trace s ++ [Sleep d]; files := files s |}.

(** [s'] continues [s] by events that all satisfy [p]. *)
Definition extends_by (p : Event -> bool) (s s' : State) : Prop :=
  exists evs, trace s' = trace s ++ evs /\ forallb p evs = true.

(** Neither a search, nor an enrichment, nor a write, nor a sync event. *)
Definition idle (e : Event) : bool := negb (is_pipeline_work e).

(** The options the driver requires. *)
Definition required_options : list string :=
  ["GOOGLE_MAPS_API_KEY"; "SEARCH_LOCATION"; "SEARCH_QUERY"].

(** The log lines of the driver for missing options. *)
Definition missing_lines (missing : list string) : list Event :=
  Log ERROR "Missing required configuration. Please check your .env file." []
  :: map (fun item => Log ERROR "Missing configuration: {item}" [AStr item]) missing.

(** The log line of the driver for a value that is not an integer. *)
Definition invalid_line (v : string) : Event :=
  Log ERROR "Error in configuration values: {e}" [AExn (int_error v)].

(** The text equals "true" up to the case of its letters: one of the sixteen
    spellings. *)
Definition says_true (v : string) : Prop :=
  exists c1 c2 c3 c4 : ascii,
    v = String c1 (String c2 (String c3 (String c4 EmptyString)))
    /\ (c1 = "t" \/ c1 = "T")%char /\ (c2 = "r" \/ c2 = "R")%char
    /\ (c3 = "u" \/ c3 = "U")%char /\ (c4 = "e" \/ c4 = "E")%char.

(** The header row the specification expects in the tabular file. *)
Definition header_row : string := String.concat "," PlaceRecord_fields.

(** ** Pagination, in the words of the specification *)

Definition is_Places (e : Event) : bool :=
  match e with Places _ _ _ _ => true | _ => false end.

(** What the provider does on one search call: it returns a page, with its
    results and maybe a continuation token, or the call fails. *)
Inductive Answer : Type :=
| Returns (page : list RawPlaceRef) (token : option string)
| Fails (e : exn).

Definition results_of (a : Answer) : list RawPlaceRef :=
  match a with
  | Returns page _ => page
  | Fails _ => []
  end.

(** The continuation token a call returned: none when it failed. *)
Definition token_of (a : Answer) : option string :=
  match a with
  | Returns _ token => token
  | Fails _ => None
  end.

(** A provider that gives the listed answers, one per search call, in
    order, and fails when the list is used up. *)
Definition served (answers : list Answer)
  : list Event -> string -> Coords -> Z -> option string -> Outcome PlacesResponse :=
  fun h _ _ _ _ =>
    match nth_error answers (length (List.filter is_Places h)) with
    | Some (Returns page token) =>
        Ok {| places_results := Some page; places_next_page_token := token |}
    | Some (Fails e) => Raise e
    | None => Raise (ProviderError "no more pages")
    end.

(** The results accumulated over the first [j] calls. *)
Definition accumulated (answers : list Answer) (j : nat) : list RawPlaceRef :=
  concat (map results_of (firstn j answers)).

(** The continuation token in hand after [j] calls. *)
Definition token_after (answers : list Answer) (j : nat) : option string :=
  match j with
  | O => None
  | S i =>
      match nth_error answers i with
      | Some a => token_of a
      | None => None
      end
  end.

(** After [j] calls "the accumulated count reaches the requested cap or no
    continuation token is returned". *)
Definition stop_at (cap : Z) (answers : list Answer) (j : nat) : Prop :=
  cap <= Z.of_nat (length (accumulated answers j))
  \/ ((0 < j)%nat /\ truthy_opt (token_after answers j) = false).

(** Pagination stops exactly after [k] calls: then, and not before. *)
Definition stops_exactly_at (cap : Z) (answers : list Answer) (k : nat) : Prop :=
  (k <= length answers)%nat
  /\ stop_at cap answers k
  /\ forall j, (j < k)%nat -> ~ stop_at cap answers j.

(** Whatever the state, the computation [m] only adds events that satisfy
    [p] to the trace. *)
Definition emits {A} (p : Event -> bool) (m : M A) : Prop :=
  forall s, extends_by p s (snd (m s)).

(** The predicate [p] lets the limiter's own events and the log lines
    through. *)
Definition lets_through (p : Event -> bool) : Prop :=
  forall e, is_timing e || is_Log e = true -> p e = true.

(** The log lines of the driver before it calls the orchestrator. *)
Definition config_lines (config_items : list (string * Arg)) (location : string)
  : list Event :=
  Log INFO "Current configuration:" []
  :: flat_map (fun kv =>
                 if negb (String.eqb (fst kv) "GOOGLE_MAPS_API_KEY")
                 then [Log INFO "{key}: {value}" [AStr (fst kv); snd kv]]
                 else []) config_items
  ++ [Log DEBUG "Search location from config: {config['SEARCH_LOCATION']}" [AStr location]].

(** ** Sample worlds *)

Definition place_ref (i : nat) : RawPlaceRef :=
  {| place_id := Some ("place" ++ str_int (Z.of_nat i))%string |}.

(** The [k]-th page of twenty results. *)
Definition page_of (k : nat) : list RawPlaceRef := map place_ref (seq (20 * k) 20).

(** Three pages of twenty results, a continuation token on the first two. *)
Definition three_pages : list Answer :=
  [Returns (page_of 0) (Some "token1"); Returns (page_of 1) (Some "token2");
   Returns (page_of 2) None].

(** A first page with a token, then a failing call. *)
Definition page_then_failure : list Answer :=
  [Returns (page_of 0) (Some "token1"); Fails (ProviderError "OVER_QUERY_LIMIT")].

(** The details of a place: only "place0" has a website. *)
Definition sample_info (id : string) : PlaceInfo :=
  {| name := Some id;
     formatted_address := Some "1 Main Street";
     formatted_phone_number := None;
     website := if String.eqb id "place0" then Some "https://place0.example" else None;
     rating := Some (Float "4.5");
     user_ratings_total := Some 12;
     types := Some ["cafe"; "food"] |}.

Definition sample_environ : gmap string string :=
  list_to_map [("GOOGLE_MAPS_API_KEY", "AIza-sample"); ("SEARCH_LOCATION", "40.0,-73.0");
               ("SEARCH_QUERY", "coffee"); ("NUM_RESULTS", "50")].

Definition sample_world : World :=
  {| environ := sample_environ;
     elapsed := fun _ => 1%nat;
     googlemaps_Client := fun _ => Ok tt;
     gmaps_geocode := fun _ _ => Ok [{| lat := Float "41.5"; lng := Float "-72.25" |}];
     gmaps_places := served three_pages;
     gmaps_place := fun _ id => Ok {| result := Some (sample_info id) |};
     page_emails := fun _ _ => Ok ["info@place0.example"];
     completion_rank := fun i => i;
     pandas_row := fun _ r => default "" (Name r);
     json_object := fun r => default "" (Name r);
     supabase_create_client := fun _ _ => Ok tt;
     supabase_insert := fun _ _ _ => Ok true |}.

(** The same world with other environment variables, or another geocoder. *)
Definition with_environ (w : World) (env : gmap string string) : World :=
  {| environ := env;
     elapsed := elapsed w;
     googlemaps_Client := googlemaps_Client w;
     gmaps_geocode := gmaps_geocode w;
     gmaps_places := gmaps_places w;
     gmaps_place := gmaps_place w;
     page_emails := page_emails w;
     completion_rank := completion_rank w;
     pandas_row := pandas_row w;
     json_object := json_object w;
     supabase_create_client := supabase_create_client w;
     supabase_insert := supabase_insert w |}.

Definition with_geocode (w : World)
    (geocode : list Event -> Location -> Outcome (list GeocodeMatch)) : World :=
  {| environ := environ w;
     elapsed := elapsed w;
     googlemaps_Client := googlemaps_Client w;
     gmaps_geocode := geocode;
     gmaps_places := gmaps_places w;
     gmaps_place := gmaps_place w;
     page_emails := page_emails w;
     completion_rank := completion_rank w;
     pandas_row := pandas_row w;
     json_object := json_object w;
     supabase_create_client := supabase_create_client w;
     supabase_insert := supabase_insert w |}.

Definition with_places (w : World)
    (places : list Event -> string -> Coords -> Z -> option string -> Outcome PlacesResponse)
  : World :=
  {| environ := environ w;
     elapsed := elapsed w;
     googlemaps_Client := googlemaps_Client w;
     gmaps_geocode := gmaps_geocode w;
     gmaps_places := places;
     gmaps_place := gmaps_place w;
     page_emails := page_emails w;
     completion_rank := completion_rank w;
     pandas_row := pandas_row w;
     json_object := json_object w;
     supabase_create_client := supabase_create_client w;
     supabase_insert := supabase_insert w |}.

(** A world whose geocoder knows no place. *)
Definition nowhere_world : World := with_geocode sample_world (fun _ _ => Ok []).

(** NUM_RESULTS and SEARCH_RADIUS are both not integers. *)
Definition bad_numbers_world : World :=
  with_environ sample_world
    (<["NUM_RESULTS" := "abc"]> (<["SEARCH_RADIUS" := "xyz"]> sample_environ)).

(** The API key is not set. *)
Definition no_key_world : World :=
  with_environ sample_world (delete "GOOGLE_MAPS_API_KEY" sample_environ).

(** Remote sync is enabled, the table name is not set. *)
Definition sync_world : World :=
  with_environ sample_world
    (<["USE_SUPABASE" := "True"]>
       (<["SUPABASE_URL" := "https://db.example"]>
          (<["SUPABASE_KEY" := "secret"]> sample_environ))).

(** Three calls of the program's kinds: a geocoding, a search, a detail
    fetch. *)
Definition three_calls : list Call :=
  [call (foreign (Geocode (LocStr "Paris"))
           (fun h => gmaps_geocode sample_world h (LocStr "Paris")));
   call (foreign (Places "coffee" (Float "41.5", Float "-72.25") 50000 None)
           (fun h => gmaps_places sample_world h "coffee" (Float "41.5", Float "-72.25")
                       50000 None));
   call (foreign (Place "place0") (fun h => gmaps_place sample_world h "place0"))].

(** A limiter of two calls per ten ticks, at the start. *)
Definition small_limiter_state : State :=
  {| clock := 0; reads := 0%nat; limiter := RateLimiter_init 2 10;
     trace := []; files := ∅ |}.

Definition is_Geocode (e : Event) : bool :=
  match e with Geocode _ => true | _ => false end.

Definition is_Place (e : Event) : bool :=
  match e with Place _ => true | _ => false end.

(** The orchestrator's run in the sample world, from the initial state. *)
Definition sample_run : Outcome (list PlaceRecord) * State :=
  get_google_maps_data sample_world 3 "AIza-sample" (LocStr "40.0,-73.0") "coffee"
    50 50000 initial_state.

(** The records of an outcome, none if there is no list. *)
Definition records_of (o : Outcome (list PlaceRecord)) : list PlaceRecord :=
  match o with
  | Ok data => data
  | _ => []
  end.

Definition is_sync (e : Event) : bool :=
  match e with CreateClient _ _ | Insert _ _ => true | _ => false end.

Definition sync_error_line : Event :=
  Log ERROR "Supabase is enabled but missing required configuration. Please check your .env file for SUPABASE_URL, SUPABASE_KEY, and SUPABASE_TABLE_NAME." [].

(** ** Further observations *)

Definition is_Insert (e : Event) : bool :=
  match e with Insert _ _ => true | _ => false end.

Definition is_WriteFile (e : Event) : bool :=
  match e with WriteFile _ _ => true | _ => false end.

Definition is_Sleep (e : Event) : bool :=
  match e with Sleep _ => true | _ => false end.

(** A call to the provider: geocoding, search page, place details. *)
Definition is_provider_call (e : Event) : bool :=
  match e with
  | Geocode _ | Places _ _ _ _ | Place _ => true
  | _ => false
  end.

Definition is_Stamp (e : Event) : bool :=
  match e with Stamp _ => true | _ => false end.

(** The records of the futures that completed with a result, and the number
    of those that completed with an exception. *)
Definition successes (futures : list (Outcome PlaceRecord)) : list PlaceRecord :=
  flat_map (fun f => match f with Ok record => [record] | _ => [] end) futures.

Definition failed (f : Outcome PlaceRecord) : bool :=
  match f with Raise _ => true | _ => false end.

(** The table the rows go to. *)
Definition sync_table (w : World) : string :=
  os_getenv_default w "SUPABASE_TABLE_NAME" "google_maps_data".

(** A search result that carries its identifier. *)
Definition has_place_id (place : RawPlaceRef) : bool :=
  match place_id place with Some _ => true | None => false end.

(** The identifiers of search results. *)
Definition place_ids (places : list RawPlaceRef) : list string :=
  flat_map (fun place => match place_id place with Some id => [id] | None => [] end) places.

(** Every search page the provider returns lists results with identifiers. *)
Definition provider_results_have_ids (w : World) : Prop :=
  forall h q c r t response page,
    gmaps_places w h q c r t = Ok response ->
    places_results response = Some page ->
    forallb has_place_id page = true.

(** A limiter of [N] calls per [P] ticks whose log holds at most [N + 1]
    timestamps. *)
Definition log_bounded (N : Z) (s : State) : Prop :=
  Z.of_nat (length (calls (limiter s))) <= N + 1.

(** The outcome is an exception. *)
Definition raises {A} (o : Outcome A) : bool :=
  match o with Raise _ => true | _ => false end.

(** A future that completed, with a result or an exception. *)
Definition settled (f : Outcome PlaceRecord) : bool :=
  match f with OutOfFuel => false | _ => true end.

(** The error lines the collection logs, one per failed future. *)
Definition failure_lines (futures : list (Outcome PlaceRecord)) : list Event :=
  flat_map (fun f => match f with
                     | Raise e => [Log ERROR "Error fetching place details: {e}" [AExn e]]
                     | _ => []
                     end) futures.

(** Neither a write nor a sync event: what fetching consists of. *)
Definition fetching (e : Event) : bool := negb (is_WriteFile e) && negb (is_sync e).

(** From [s] to [s'] no file changed and only events satisfying [ok] were
    added. *)
Definition quietly (ok : Event -> bool) (s s' : State) : Prop :=
  files s' = files s /\ extends_by ok s s'.

(** From [s] to [s'] no file changed but maybe the two output files of the
    stem. *)
Definition outside (stem : string) (s s' : State) : Prop :=
  forall path,
    path <> (stem ++ ".csv")%string -> path <> (stem ++ ".json")%string ->
    files s' !! path = files s !! path.

(** Every run of [m] takes the state to a related one. *)
Definition steps {A} (R : State -> State -> Prop) (m : M A) : Prop :=
  forall s, R s (snd (m s)).

(** ** Further sample worlds *)

(** A record as the enricher builds it for a place without website. *)
Definition sample_record (id : string) : PlaceRecord :=
  {| Name := Some id;
     Address := Some "1 Main Street";
     Phone := None;
     Website := None;
     Email := None;
     Rating := Some (Float "4.5");
     Reviews := Some 12;
     Types := "cafe, food" |}.

Definition three_records : list PlaceRecord :=
  [sample_record "place0"; sample_record "place1"; sample_record "place2"].

Definition with_sync (w : World)
    (create_client : option string -> option string -> Outcome unit)
    (insert : list Event -> string -> PlaceRecord -> Outcome bool) : World :=
  {| environ := environ w;
     elapsed := elapsed w;
     googlemaps_Client := googlemaps_Client w;
     gmaps_geocode := gmaps_geocode w;
     gmaps_places := gmaps_places w;
     gmaps_place := gmaps_place w;
     page_emails := page_emails w;
     completion_rank := completion_rank w;
     pandas_row := pandas_row w;
     json_object := json_object w;
     supabase_create_client := create_client;
     supabase_insert := insert |}.

(** Remote sync enabled and configured. *)
Definition synced_environ : gmap string string :=
  <["USE_SUPABASE" := "true"]>
    (<["SUPABASE_URL" := "https://db.example"]>
       (<["SUPABASE_KEY" := "secret"]>
          (<["SUPABASE_TABLE_NAME" := "places"]> sample_environ))).

(** A remote table whose first insert raises and whose second gives no
    data. *)
Definition flaky_sync_world : World :=
  with_sync (with_environ sample_world synced_environ)
    (fun _ _ => Ok tt)
    (fun h _ _ =>
       match length (List.filter is_Insert h) with
       | O => Raise (ProviderError "timeout")
       | S O => Ok false
       | _ => Ok true
       end).

(** A remote service that refuses the client. *)
Definition no_client_world : World :=
  with_sync (with_environ sample_world synced_environ)
    (fun _ _ => Raise (ProviderError "Invalid API key"))
    (fun _ _ _ => Ok true).

Definition with_client (w : World) (client : string -> Outcome unit) : World :=
  {| environ := environ w;
     elapsed := elapsed w;
     googlemaps_Client := client;
     gmaps_geocode := gmaps_geocode w;
     gmaps_places := gmaps_places w;
     gmaps_place := gmaps_place w;
     page_emails := page_emails w;
     completion_rank := completion_rank w;
     pandas_row := pandas_row w;
     json_object := json_object w;
     supabase_create_client := supabase_create_client w;
     supabase_insert := supabase_insert w |}.

(** A client constructor that rejects the key. *)
Definition bad_key_world : World :=
  with_client sample_world (fun _ => Raise (ValueError "Invalid API key provided.")).

Definition with_place (w : World) (place : list Event -> string -> Outcome PlaceResponse)
  : World :=
  {| environ := environ w;
     elapsed := elapsed w;
     googlemaps_Client := googlemaps_Client w;
     gmaps_geocode := gmaps_geocode w;
     gmaps_places := gmaps_places w;
     gmaps_place := place;
     page_emails := page_emails w;
     completion_rank := completion_rank w;
     pandas_row := pandas_row w;
     json_object := json_object w;
     supabase_create_client := supabase_create_client w;
     supabase_insert := supabase_insert w |}.

(** A provider that knows no detail of any place. *)
Definition no_details_world : World :=
  with_place sample_world (fun _ _ => Raise (ProviderError "NOT_FOUND")).

(** Three futures, the second failed. *)
Definition three_futures : list (Outcome PlaceRecord) :=
  [Ok (sample_record "place0"); Raise (ProviderError "NOT_FOUND");
   Ok (sample_record "place2")].

(** The state in which the driver calls the orchestrator in world [w]. *)
Definition configured (w : World) (num_results radius : Z) (location : string) : State :=
  after initial_state
    (config_lines (config_items (read_config w) (AInt num_results) (AInt radius)) location).

(** The state after two calls through the limiter of two calls per ten
    ticks. *)
Definition two_calls_made : State :=
  issue sample_world (firstn 2 three_calls) small_limiter_state.

(** The number of detail calls made so far. *)
Definition detail_calls (s : State) : nat := length (List.filter is_Place (trace s)).

(** Not a detail call. *)
Definition not_Place (e : Event) : bool := negb (is_Place e).

(** A provider whose only page lists a result without identifier. *)
Definition nameless_page : list RawPlaceRef :=
  [place_ref 0; {| place_id := None |}; place_ref 2].

Definition nameless_world : World :=
  with_places sample_world (served [Returns nameless_page None]).

(** ** Persistence when a file may not open *)

(** The program model above writes through [write_file], which takes for
    granted that the file opens.  Here the opening is a step of its own: the
    world, [can_open], says whether [open] succeeds on a path or raises, and
    the mode says what becomes of the content the file had. *)
Module Disk.

(** The modes ['w'] and ['a'] of [open]. *)
Inductive Mode : Type :=
| mode_w
| mode_a.

(** [open(path, mode)]: when the file opens, ['w'] empties it, ['a'] keeps
    what it holds (and creates it empty if it is not there). *)
Definition open_file (can_open : list Event -> string -> Outcome unit)
    (path : string) (mode : Mode) : M unit :=
  fun s =>
    match can_open (trace s) path with
    | Ok _ =>
        (Ok tt,
         {| clock := clock s; reads := reads s; limiter := limiter s; trace := trace s;
            files := match mode with
                     | mode_w => <[path := ""]> (files s)
                     | mode_a => <[path := default "" (files s !! path)]> (files s)
                     end |})
    | Raise e => (Raise e, s)
    | OutOfFuel => (OutOfFuel, s)
    end.

(** [f.write(text)]: the text goes to the end of the open file. *)
Definition write (path text : string) : M unit :=
  fun s =>
    (Ok tt,
     {| clock := clock s; reads := reads s; limiter := limiter s;
        trace := trace s ++ [WriteFile path text];
        files := <[path := (default "" (files s !! path) ++ text)%string]> (files s) |}).

(** [save_to_file]: [to_csv] opens its file with its default mode, ['w'];
    the JSON file is opened with ['w'] by the function itself.  Neither
    opening has a handler. *)
Definition save_to_file (w : World) (can_open : list Event -> string -> Outcome unit)
    (data : list PlaceRecord) (output_file : string) (output_csv output_json : bool)
  : M unit :=
  (if output_csv then
     let csv_file := (output_file ++ ".csv")%string in
     open_file can_open csv_file mode_w ;;;
     write csv_file (to_csv w data) ;;;
     logger INFO "Data saved to CSV: {csv_file}" [AStr csv_file]
   else ret tt) ;;;
  (if output_json then
     let json_file := (output_file ++ ".json")%string in
     open_file can_open json_file mode_w ;;;
     write json_file (json_dump w data) ;;;
     logger INFO "Data saved to JSON: {json_file}" [AStr json_file]
   else ret tt).

End Disk.

(** A disk on which every file opens, and one on which no file of the
    directory [/nonexistent] does. *)
Definition any_file_opens : list Event -> string -> Outcome unit := fun _ _ => Ok tt.

Definition no_such_directory : list Event -> string -> Outcome unit :=
  fun _ path =>
    if String.prefix "/nonexistent/" path
    then Raise (ProviderError "No such file or directory")
    else Ok tt.

(** * Theorems *)

Section ListFacts.

Context {A : Type}.

Lemma filter_length_mono (p q : A -> bool) (l : list A) :
  (forall x, In x l -> p x = true -> q x = true) ->
  (length (List.filter p l) <= length (List.filter q l))%nat.
Proof.
  induction l as [|a l IH]; intros H; simpl; [lia|].
  assert (IH' : (length (List.filter p l) <= length (List.filter q l))%nat).
  { apply IH. intros x Hx. apply H. now right. }
  destruct (p a) eqn:Hp.
  - rewrite (H a (or_introl eq_refl) Hp). simpl. lia.
  - destruct (q a); simpl; lia.
Qed.

Lemma filter_filter_absorb (p q : A -> bool) (l : list A) :
  (forall x, In x l -> q x = true -> p x = true) ->
  List.filter q (List.filter p l) = List.filter q l.
Proof.
  induction l as [|a l IH]; intros H; simpl; [reflexivity|].
  assert (IH' : List.filter q (List.filter p l) = List.filter q l).
  { apply IH. intros x Hx. apply H. now right. }
  destruct (p a) eqn:Hp; simpl.
  - now rewrite IH'.
  - destruct (q a) eqn:Hq; [|assumption].
    rewrite (H a (or_introl eq_refl) Hq) in Hp. discriminate.
Qed.

Lemma filter_length_le (p : A -> bool) (l : list A) :
  (length (List.filter p l) <= length l)%nat.
Proof.
  induction l as [|a l IH]; simpl; [lia|]. destruct (p a); simpl; lia.
Qed.

End ListFacts.

Lemma stamps_app tr1 tr2 : stamps (tr1 ++ tr2) = stamps tr1 ++ stamps tr2.
Proof. unfold stamps. apply flat_map_app. Qed.

Lemma sorted_filter (p : Z -> bool) (l : list Z) :
  StronglySorted Z.le l -> StronglySorted Z.le (List.filter p l).
Proof.
  induction 1 as [|a l Hs IH Ha]; simpl; [constructor|].
  destruct (p a); [|assumption].
  constructor; [assumption|].
  rewrite List.Forall_forall in *. intros x Hx.
  apply Ha. apply List.filter_In in Hx. tauto.
Qed.

Lemma sorted_snoc (l : list Z) (t : Z) :
  StronglySorted Z.le l -> List.Forall (fun x => x <= t) l ->
  StronglySorted Z.le (l ++ [t]).
Proof.
  induction 1 as [|a l Hs IH Ha]; intros Hle; simpl.
  - repeat constructor.
  - inversion Hle; subst. constructor; [auto|].
    apply List.Forall_app. split; [assumption|]. constructor; [assumption|constructor].
Qed.

(** ** The rate limiter *)

Section Limiter.

Context (w : World).

(** What one pass through [throttle] does, provided [self.calls[0]] exists
    when it is read. *)
Lemma throttle_run (s : State) :
  (max_calls (limiter s) <= Z.of_nat (length (kept w s)) -> kept w s <> []) ->
  exists s' t,
    throttle w s = (Ok tt, s')
    /\ reading w s <= t
    /\ clock s' = t
    /\ limiter s' = {| max_calls := max_calls (limiter s);
                       period := period (limiter s);
                       calls := kept w s ++ [t] |}
    /\ stamps (trace s') = stamps (trace s) ++ [t]
    /\ files s' = files s
    /\ (max_calls (limiter s) <= Z.of_nat (length (kept w s)) ->
        forall k0 rest, kept w s = k0 :: rest -> k0 + period (limiter s) <= t)
    /\ exists evs, trace s' = trace s ++ evs /\ forallb is_timing evs = true.
Proof.
  intros Hhead.
  unfold throttle, bind, time_time, time_sleep, tick, get_limiter, set_calls, emit, ret, raise, bind.
  cbn [clock reads limiter trace files max_calls period calls fst snd].
  fold (reading w s). fold (kept w s).
  destruct (max_calls (limiter s) <=? Z.of_nat (length (kept w s))) eqn:Hfull.
  - apply Z.leb_le in Hfull. specialize (Hhead Hfull).
    destruct (kept w s) as [|k0 rest] eqn:Hk; [congruence|].
    destruct (0 <? period (limiter s) - (reading w s - k0)) eqn:Hsleep;
      cbn [clock reads limiter trace files max_calls period calls fst snd bind].
    + eexists _, _. split; [reflexivity|].
      cbn [clock reads limiter trace files].
      rewrite !stamps_app. cbn [stamps flat_map app]. rewrite app_nil_r.
      repeat split; try lia.
      * intros _ k0' rest' Heq. inversion Heq; subst. lia.
      * eexists. rewrite <- app_assoc. split; reflexivity.
    + apply Z.ltb_ge in Hsleep.
      eexists _, _. split; [reflexivity|].
      cbn [clock reads limiter trace files].
      rewrite !stamps_app. cbn [stamps flat_map app].
      repeat split; try lia.
      * intros _ k0' rest' Heq. inversion Heq; subst. lia.
      * eexists. split; reflexivity.
  - apply Z.leb_gt in Hfull.
    cbn [clock reads limiter trace files max_calls period calls fst snd bind].
    eexists _, _. split; [reflexivity|].
    cbn [clock reads limiter trace files].
    rewrite !stamps_app. cbn [stamps flat_map app].
    repeat split; try lia.
    eexists. split; reflexivity.
Qed.

Lemma limiter_inv_fresh (N P : Z) (s : State) :
  0 <= N -> limiter s = RateLimiter_init N P -> stamps (trace s) = [] ->
  limiter_inv N P s.
Proof.
  intros HN Hl Hs. split; rewrite ?Hl, ?Hs; cbn; auto; try constructor; lia.
Qed.

(** The kept timestamps all lie in the window that starts at the oldest of
    them, so there are at most [N]. *)
Lemma kept_bounded (N P : Z) (s : State) :
  limiter_inv N P s -> Z.of_nat (length (kept w s)) <= N.
Proof.
  intros [Hmax Hper Hsorted Hpast Hrecent Hwin].
  assert (Hnow : clock s <= reading w s) by (unfold reading; lia).
  assert (Hk : kept w s = List.filter (fun t => reading w s - t <? P) (stamps (trace s))).
  { unfold kept. rewrite Hper. now apply Hrecent. }
  assert (Hks : StronglySorted Z.le (kept w s)).
  { unfold kept. now apply sorted_filter. }
  destruct (kept w s) as [|k0 rest] eqn:Hkept; [cbn; specialize (Hwin 0); lia|].
  specialize (Hwin k0). unfold calls_in_window in Hwin.
  etransitivity; [|exact Hwin]. apply inj_le.
  rewrite Hk. apply filter_length_mono. intros t Ht Hrec.
  assert (Hin : In t (k0 :: rest)).
  { rewrite Hk. apply List.filter_In. split; assumption. }
  assert (Hk0 : In k0 (kept w s)) by (rewrite Hkept; now left).
  unfold kept in Hk0. apply List.filter_In in Hk0. destruct Hk0 as [Hk0c Hk0r].
  rewrite Hper in Hk0r. apply Z.ltb_lt in Hk0r.
  assert (Ht_past : t <= clock s).
  { rewrite <- Hkept in Hin. unfold kept in Hin. apply List.filter_In in Hin.
    rewrite List.Forall_forall in Hpast. apply Hpast. tauto. }
  unfold in_window. apply andb_true_intro. split.
  - apply Z.leb_le. inversion Hks as [|? ? _ Hall]; subst.
    destruct Hin as [->|Hin]; [lia|].
    rewrite List.Forall_forall in Hall. now apply Hall.
  - apply Z.ltb_lt. lia.
Qed.

(** One pass through [throttle] succeeds and keeps the invariant. *)
Lemma throttle_inv (N P : Z) (s : State) :
  1 <= N -> limiter_inv N P s ->
  exists s', throttle w s = (Ok tt, s') /\ limiter_inv N P s'
             /\ files s' = files s /\ clock s <= clock s'
             /\ exists evs, trace s' = trace s ++ evs /\ forallb is_timing evs = true.
Proof.
  intros HN Hinv.
  pose proof (kept_bounded N P s Hinv) as Hbound.
  destruct Hinv as [Hmax Hper Hsorted Hpast Hrecent Hwin].
  assert (Hnow : clock s <= reading w s) by (unfold reading; lia).
  destruct (throttle_run s) as (s' & t & Hrun & Ht & Hclock & Hlim & Hst & Hfiles & Hwait & Hevs).
  { rewrite Hmax. intros Hfull Hnil. rewrite Hnil in Hfull. cbn in Hfull. lia. }
  exists s'. split; [exact Hrun|]. split; [|split; [exact Hfiles|split; [lia|exact Hevs]]].
  assert (Hkept_past : List.Forall (fun x => x <= t) (kept w s)).
  { rewrite List.Forall_forall in *. intros x Hx. unfold kept in Hx.
    apply List.filter_In in Hx. specialize (Hpast x (proj1 Hx)). lia. }
  assert (Hk : forall c, reading w s <= c ->
             List.filter (fun x => c - x <? P) (kept w s)
             = List.filter (fun x => c - x <? P) (stamps (trace s))).
  { intros c Hc. unfold kept. rewrite Hper, filter_filter_absorb.
    - apply Hrecent. lia.
    - intros x _ Hx. apply Z.ltb_lt in Hx. apply Z.ltb_lt. lia. }
  split; rewrite ?Hlim, ?Hst, ?Hclock; cbn [max_calls period calls].
  - exact Hmax.
  - exact Hper.
  - apply sorted_snoc; [|exact Hkept_past]. unfold kept. now apply sorted_filter.
  - apply List.Forall_app. split.
    + exact Hkept_past.
    + constructor; [lia|constructor].
  - intros c Hc. rewrite !List.filter_app. f_equal. apply Hk. lia.
  - intros t0. unfold calls_in_window. rewrite List.filter_app, length_app.
    cbn [List.filter]. destruct (in_window t0 P t) eqn:Hin; cbn [length].
    2:{ specialize (Hwin t0). unfold calls_in_window in Hwin. lia. }
    unfold in_window in Hin. apply andb_prop in Hin. destruct Hin as [Hlo Hhi].
    apply Z.leb_le in Hlo. apply Z.ltb_lt in Hhi.
    (* the old timestamps of this window are recent with respect to [t] *)
    assert (Hold : (length (List.filter (in_window t0 P) (stamps (trace s)))
                    <= length (List.filter (fun x => (t - x <? P)%Z) (kept w s)))%nat).
    { rewrite Hk by lia. apply filter_length_mono. intros x _ Hx.
      unfold in_window in Hx. apply andb_prop in Hx. destruct Hx as [Hx _].
      apply Z.leb_le in Hx. apply Z.ltb_lt. lia. }
    destruct (Z_lt_le_dec (Z.of_nat (length (kept w s))) N) as [Hfree|Hfull].
    + pose proof (filter_length_le (fun x => t - x <? P) (kept w s)). lia.
    + rewrite <- Hmax in Hfull. specialize (Hwait Hfull).
      destruct (kept w s) as [|k0 rest] eqn:Hkept; [cbn in Hfull; lia|].
      specialize (Hwait k0 rest eq_refl). rewrite Hper in Hwait.
      cbn [List.filter] in Hold.
      replace (t - k0 <? P) with false in Hold by (symmetry; apply Z.ltb_ge; lia).
      pose proof (filter_length_le (fun x => t - x <? P) rest).
      cbn [length] in Hbound. lia.
Qed.

(** A callee keeps the invariant. *)
Lemma callee_inv {A} (f : M A) (N P : Z) (s : State) :
  callee f -> limiter_inv N P s -> limiter_inv N P (snd (f s)).
Proof.
  intros Hf [Hmax Hper Hsorted Hpast Hrecent Hwin].
  destruct (Hf s) as (Hl & Hs & Hc).
  split; rewrite ?Hl, ?Hs; auto.
  - rewrite List.Forall_forall in *. intros x Hx. specialize (Hpast x Hx). lia.
  - intros c Hcc. apply Hrecent. lia.
Qed.

Lemma rate_limited_api_call_inv {A} (f : M A) (N P : Z) (s : State) :
  1 <= N -> callee f -> limiter_inv N P s ->
  limiter_inv N P (snd (rate_limited_api_call w f s)).
Proof.
  intros HN Hf Hinv.
  destruct (throttle_inv N P s HN Hinv) as (s' & Hrun & Hinv' & _).
  unfold rate_limited_api_call, wrapped, bind. rewrite Hrun.
  now apply callee_inv.
Qed.

Lemma issue_inv (cs : list Call) (N P : Z) (s : State) :
  1 <= N -> List.Forall well_behaved cs -> limiter_inv N P s ->
  limiter_inv N P (issue w cs s).
Proof.
  intros HN Hcs. revert s.
  induction Hcs as [|[A f] cs Hf _ IH]; intros s Hinv; cbn [issue run_call]; [assumption|].
  apply IH. now apply rate_limited_api_call_inv.
Qed.

End Limiter.

(** ** Running the monad *)

Lemma bind_Ok {A B} (m : M A) (k : A -> M B) (s s' : State) (b : B) :
  bind m k s = (Ok b, s') ->
  exists a s1, m s = (Ok a, s1) /\ k a s1 = (Ok b, s').
Proof.
  unfold bind. destruct (m s) as [[a|e|] s1]; intros H; try discriminate.
  now exists a, s1.
Qed.

Tactic Notation "bind_inv" hyp(H) "as" ident(a) ident(s) ident(H1) :=
  apply bind_Ok in H; destruct H as (a & s & H1 & H).

Lemma bind_emit {B} (e : Event) (k : unit -> M B) (s : State) :
  bind (emit e) k s = k tt (after s [e]).
Proof. reflexivity. Qed.

Lemma bind_logger {B} lvl template args (k : unit -> M B) (s : State) :
  bind (logger lvl template args) k s = k tt (after s [Log lvl template args]).
Proof. reflexivity. Qed.

Lemma try_except_logger {A} lvl template args (k : unit -> M A) (h : exn -> M A)
    (s : State) :
  try_except (bind (logger lvl template args) k) h s
  = try_except (k tt) h (after s [Log lvl template args]).
Proof. reflexivity. Qed.

Lemma bind_ret {A B} (a : A) (k : A -> M B) (s : State) : bind (ret a) k s = k a s.
Proof. reflexivity. Qed.

Lemma bind_raise {A B} (e : exn) (k : A -> M B) (s : State) :
  bind (raise e) k s = (Raise e, s).
Proof. reflexivity. Qed.

Lemma bind_assoc {A B C} (m : M A) (k1 : A -> M B) (k2 : B -> M C) (s : State) :
  bind (bind m k1) k2 s = bind m (fun a => bind (k1 a) k2) s.
Proof. unfold bind. destruct (m s) as [[a|e|] s1]; reflexivity. Qed.

Lemma foreign_run {A} (e : Event) (answer : list Event -> Outcome A) (s : State) :
  foreign e answer s = (answer (trace s), after s [e]).
Proof.
  unfold foreign, bind, get_trace, emit, reply. reflexivity.
Qed.

Lemma after_after (s : State) (evs1 evs2 : list Event) :
  after (after s evs1) evs2 = after s (evs1 ++ evs2).
Proof. unfold after. cbn. now rewrite app_assoc. Qed.

Lemma extends_by_refl p s : extends_by p s s.
Proof. exists []. split; [now rewrite app_nil_r|reflexivity]. Qed.

Lemma extends_by_trans p s1 s2 s3 :
  extends_by p s1 s2 -> extends_by p s2 s3 -> extends_by p s1 s3.
Proof.
  intros (e1 & H1 & F1) (e2 & H2 & F2). exists (e1 ++ e2). split.
  - now rewrite H2, H1, app_assoc.
  - rewrite forallb_app. now rewrite F1, F2.
Qed.

Lemma extends_by_after p s evs : forallb p evs = true -> extends_by p s (after s evs).
Proof. intros H. now exists evs. Qed.

Lemma extends_by_weaken (p q : Event -> bool) s s' :
  (forall e, p e = true -> q e = true) -> extends_by p s s' -> extends_by q s s'.
Proof.
  intros Hpq (evs & H & F). exists evs. split; [exact H|].
  rewrite forallb_forall in *. auto.
Qed.

(** Events that all fail [q] do not show under [filter q]. *)
Lemma extends_by_filter (p q : Event -> bool) s s' :
  (forall e, p e = true -> q e = false) -> extends_by p s s' ->
  List.filter q (trace s') = List.filter q (trace s).
Proof.
  intros Hpq (evs & H & F). rewrite H, List.filter_app.
  assert (Hnil : List.filter q evs = []).
  { clear H. induction evs as [|e evs IH]; [reflexivity|].
    cbn in F. apply andb_prop in F. destruct F as [Fe F].
    cbn. rewrite (Hpq e Fe). auto. }
  now rewrite Hnil, app_nil_r.
Qed.

(** One step of symbolic execution at the head of a run. *)
Ltac run_step :=
  first [ rewrite bind_logger | rewrite bind_emit | rewrite bind_ret
        | rewrite bind_raise | rewrite bind_assoc | rewrite after_after
        | progress unfold raise, ret | progress cbv beta iota ].

Ltac run := repeat run_step.

Lemma ready_initial_state : ready initial_state.
Proof. apply limiter_inv_fresh; [unfold RATE_LIMIT; lia|reflexivity|reflexivity]. Qed.

Lemma limiter_inv_frame (N P : Z) (s s' : State) :
  limiter s' = limiter s -> stamps (trace s') = stamps (trace s) -> clock s <= clock s' ->
  limiter_inv N P s -> limiter_inv N P s'.
Proof.
  intros Hl Hs Hc [Hmax Hper Hsorted Hpast Hrecent Hwin].
  split; rewrite ?Hl, ?Hs; auto.
  - rewrite List.Forall_forall in *. intros x Hx. specialize (Hpast x Hx). lia.
  - intros c Hcc. apply Hrecent. lia.
Qed.

Lemma ready_after (s : State) (evs : list Event) :
  stamps evs = [] -> ready s -> ready (after s evs).
Proof.
  intros He. apply limiter_inv_frame; cbn [after clock limiter trace]; try reflexivity; try lia.
  now rewrite stamps_app, He, app_nil_r.
Qed.

Section Calls.

Context (w : World).

Lemma try_except_sleep {A B} (d : Z) (k1 : unit -> M A) (k2 : A -> M B)
    (h : exn -> M B) (s : State) :
  try_except (bind (bind (time_sleep w d) k1) k2) h s
  = try_except (bind (k1 tt) k2) h (slept w s d).
Proof. reflexivity. Qed.

Lemma ready_slept (s : State) (d : Z) : 0 <= d -> ready s -> ready (slept w s d).
Proof.
  intros Hd. apply limiter_inv_frame; cbn [slept clock limiter trace]; try reflexivity; try lia.
  rewrite stamps_app. cbn. now rewrite app_nil_r.
Qed.

(** From a ready state the limiter lets the call through: it only adds its
    own events, and the state stays ready. *)
Lemma rate_limited_api_call_run {A} (f : M A) (s : State) :
  ready s ->
  exists s1 evs,
    rate_limited_api_call w f s = f s1
    /\ ready s1 /\ files s1 = files s
    /\ trace s1 = trace s ++ evs /\ forallb is_timing evs = true.
Proof.
  intros Hr.
  destruct (throttle_inv w RATE_LIMIT RATE_LIMIT_PERIOD s) as (s1 & Hrun & Hinv & Hf & _ & evs & Ht & Hev);
    [unfold RATE_LIMIT; lia|exact Hr|].
  exists s1, evs.
  split; [unfold rate_limited_api_call, wrapped, bind; now rewrite Hrun|].
  split; [exact Hinv|]. split; [exact Hf|]. split; [exact Ht|exact Hev].
Qed.

End Calls.

(** ** Location resolution *)

(** C1 (as amended): the location-resolution step returns its input verbatim,
    without a geocoding call, exactly when it is handed a 2-tuple (only two
    log lines are added); any other input, and so every string read from
    SEARCH_LOCATION, is sent to the geocoding endpoint. *)
Theorem get_location_coordinates_pair_or_geocode (w : World) (s : State) :
  (forall a b,
      get_location_coordinates w (LocTuple [a; b]) s
      = (Ok (a, b),
         after s [Log DEBUG "Attempting to get coordinates for location: {location}"
                      [ALoc (LocTuple [a; b])];
                  Log DEBUG "Location is already in coordinate form: {location}"
                      [ALoc (LocTuple [a; b])]]))
  /\ (forall location,
         ready s -> is_pair location = false ->
         In (Geocode location) (trace (snd (get_location_coordinates w location s)))).
Proof.
  split.
  - intros a b. unfold get_location_coordinates, logger, emit, bind, ret, after.
    cbn [clock reads limiter trace files]. now rewrite <- app_assoc.
  - intros location Hr Hp.
    set (log1 := Log DEBUG "Attempting to get coordinates for location: {location}" [ALoc location]).
    destruct (rate_limited_api_call_run w
                (foreign (Geocode location) (fun h => gmaps_geocode w h location))
                (after s [log1]) ) as (s1 & evs & Hcall & _ & _ & Htr & _).
    { now apply ready_after. }
    assert (Hgeo : In (Geocode location)
      (trace (snd (try_except
         (geocode_result <- rate_limited_api_call w
                              (foreign (Geocode location) (fun h => gmaps_geocode w h location)) ;;
          match geocode_result with
          | m :: _ =>
              logger DEBUG "Geocoded {location} to coordinates: ({lat}, {lng})"
                     [ALoc location; ANum (lat m); ANum (lng m)] ;;;
              ret (lat m, lng m)
          | [] =>
              raise (ValueError ("Unable to geocode location: " ++ str_Location location)%string)
          end)%py
         (fun e =>
            logger ERROR "Error geocoding location {location}: {e}" [ALoc location; AExn e] ;;;
            raise e)%py
         (after s [log1]))))).
    { unfold try_except, bind at 1. rewrite Hcall.
      unfold foreign, bind, get_trace, emit, reply, logger, emit, raise, ret.
      cbn [clock reads limiter trace files].
      destruct (gmaps_geocode w (trace s1) location) as [[|m g]|e|];
        cbn [clock reads limiter trace files snd]; rewrite ?in_app_iff; cbn [In]; intuition. }
    destruct location as [str|[|a [|b [|c l]]]]; try discriminate Hp; exact Hgeo.
Qed.

(** ** The enricher *)

Section Enricher.

Context (w : World).

(** Whatever the limiter's state, [throttle] only adds its own events. *)
Lemma throttle_timing (s : State) :
  extends_by is_timing s (snd (throttle w s)) /\ files (snd (throttle w s)) = files s.
Proof.
  unfold throttle, bind, time_time, time_sleep, tick, get_limiter, set_calls, emit, ret, raise, bind.
  cbn [clock reads limiter trace files max_calls period calls fst snd].
  fold (reading w s). fold (kept w s).
  destruct (max_calls (limiter s) <=? Z.of_nat (length (kept w s))).
  - destruct (kept w s) as [|k0 rest].
    + cbn. split; [|reflexivity]. exists []. split; [now rewrite app_nil_r|reflexivity].
    + destruct (0 <? period (limiter s) - (reading w s - k0));
        cbn [clock reads limiter trace files max_calls period calls fst snd bind].
      * split; [|reflexivity]. eexists. rewrite <- app_assoc. split; reflexivity.
      * split; [|reflexivity]. eexists. split; reflexivity.
  - cbn [clock reads limiter trace files max_calls period calls fst snd bind].
    split; [|reflexivity]. eexists. split; reflexivity.
Qed.

Lemma rate_limited_api_call_Ok {A} (f : M A) (s s' : State) (a : A) :
  rate_limited_api_call w f s = (Ok a, s') ->
  exists s1, f s1 = (Ok a, s') /\ extends_by is_timing s s1 /\ files s1 = files s.
Proof.
  intros H. unfold rate_limited_api_call, wrapped in H. bind_inv H as u s1 Hthr.
  pose proof (throttle_timing s) as [Ht Hf]. rewrite Hthr in Ht, Hf. cbn [snd] in Ht, Hf.
  now exists s1.
Qed.

End Enricher.

(** C3: a record returned by the enricher has an e-mail only if it has a
    non-empty website; when the detail response has no website (absent or
    empty), the e-mail is null and the extractor was not invoked: no page
    was requested. *)
Theorem get_place_details_email_needs_website (w : World) (place_id : string)
    (s s' : State) (record : PlaceRecord) :
  get_place_details w place_id s = (Ok record, s') ->
  (Email record <> None -> exists url, Website record = Some url /\ url <> "")
  /\ (truthy_opt (Website record) = false ->
      Email record = None
      /\ List.filter is_HttpGet (trace s') = List.filter is_HttpGet (trace s)).
Proof.
  intros H. unfold get_place_details in H.
  bind_inv H as details s2 Hcall.
  apply rate_limited_api_call_Ok in Hcall. destruct Hcall as (s1 & Hcall & Hext & _).
  rewrite foreign_run in Hcall. inversion Hcall as [[Hd Hs2]]. clear Hcall.
  bind_inv H as info s3 Hinfo.
  destruct (result details) as [info'|]; [|discriminate Hinfo].
  inversion Hinfo; subst info' s3. clear Hinfo.
  assert (Hquiet : List.filter is_HttpGet (trace s2) = List.filter is_HttpGet (trace s)).
  { apply extends_by_filter with (p := fun e => negb (is_HttpGet e)).
    - intros e He. now destruct (is_HttpGet e).
    - rewrite <- Hs2. eapply extends_by_trans.
      + eapply extends_by_weaken; [|exact Hext]. intros e He. now destruct e.
      + now apply extends_by_after. }
  bind_inv H as email s4 Hemail.
  inversion H; subst record s'. clear H. cbn [Email Website].
  destruct (website info) as [url|] eqn:Hweb.
  - destruct (truthy url) eqn:Hurl.
    + split.
      * intros _. exists url. split; [reflexivity|].
        unfold truthy in Hurl. intros ->. discriminate Hurl.
      * cbn [truthy_opt]. rewrite Hurl. discriminate.
    + inversion Hemail; subst email s4. split; [congruence|]. intros _. now split.
  - inversion Hemail; subst email s4. split; [congruence|]. intros _. now split.
Qed.

(** ** The orchestrator when the location cannot be resolved *)

Section LocationNotFound.

Context (w : World).

(** The [else] branch of [get_location_coordinates]. *)
Lemma get_location_coordinates_else (location : Location) (s : State) :
  is_pair location = false ->
  get_location_coordinates w location s
  = try_except
      (geocode_result <- rate_limited_api_call w
                           (foreign (Geocode location) (fun h => gmaps_geocode w h location)) ;;
       match geocode_result with
       | m :: _ =>
           logger DEBUG "Geocoded {location} to coordinates: ({lat}, {lng})"
                  [ALoc location; ANum (lat m); ANum (lng m)] ;;;
           ret (lat m, lng m)
       | [] =>
           raise (ValueError ("Unable to geocode location: " ++ str_Location location)%string)
       end)%py
      (fun e =>
         logger ERROR "Error geocoding location {location}: {e}" [ALoc location; AExn e] ;;;
         raise e)%py
      (after s [Log DEBUG "Attempting to get coordinates for location: {location}"
                    [ALoc location]]).
Proof.
  intros Hp. destruct location as [str|[|a [|b [|c l]]]]; try discriminate Hp; reflexivity.
Qed.

(** Without a match the resolution step raises, after the geocoding call
    and an error line. *)
Lemma get_location_coordinates_no_match (location : Location) (s : State) :
  ready s -> is_pair location = false ->
  (forall h, no_match (gmaps_geocode w h location)) ->
  exists e s1,
    get_location_coordinates w location s = (Raise e, s1)
    /\ files s1 = files s /\ extends_by idle s s1.
Proof.
  intros Hr Hp Hno. rewrite get_location_coordinates_else by exact Hp.
  set (log1 := Log DEBUG "Attempting to get coordinates for location: {location}" [ALoc location]).
  destruct (rate_limited_api_call_run w
              (foreign (Geocode location) (fun h => gmaps_geocode w h location))
              (after s [log1])) as (s1 & evs & Hcall & _ & Hfiles & Htr & Hev).
  { now apply ready_after. }
  assert (Hext : extends_by idle s s1).
  { exists ([log1] ++ evs). split.
    - rewrite Htr. cbn [after trace]. now rewrite <- app_assoc.
    - rewrite forallb_app. cbn [forallb]. rewrite andb_true_r. cbn.
      rewrite forallb_forall in *. intros e He. specialize (Hev e He). now destruct e. }
  unfold try_except, bind at 1. rewrite Hcall, foreign_run.
  destruct (Hno (trace s1)) as [Hnone|[e He]].
  - rewrite Hnone. run.
    eexists _, _. split; [reflexivity|]. split; [exact Hfiles|].
    eapply extends_by_trans; [exact Hext|]. now apply extends_by_after.
  - rewrite He. run.
    eexists _, _. split; [reflexivity|]. split; [exact Hfiles|].
    eapply extends_by_trans; [exact Hext|]. now apply extends_by_after.
Qed.

End LocationNotFound.

(** C4 (as amended): when location resolution finds no match, the error
    does not leave the orchestrator: [get_google_maps_data] catches it, logs
    it and returns an empty list; the driver then logs that no data was
    retrieved and returns.  No search page is fetched, no place is enriched
    and no file is written. *)
Theorem location_not_found_ends_run (w : World) (fuel : nat) (config : Config)
    (api_key location query : string) (num_results radius : Z) (s : State) :
  ready s ->
  googlemaps_Client w api_key = Ok tt ->
  (forall h, no_match (gmaps_geocode w h (LocStr location))) ->
  (exists s1,
      get_google_maps_data w fuel api_key (LocStr location) query num_results radius s
      = (Ok [], s1)
      /\ files s1 = files s /\ extends_by idle s s1)
  /\ (exists s2,
         run_pipeline w fuel config api_key location query num_results radius s
         = (Ok tt, after s2 [Log ERROR "No data retrieved. Check the logs for errors." []])
         /\ files s2 = files s /\ extends_by idle s s2).
Proof.
  intros Hr Hclient Hno.
  assert (Hfetch : forall s0, ready s0 ->
    exists s1,
      get_google_maps_data w fuel api_key (LocStr location) query num_results radius s0
      = (Ok [], s1)
      /\ files s1 = files s0 /\ extends_by idle s0 s1).
  { clear s Hr. intros s Hr. unfold get_google_maps_data.
    rewrite bind_emit. unfold bind at 1, reply at 1. rewrite Hclient.
    rewrite bind_logger, after_after. cbn [app].
    set (evs0 := [ClientInit api_key; _]).
    destruct (get_location_coordinates_no_match w (LocStr location) (after s evs0))
      as (e & s1 & Hloc & Hfiles & Hext); [now apply ready_after|reflexivity|exact Hno|].
    unfold bind at 1, try_except at 1, bind at 1. rewrite Hloc. run.
    eexists. split; [reflexivity|]. split; [exact Hfiles|].
    eapply extends_by_trans; [now apply (extends_by_after idle s evs0)|].
    eapply extends_by_trans; [exact Hext|]. now apply extends_by_after. }
  split; [now apply Hfetch|].
  unfold run_pipeline. rewrite bind_logger.
  cbn [for_each config_items fst snd String.eqb Ascii.eqb Bool.eqb negb].
  rewrite !bind_assoc.
  repeat (rewrite ?bind_logger, ?bind_ret, ?bind_assoc, ?after_after).
  cbn [app].
  match goal with |- context [after s ?evs] => set (evs0 := evs) end.
  destruct (Hfetch (after s evs0)) as (s1 & Hrun & Hfiles & Hext); [now apply ready_after|].
  unfold bind at 1. rewrite Hrun.
  exists s1. split; [reflexivity|]. split; [exact Hfiles|].
  eapply extends_by_trans; [|exact Hext]. now apply extends_by_after.
Qed.

(** ** Persistence *)

Lemma csv_json_names_differ (stem : string) : (stem ++ ".csv")%string <> (stem ++ ".json")%string.
Proof. induction stem as [|c stem IH]; cbn; [discriminate|]. intros H. now inversion H. Qed.

(** C5 (as amended): persistence of an empty record list does not fail and
    writes well-formed files: the structured file holds the empty array; the
    tabular file holds one empty line and no header row of field names, for
    the column names are taken from the records and there are none. *)
Theorem save_to_file_empty (w : World) (output_file : string) (s : State) :
  exists s',
    save_to_file w [] output_file true true s = (Ok tt, s')
    /\ files s' !! (output_file ++ ".json")%string = Some "[]"
    /\ files s' !! (output_file ++ ".csv")%string = Some nl
    /\ nl <> (header_row ++ nl)%string.
Proof.
  assert (Hcsv : to_csv w [] = nl) by reflexivity.
  assert (Hjson : json_dump w [] = "[]") by reflexivity.
  unfold save_to_file, bind, write_file, logger, emit, ret. cbv beta iota zeta.
  rewrite Hcsv, Hjson.
  eexists. split; [reflexivity|].
  cbn [files]. split; [|split].
  - apply lookup_insert_eq.
  - rewrite lookup_insert_ne by (apply not_eq_sym, csv_json_names_differ).
    apply lookup_insert_eq.
  - discriminate.
Qed.

(** ** The driver's validation *)

Section Validation.

Context (w : World).

Lemma for_each_logger (lvl : Level) (template : string) (items : list string) (s : State) :
  for_each items (fun item => logger lvl template [AStr item]) s
  = (Ok tt, after s (map (fun item => Log lvl template [AStr item]) items)).
Proof.
  revert s. induction items as [|item items IH]; intros s; cbn [for_each map].
  - unfold ret, after. rewrite app_nil_r. now destruct s.
  - rewrite bind_logger, IH, after_after. reflexivity.
Qed.

(** The missing options are the required ones that are unset. *)
Lemma missing_config_spec (key : string) :
  In key (missing_config (read_config w))
  <-> In key required_options /\ os_getenv w key = None.
Proof.
  unfold missing_config, config_items, read_config, required_options.
  cbn [GOOGLE_MAPS_API_KEY SEARCH_LOCATION SEARCH_QUERY NUM_RESULTS SEARCH_RADIUS
       OUTPUT_FILE OUTPUT_CSV OUTPUT_JSON USE_SUPABASE].
  cbn [List.filter is_None snd].
  destruct (os_getenv w "GOOGLE_MAPS_API_KEY") eqn:H1;
    destruct (os_getenv w "SEARCH_LOCATION") eqn:H2;
    destruct (os_getenv w "SEARCH_QUERY") eqn:H3;
    cbn [map fst In]; split.
  all: try (intros [<-|H]; [split; [cbn; tauto|assumption]|revert H]).
  all: try (intros [<-|H]; [split; [cbn; tauto|assumption]|revert H]).
  all: try (intros [<-|H]; [split; [cbn; tauto|assumption]|revert H]).
  all: try tauto.
  all: intros [[<-|[<-|[<-|[]]]] Hk]; try congruence; tauto.
Qed.

End Validation.

(** C9 (as amended): when required options are missing the driver logs
    each of them and returns; when none is missing and NUM_RESULTS or
    SEARCH_RADIUS is not an integer, it logs the first value that fails to
    convert and returns.  In both cases nothing but log lines is added to the
    state: no provider call, no file, no remote insert. *)
Theorem invalid_configuration_stops_main (w : World) (fuel : nat) (s : State) :
  let config := read_config w in
  (forall key, In key (missing_config config)
               <-> In key required_options /\ os_getenv w key = None)
  /\ (missing_config config <> [] ->
      main w fuel s = (Ok tt, after s (missing_lines (missing_config config))))
  /\ (missing_config config = [] ->
      parse_int (NUM_RESULTS config) = None ->
      main w fuel s = (Ok tt, after s [invalid_line (NUM_RESULTS config)]))
  /\ (missing_config config = [] ->
      parse_int (NUM_RESULTS config) <> None ->
      parse_int (SEARCH_RADIUS config) = None ->
      main w fuel s = (Ok tt, after s [invalid_line (SEARCH_RADIUS config)]))
  /\ (forall missing, forallb is_Log (missing_lines missing) = true)
  /\ (forall v, is_Log (invalid_line v) = true).
Proof.
  intros config. split; [apply missing_config_spec|].
  unfold main. fold config. split; [|split; [|split; [|split]]].
  4:{ intros missing. cbn. induction missing as [|item missing IH]; [reflexivity|exact IH]. }
  4:{ reflexivity. }
  - intros Hm. cbv zeta. destruct (missing_config config) as [|k l] eqn:Hk; [congruence|].
    rewrite bind_logger, for_each_logger, after_after. reflexivity.
  - intros Hm Hn. cbv zeta. rewrite Hm.
    unfold bind at 1, try_except_ValueError, bind at 1, int_of. rewrite Hn.
    reflexivity.
  - intros Hm Hn Hr. cbv zeta. rewrite Hm.
    unfold bind at 1, try_except_ValueError, bind at 1, int_of.
    destruct (parse_int (NUM_RESULTS config)) as [n|]; [|congruence].
    unfold bind at 1, ret at 1. rewrite Hr. reflexivity.
Qed.


(** ** The boolean options *)

Lemma lower_ascii_cases (x : ascii) :
  (lower_ascii x = "t" -> x = "t" \/ x = "T")%char
  /\ (lower_ascii x = "r" -> x = "r" \/ x = "R")%char
  /\ (lower_ascii x = "u" -> x = "u" \/ x = "U")%char
  /\ (lower_ascii x = "e" -> x = "e" \/ x = "E")%char.
Proof.
  destruct x as [[] [] [] [] [] [] [] []]; vm_compute;
    repeat split; intros H; try discriminate H; auto.
Qed.

Lemma lower_true (v : string) : lower v = "true" <-> says_true v.
Proof.
  split.
  - destruct v as [|c1 [|c2 [|c3 [|c4 [|c5 v]]]]]; cbn [lower]; intros H; try discriminate H.
    inversion H as [[H1 H2 H3 H4]].
    exists c1, c2, c3, c4. split; [reflexivity|].
    pose proof (lower_ascii_cases c1) as (T1 & _).
    pose proof (lower_ascii_cases c2) as (_ & T2 & _).
    pose proof (lower_ascii_cases c3) as (_ & _ & T3 & _).
    pose proof (lower_ascii_cases c4) as (_ & _ & _ & T4).
    auto.
  - intros (c1 & c2 & c3 & c4 & -> & [-> | ->] & [-> | ->] & [-> | ->] & [-> | ->]);
      reflexivity.
Qed.

(** C10: OUTPUT_CSV and OUTPUT_JSON are true exactly when the variable is
    unset or spells "true" in any letter case; USE_SUPABASE is true exactly
    when the variable is set and spells "true" in any letter case.  Values
    such as "1" or "yes" give false. *)
Theorem boolean_options (w : World) :
  let config := read_config w in
  (OUTPUT_CSV config = true
   <-> match environ w !! "OUTPUT_CSV" with None => True | Some v => says_true v end)
  /\ (OUTPUT_JSON config = true
      <-> match environ w !! "OUTPUT_JSON" with None => True | Some v => says_true v end)
  /\ (USE_SUPABASE config = true
      <-> match environ w !! "USE_SUPABASE" with None => False | Some v => says_true v end)
  /\ ~ says_true "1" /\ ~ says_true "yes".
Proof.
  cbn zeta. unfold read_config, os_getenv_default.
  cbn [OUTPUT_CSV OUTPUT_JSON USE_SUPABASE].
  split; [|split; [|split; [|split]]].
  - destruct (environ w !! "OUTPUT_CSV") as [v|].
    + rewrite String.eqb_eq. apply lower_true.
    + split; [trivial|reflexivity].
  - destruct (environ w !! "OUTPUT_JSON") as [v|].
    + rewrite String.eqb_eq. apply lower_true.
    + split; [trivial|reflexivity].
  - destruct (environ w !! "USE_SUPABASE") as [v|].
    + rewrite String.eqb_eq. apply lower_true.
    + split; [discriminate|contradiction].
  - intros (c1 & c2 & c3 & c4 & H & _). discriminate H.
  - intros (c1 & c2 & c3 & c4 & H & _). discriminate H.
Qed.

(** ** The result cap *)

Lemma slice_to_length {A} (l : list A) (n : Z) :
  0 <= n -> Z.of_nat (length (slice_to l n)) <= n.
Proof.
  intros Hn. unfold slice_to. destruct (0 <=? n) eqn:H; [|apply Z.leb_gt in H; lia].
  rewrite length_firstn. lia.
Qed.

Lemma insert_by_rank_length {A} (rank : nat -> nat) (x : nat * A) (l : list (nat * A)) :
  length (insert_by_rank rank x l) = S (length l).
Proof.
  induction l as [|y l IH]; cbn; [reflexivity|].
  destruct (rank (fst x) <=? rank (fst y))%nat; cbn; [reflexivity|now rewrite IH].
Qed.

Lemma by_rank_length {A} (rank : nat -> nat) (l : list (nat * A)) :
  length (by_rank rank l) = length l.
Proof.
  induction l as [|x l IH]; cbn; [reflexivity|].
  unfold by_rank in IH. now rewrite insert_by_rank_length, IH.
Qed.

Lemma indexed_length {A} (i : nat) (l : list A) : length (indexed i l) = length l.
Proof. revert i. induction l as [|x l IH]; intros i; cbn; [reflexivity|now rewrite IH]. Qed.

Section Enrichment.

Context (w : World).

Lemma as_completed_length {A} (futures : list A) :
  length (as_completed w futures) = length futures.
Proof. unfold as_completed. now rewrite length_map, by_rank_length, indexed_length. Qed.

(** One future per place. *)
Lemma submit_all_length (places : list RawPlaceRef) (s s' : State)
    (futures : list (Outcome PlaceRecord)) :
  submit_all w places s = (Ok futures, s') -> length futures = length places.
Proof.
  revert s s' futures. induction places as [|place places IH]; intros s s' futures H.
  - inversion H. reflexivity.
  - cbn [submit_all] in H.
    bind_inv H as id s1 Hid. bind_inv H as future s2 Hfut. bind_inv H as rest s3 Hrest.
    inversion H; subst. cbn [length]. f_equal. eapply IH. exact Hrest.
Qed.

(** Collecting can only drop: each future gives one record or none. *)
Lemma collect_length (futures : list (Outcome PlaceRecord)) (data data' : list PlaceRecord)
    (s s' : State) :
  collect futures data s = (Ok data', s') ->
  (length data' <= length data + length futures)%nat.
Proof.
  revert data s. induction futures as [|[record|e|] futures IH]; intros data s H;
    cbn [collect] in H.
  - inversion H; subst. lia.
  - apply IH in H. rewrite length_app in H. cbn [length] in *. lia.
  - rewrite bind_logger in H. apply IH in H. cbn [length]. lia.
  - discriminate H.
Qed.

End Enrichment.

(** With a cap that is not positive the loop is not entered. *)
Lemma search_loop_no_turn (w : World) (fuel : nat) (query : string) (coords : Coords)
    (radius num_results : Z) (token : option string) (s : State) :
  num_results <= 0 ->
  search_loop w fuel query coords radius num_results [] token s = (Ok [], s).
Proof.
  intros HN. destruct fuel; cbn [search_loop length];
    (destruct (Z.of_nat 0 <? num_results) eqn:H; [apply Z.ltb_lt in H; lia|reflexivity]).
Qed.

(** ** Which events a computation can add *)

Section Emits.

Context (w : World) (p : Event -> bool).

Lemma emits_ret {A} (a : A) : emits p (ret a).
Proof. intros s. apply extends_by_refl. Qed.

Lemma emits_raise {A} (e : exn) : emits p (@raise A e).
Proof. intros s. apply extends_by_refl. Qed.

Lemma emits_reply {A} (o : Outcome A) : emits p (reply o).
Proof. intros s. apply extends_by_refl. Qed.

Lemma emits_out_of_fuel {A} : emits p (@out_of_fuel A).
Proof. intros s. apply extends_by_refl. Qed.

Lemma emits_emit (e : Event) : p e = true -> emits p (emit e).
Proof. intros He s. apply (extends_by_after p s [e]). cbn. now rewrite He. Qed.

Lemma emits_logger lvl template args : lets_through p -> emits p (logger lvl template args).
Proof. intros Hp. apply emits_emit. now apply Hp. Qed.

Lemma emits_write_file (path content : string) :
  p (WriteFile path content) = true -> emits p (write_file path content).
Proof.
  intros He s. exists [WriteFile path content]. split; [reflexivity|]. cbn. now rewrite He.
Qed.

Lemma emits_bind {A B} (m : M A) (k : A -> M B) :
  emits p m -> (forall a, emits p (k a)) -> emits p (bind m k).
Proof.
  intros Hm Hk s. unfold bind. specialize (Hm s).
  destruct (m s) as [[a|e|] s1]; cbn [snd] in *; [|assumption|assumption].
  eapply extends_by_trans; [exact Hm|apply Hk].
Qed.

Lemma emits_try_except {A} (m : M A) (h : exn -> M A) :
  emits p m -> (forall e, emits p (h e)) -> emits p (try_except m h).
Proof.
  intros Hm Hh s. unfold try_except. specialize (Hm s).
  destruct (m s) as [[a|e|] s1]; cbn [snd] in *; [assumption| |assumption].
  eapply extends_by_trans; [exact Hm|apply Hh].
Qed.

Lemma emits_try_except_ValueError {A} (m : M A) (h : exn -> M A) :
  emits p m -> (forall e, emits p (h e)) -> emits p (try_except_ValueError m h).
Proof.
  intros Hm Hh s. unfold try_except_ValueError. specialize (Hm s).
  destruct (m s) as [[a|[msg|key|msg|msg|msg]|] s1]; cbn [snd] in *; try assumption.
  eapply extends_by_trans; [exact Hm|apply Hh].
Qed.

Lemma emits_submit {A} (m : M A) : emits p m -> emits p (submit m).
Proof.
  intros Hm s. unfold submit. specialize (Hm s). now destruct (m s).
Qed.

Lemma emits_foreign {A} (e : Event) (answer : list Event -> Outcome A) :
  p e = true -> emits p (foreign e answer).
Proof.
  intros He s. rewrite foreign_run. cbn [snd]. apply extends_by_after. cbn. now rewrite He.
Qed.

Hypothesis through : lets_through p.

Lemma emits_throttle : emits p (throttle w).
Proof.
  intros s. eapply extends_by_weaken; [|apply throttle_timing].
  intros e He. apply through. now rewrite He.
Qed.

Lemma emits_time_sleep (d : Z) : emits p (time_sleep w d).
Proof.
  intros s. exists [Sleep d]. split; [reflexivity|]. cbn. rewrite through; reflexivity.
Qed.

Lemma emits_rate_limited_api_call {A} (f : M A) :
  emits p f -> emits p (rate_limited_api_call w f).
Proof. intros Hf. apply emits_bind; [apply emits_throttle|intros _; exact Hf]. Qed.

Lemma emits_for_each {A} (l : list A) (body : A -> M unit) :
  (forall x, emits p (body x)) -> emits p (for_each l body).
Proof.
  intros Hb. induction l as [|x l IH]; cbn [for_each]; [apply emits_ret|].
  apply emits_bind; [apply Hb|intros _; exact IH].
Qed.

End Emits.

(** The components, for a predicate that lets through the limiter's events,
    the log lines and the events of the component. *)
Ltac emits_step through :=
  first
    [ apply emits_ret | apply emits_raise | apply emits_reply | apply emits_out_of_fuel
    | apply emits_logger; exact through
    | apply emits_time_sleep; exact through
    | apply emits_rate_limited_api_call; [exact through|]
    | apply emits_foreign; reflexivity
    | apply emits_emit; reflexivity
    | apply emits_write_file; reflexivity
    | apply emits_bind; [|intros ?]
    | apply emits_try_except; [|intros ?]
    | apply emits_try_except_ValueError; [|intros ?]
    | apply emits_submit
    | match goal with
      | |- emits _ (match ?x with _ => _ end) => destruct x
      | |- emits _ (if ?b then _ else _) => destruct b
      end ].

Section Components.

Context (w : World) (p : Event -> bool).

Hypothesis through : lets_through p.
Hypothesis calls_out : forall e, is_sync e = false -> p e = true.

Lemma p_of (e : Event) : is_sync e = false -> p e = true.
Proof. apply calls_out. Qed.

Lemma emits_get_location_coordinates (location : Location) :
  emits p (get_location_coordinates w location).
Proof.
  unfold get_location_coordinates.
  apply emits_bind; [apply emits_logger; exact through|intros _].
  assert (Helse : emits p
    (try_except
       (geocode_result <- rate_limited_api_call w
                            (foreign (Geocode location) (fun h => gmaps_geocode w h location)) ;;
        match geocode_result with
        | m :: _ =>
            logger DEBUG "Geocoded {location} to coordinates: ({lat}, {lng})"
                   [ALoc location; ANum (lat m); ANum (lng m)] ;;;
            ret (lat m, lng m)
        | [] =>
            raise (ValueError ("Unable to geocode location: " ++ str_Location location)%string)
        end)%py
       (fun e =>
          logger ERROR "Error geocoding location {location}: {e}" [ALoc location; AExn e] ;;;
          raise e)%py)).
  { apply emits_try_except; [|intros e; repeat emits_step through].
    apply emits_bind; [|intros g; repeat emits_step through].
    apply emits_rate_limited_api_call; [exact through|].
    apply emits_foreign. now apply p_of. }
  destruct location as [str|[|a [|b [|c l]]]]; try exact Helse.
  repeat emits_step through.
Qed.

Lemma emits_extract_email_from_website (url : string) :
  emits p (extract_email_from_website w url).
Proof.
  unfold extract_email_from_website.
  apply emits_try_except; [|intros e; repeat emits_step through].
  apply emits_bind; [|intros emails; apply emits_ret].
  apply emits_foreign. now apply p_of.
Qed.

Lemma emits_get_place_details (place_id : string) : emits p (get_place_details w place_id).
Proof.
  unfold get_place_details.
  apply emits_bind.
  { apply emits_rate_limited_api_call; [exact through|]. apply emits_foreign. now apply p_of. }
  intros details. apply emits_bind; [repeat emits_step through|intros info].
  apply emits_bind; [|intros email; apply emits_ret].
  destruct (website info) as [url|]; [|apply emits_ret].
  destruct (truthy url); [|apply emits_ret].
  apply emits_bind; [apply emits_logger; exact through|intros _].
  apply emits_bind; [apply emits_extract_email_from_website|intros email].
  repeat emits_step through.
Qed.

Lemma emits_search_page query coords radius num_results results token :
  emits p (search_page w query coords radius num_results results token).
Proof.
  unfold search_page.
  apply emits_try_except; [|intros e; repeat emits_step through].
  apply emits_bind; [apply emits_logger; exact through|intros _].
  apply emits_bind; [|intros places; repeat emits_step through].
  destruct (truthy_opt token).
  - apply emits_bind; [apply emits_time_sleep; exact through|intros _].
    apply emits_rate_limited_api_call; [exact through|]. apply emits_foreign. now apply p_of.
  - apply emits_rate_limited_api_call; [exact through|]. apply emits_foreign. now apply p_of.
Qed.

Lemma emits_search_loop fuel query coords radius num_results results token :
  emits p (search_loop w fuel query coords radius num_results results token).
Proof.
  revert results token. induction fuel as [|fuel IH]; intros results token;
    cbn [search_loop]; destruct (Z.of_nat (length results) <? num_results);
    try apply emits_ret; try apply emits_out_of_fuel.
  apply emits_bind; [apply emits_search_page|].
  intros [[[|] results'] token']; [apply IH|apply emits_ret].
Qed.

Lemma emits_submit_all (places : list RawPlaceRef) : emits p (submit_all w places).
Proof.
  induction places as [|place places IH]; cbn [submit_all]; [apply emits_ret|].
  apply emits_bind; [repeat emits_step through|intros id].
  apply emits_bind; [apply emits_submit, emits_get_place_details|intros future].
  apply emits_bind; [exact IH|intros futures; apply emits_ret].
Qed.

Lemma emits_collect (futures : list (Outcome PlaceRecord)) (data : list PlaceRecord) :
  emits p (collect futures data).
Proof.
  revert data. induction futures as [|[record|e|] futures IH]; intros data; cbn [collect].
  - apply emits_ret.
  - apply IH.
  - apply emits_bind; [apply emits_logger; exact through|intros _; apply IH].
  - apply emits_out_of_fuel.
Qed.

Lemma emits_get_google_maps_data fuel api_key location query num_results radius :
  emits p (get_google_maps_data w fuel api_key location query num_results radius).
Proof.
  unfold get_google_maps_data.
  apply emits_bind; [apply emits_emit; now apply p_of|intros _].
  apply emits_bind; [apply emits_reply|intros _].
  apply emits_bind; [apply emits_logger; exact through|intros _].
  apply emits_bind.
  { apply emits_try_except; [|intros e; repeat emits_step through].
    apply emits_bind; [apply emits_get_location_coordinates|intros c; apply emits_ret]. }
  intros [coords|]; [|apply emits_ret].
  apply emits_bind; [apply emits_search_loop|intros results].
  apply emits_bind; [apply emits_submit_all|intros futures].
  apply emits_bind; [apply emits_collect|intros data].
  repeat emits_step through.
Qed.

Lemma emits_save_to_file data output_file output_csv output_json :
  emits p (save_to_file w data output_file output_csv output_json).
Proof.
  unfold save_to_file.
  apply emits_bind; [|intros _].
  - destruct output_csv; [|apply emits_ret].
    apply emits_bind; [apply emits_write_file; now apply p_of|intros _].
    apply emits_logger; exact through.
  - destruct output_json; [|apply emits_ret].
    apply emits_bind; [apply emits_write_file; now apply p_of|intros _].
    apply emits_logger; exact through.
Qed.

End Components.

(** ** The valid run of the driver *)

Section Driver.

Context (w : World).

Lemma for_each_lines (items : list (string * Arg)) (s : State) :
  for_each items
    (fun kv =>
       if negb (String.eqb (fst kv) "GOOGLE_MAPS_API_KEY")
       then logger INFO "{key}: {value}" [AStr (fst kv); snd kv]
       else ret tt) s
  = (Ok tt,
     after s (flat_map (fun kv =>
                          if negb (String.eqb (fst kv) "GOOGLE_MAPS_API_KEY")
                          then [Log INFO "{key}: {value}" [AStr (fst kv); snd kv]]
                          else []) items)).
Proof.
  revert s. induction items as [|kv items IH]; intros s; cbn [for_each flat_map].
  - unfold ret, after. rewrite app_nil_r. now destruct s.
  - destruct (negb (String.eqb (fst kv) "GOOGLE_MAPS_API_KEY")).
    + rewrite bind_logger, IH, after_after. reflexivity.
    + rewrite bind_ret, IH. reflexivity.
Qed.

(** After its log lines the pipeline is the orchestrator, then the end of
    the driver. *)
Lemma run_pipeline_unfold (fuel : nat) (config : Config) (api_key location query : string)
    (num_results radius : Z) (s : State) :
  run_pipeline w fuel config api_key location query num_results radius s
  = bind (get_google_maps_data w fuel api_key (LocStr location) query num_results radius)
      (fun data =>
         match data with
         | [] => logger ERROR "No data retrieved. Check the logs for errors." []
         | _ :: _ => deliver w config data
         end)
      (after s (config_lines (config_items config (AInt num_results) (AInt radius)) location)).
Proof.
  unfold run_pipeline, config_lines.
  rewrite bind_logger. unfold bind at 1. rewrite for_each_lines.
  rewrite bind_logger, !after_after. reflexivity.
Qed.

(** With every required option set and both numbers converted, [main] is
    the pipeline. *)
Lemma main_valid (fuel : nat) (api_key location query : string) (num_results radius : Z)
    (s : State) :
  GOOGLE_MAPS_API_KEY (read_config w) = Some api_key ->
  SEARCH_LOCATION (read_config w) = Some location ->
  SEARCH_QUERY (read_config w) = Some query ->
  parse_int (NUM_RESULTS (read_config w)) = Some num_results ->
  parse_int (SEARCH_RADIUS (read_config w)) = Some radius ->
  main w fuel s
  = run_pipeline w fuel (read_config w) api_key location query num_results radius s.
Proof.
  intros Hk Hl Hq Hn Hr. unfold main. cbv zeta.
  assert (Hm : missing_config (read_config w) = []).
  { unfold missing_config, config_items. rewrite Hk, Hl, Hq. reflexivity. }
  rewrite Hm. unfold bind at 1, try_except_ValueError, bind at 1, int_of.
  rewrite Hn. unfold bind at 1, ret at 1. rewrite Hr. cbv beta iota. unfold ret at 1.
  cbv beta iota. rewrite Hk, Hl, Hq. reflexivity.
Qed.

Lemma not_sync_through : lets_through (fun e => negb (is_sync e)).
Proof. intros e He. now destruct e. Qed.

Lemma not_sync_calls_out (e : Event) : is_sync e = false -> negb (is_sync e) = true.
Proof. now intros ->. Qed.

(** With sync enabled and an option of it unset, no part of the driver
    adds a sync event. *)
Lemma emits_main_sync_skipped (fuel : nat) :
  USE_SUPABASE (read_config w) = true ->
  all_set [os_getenv w "SUPABASE_URL"; os_getenv w "SUPABASE_KEY";
           os_getenv w "SUPABASE_TABLE_NAME"] = false ->
  emits (fun e => negb (is_sync e)) (main w fuel).
Proof.
  intros Hsync Hunset.
  pose proof not_sync_through as through.
  unfold main. cbv zeta.
  destruct (missing_config (read_config w)) as [|k l].
  2:{ apply emits_bind; [apply emits_logger; exact through|intros _].
      apply emits_for_each. intros item. apply emits_logger; exact through. }
  apply emits_bind.
  { apply emits_try_except_ValueError; [|intros e; repeat emits_step through].
    unfold int_of. repeat emits_step through. }
  intros [[num_results radius]|]; [|apply emits_ret].
  destruct (GOOGLE_MAPS_API_KEY (read_config w)) as [api_key|]; [|apply emits_raise].
  destruct (SEARCH_LOCATION (read_config w)) as [location|]; [|apply emits_raise].
  destruct (SEARCH_QUERY (read_config w)) as [query|]; [|apply emits_raise].
  unfold run_pipeline.
  apply emits_bind; [apply emits_logger; exact through|intros _].
  apply emits_bind.
  { apply emits_for_each. intros kv. repeat emits_step through. }
  intros _. apply emits_bind; [apply emits_logger; exact through|intros _].
  apply emits_bind.
  { apply emits_get_google_maps_data; [exact through|exact not_sync_calls_out]. }
  intros [|record data]; [apply emits_logger; exact through|].
  unfold deliver. rewrite Hsync, Hunset. cbn [negb].
  apply emits_bind; [|intros _; apply emits_logger; exact through].
  apply emits_save_to_file; [exact through|exact not_sync_calls_out].
Qed.

End Driver.

(** ** Remote sync without its options *)

(** C8: with remote sync enabled and one of SUPABASE_URL, SUPABASE_KEY,
    SUPABASE_TABLE_NAME unset (or empty): the end of the driver writes the
    files exactly as [save_to_file] does, then logs one error, and that is
    all; the whole driver never creates a client or inserts a row; and
    whenever the configuration is valid and the orchestrator returns records,
    the driver is that end: the files are written. *)
Theorem sync_skipped_files_written (w : World) :
  let config := read_config w in
  USE_SUPABASE config = true ->
  all_set [os_getenv w "SUPABASE_URL"; os_getenv w "SUPABASE_KEY";
           os_getenv w "SUPABASE_TABLE_NAME"] = false ->
  (forall data s,
      exists s1,
        save_to_file w data (OUTPUT_FILE config) (OUTPUT_CSV config) (OUTPUT_JSON config) s
        = (Ok tt, s1)
        /\ deliver w config data s = (Ok tt, after s1 [sync_error_line])
        /\ (OUTPUT_CSV config = true ->
            files s1 !! (OUTPUT_FILE config ++ ".csv")%string = Some (to_csv w data))
        /\ (OUTPUT_JSON config = true ->
            files s1 !! (OUTPUT_FILE config ++ ".json")%string = Some (json_dump w data)))
  /\ (forall fuel s,
         List.filter is_sync (trace (snd (main w fuel s))) = List.filter is_sync (trace s))
  /\ (forall fuel s api_key location query num_results radius record data s0,
         GOOGLE_MAPS_API_KEY config = Some api_key ->
         SEARCH_LOCATION config = Some location ->
         SEARCH_QUERY config = Some query ->
         parse_int (NUM_RESULTS config) = Some num_results ->
         parse_int (SEARCH_RADIUS config) = Some radius ->
         get_google_maps_data w fuel api_key (LocStr location) query num_results radius
           (after s (config_lines (config_items config (AInt num_results) (AInt radius))
                       location))
         = (Ok (record :: data), s0) ->
         main w fuel s = deliver w config (record :: data) s0).
Proof.
  intros config Hsync Hunset. split; [|split].
  - intros data s. unfold deliver. rewrite Hsync, Hunset. cbn [negb].
    unfold save_to_file.
    destruct (OUTPUT_CSV config), (OUTPUT_JSON config);
      unfold bind, write_file, logger, emit, ret; cbv beta iota zeta;
      eexists; (split; [reflexivity|]); (split; [reflexivity|]);
      cbn [files]; split; intros Hflag; try discriminate Hflag.
    + rewrite lookup_insert_ne by (apply not_eq_sym, csv_json_names_differ).
      apply lookup_insert_eq.
    + apply lookup_insert_eq.
    + apply lookup_insert_eq.
    + apply lookup_insert_eq.
  - intros fuel s.
    apply extends_by_filter with (p := fun e => negb (is_sync e)).
    + intros e He. now destruct (is_sync e).
    + now apply emits_main_sync_skipped.
  - intros fuel s api_key location query num_results radius record data s0
           Hk Hl Hq Hn Hr Hrun.
    rewrite (main_valid w fuel api_key location query num_results radius s Hk Hl Hq Hn Hr).
    rewrite run_pipeline_unfold. fold config. unfold bind at 1. rewrite Hrun. reflexivity.
Qed.

(** ** Pagination *)

Lemma accumulated_S (answers : list Answer) (j : nat) (a : Answer) :
  nth_error answers j = Some a ->
  accumulated answers (S j) = accumulated answers j ++ results_of a.
Proof.
  unfold accumulated. revert j. induction answers as [|p ps IH]; intros j H.
  - destruct j; discriminate H.
  - destruct j as [|j].
    + inversion H; subst. cbn. now rewrite app_nil_r.
    + cbn [nth_error] in H. specialize (IH j H).
      change (firstn (S (S j)) (p :: ps)) with (p :: firstn (S j) ps).
      change (firstn (S j) (p :: ps)) with (p :: firstn j ps).
      cbn [map concat]. rewrite IH. now rewrite app_assoc.
Qed.

Section Pagination.

Context (w : World) (answers : list Answer).

Hypothesis provider : forall h q c r t, gmaps_places w h q c r t = served answers h q c r t.

(** The limiter's events are not search calls. *)
Lemma count_places_timing (s s1 : State) (evs : list Event) :
  trace s1 = trace s ++ evs -> forallb is_timing evs = true ->
  List.filter is_Places (trace s1) = List.filter is_Places (trace s).
Proof.
  intros Htr Hev. apply extends_by_filter with (p := is_timing).
  - intros e He. now destruct e.
  - now exists evs.
Qed.

(** The search call made when [i] calls were made before: the provider's
    [i]-th answer. *)
Lemma search_call (query : string) (coords : Coords) (radius : Z) (token : option string)
    (i : nat) (a : Answer) (s : State) :
  nth_error answers i = Some a ->
  ready s -> length (List.filter is_Places (trace s)) = i ->
  exists s1,
    rate_limited_api_call w
      (foreign (Places query coords radius token)
         (fun h => gmaps_places w h query coords radius token)) s
    = (match a with
       | Returns page token' =>
           Ok {| places_results := Some page; places_next_page_token := token' |}
       | Fails e => Raise e
       end, s1)
    /\ ready s1
    /\ length (List.filter is_Places (trace s1)) = S i.
Proof.
  intros Ha Hr Hc.
  destruct (rate_limited_api_call_run w
              (foreign (Places query coords radius token)
                 (fun h => gmaps_places w h query coords radius token)) s Hr)
    as (s1 & evs & Hcall & Hr1 & _ & Htr & Hev).
  rewrite Hcall, foreign_run, provider. unfold served.
  rewrite (count_places_timing s s1 evs Htr Hev), Hc, Ha.
  eexists. split; [destruct a; reflexivity|]. split.
  - now apply ready_after.
  - cbn [after trace]. rewrite List.filter_app, length_app.
    rewrite (count_places_timing s s1 evs Htr Hev), Hc. cbn. lia.
Qed.

(** One turn of the loop after [i] calls: it goes on exactly when the call
    returned a continuation token. *)
Lemma search_page_turn (query : string) (coords : Coords) (radius cap : Z)
    (i : nat) (a : Answer) (s : State) :
  nth_error answers i = Some a ->
  ready s -> length (List.filter is_Places (trace s)) = i ->
  exists s2 token,
    search_page w query coords radius cap (accumulated answers i) (token_after answers i) s
    = (Ok (truthy_opt (token_after answers (S i)), accumulated answers (S i), token), s2)
    /\ (truthy_opt (token_after answers (S i)) = true -> token = token_after answers (S i))
    /\ ready s2
    /\ length (List.filter is_Places (trace s2)) = S i.
Proof.
  intros Ha Hr Hc.
  assert (Htoken : token_after answers (S i) = token_of a).
  { cbn [token_after]. now rewrite Ha. }
  rewrite Htoken, (accumulated_S answers i a Ha).
  unfold search_page. rewrite try_except_logger.
  set (log1 := Log DEBUG _ _).
  set (body := fun places : PlacesResponse =>
     (page <- (match places_results places with
               | Some page => ret page
               | None => raise (KeyError "results")
               end) ;;
      logger INFO "Fetched {len(results)} results so far"
        [AInt (Z.of_nat (length (accumulated answers i ++ page)))] ;;;
      if negb (truthy_opt (places_next_page_token places))
      then
        logger DEBUG "No more pages available" [] ;;;
        ret (false, accumulated answers i ++ page, places_next_page_token places)
      else ret (true, accumulated answers i ++ page, places_next_page_token places))%py).
  set (handler := fun e : exn =>
     (logger ERROR "Error fetching places: {e}" [AExn e] ;;;
      ret (false, accumulated answers i, token_after answers i))%py).
  assert (Htail : forall token0 s0 s1,
            rate_limited_api_call w
              (foreign (Places query coords radius token0)
                 (fun h => gmaps_places w h query coords radius token0)) s0
            = (match a with
               | Returns page token' =>
                   Ok {| places_results := Some page; places_next_page_token := token' |}
               | Fails e => Raise e
               end, s1) ->
            ready s1 -> length (List.filter is_Places (trace s1)) = S i ->
            exists s2 token,
              try_except
                (bind (rate_limited_api_call w
                         (foreign (Places query coords radius token0)
                            (fun h => gmaps_places w h query coords radius token0)))
                   body)
                handler s0
              = (Ok (truthy_opt (token_of a), accumulated answers i ++ results_of a, token), s2)
              /\ (truthy_opt (token_of a) = true -> token = token_of a)
              /\ ready s2
              /\ length (List.filter is_Places (trace s2)) = S i).
  { intros token0 s0 s1 Hcall Hr1 Hc1. unfold try_except, bind at 1. rewrite Hcall.
    unfold body, handler.
    destruct a as [page token'|e]; cbn [places_results places_next_page_token token_of results_of].
    - run. destruct (truthy_opt token') eqn:Htok; cbn [negb]; run;
        eexists _, _; (split; [reflexivity|]); (split; [reflexivity|]);
        (split; [now apply ready_after|]);
        cbn [after trace]; rewrite List.filter_app, length_app, Hc1; cbn; lia.
    - run. rewrite app_nil_r. eexists _, _. split; [reflexivity|].
      split; [discriminate|]. split; [now apply ready_after|].
      cbn [after trace]. rewrite List.filter_app, length_app, Hc1. cbn. lia. }
  destruct (truthy_opt (token_after answers i)) eqn:Ht.
  - rewrite try_except_sleep.
    destruct (search_call query coords radius (token_after answers i) i a
                (slept w (after s [log1]) (2 * second)) Ha)
      as (s1 & Hcall & Hr1 & Hc1).
    { apply ready_slept; [unfold second; lia|now apply ready_after]. }
    { cbn [trace after slept]. rewrite !List.filter_app. cbn. now rewrite !app_nil_r. }
    exact (Htail _ _ s1 Hcall Hr1 Hc1).
  - destruct (search_call query coords radius None i a (after s [log1]) Ha)
      as (s1 & Hcall & Hr1 & Hc1).
    { now apply ready_after. }
    { cbn [trace after]. rewrite !List.filter_app. cbn. now rewrite !app_nil_r. }
    exact (Htail _ _ s1 Hcall Hr1 Hc1).
Qed.

(** The loop, from the state reached after [i] calls. *)
Lemma search_loop_from (query : string) (coords : Coords) (radius cap : Z) (k : nat) :
  stops_exactly_at cap answers k ->
  forall (fuel i : nat) (s : State),
    (i <= k)%nat -> (k - i <= fuel)%nat ->
    ready s ->
    length (List.filter is_Places (trace s)) = i ->
    ((0 < i)%nat -> truthy_opt (token_after answers i) = true) ->
    exists s',
      search_loop w fuel query coords radius cap (accumulated answers i)
        (token_after answers i) s
      = (Ok (accumulated answers k), s')
      /\ length (List.filter is_Places (trace s')) = k
      /\ ready s'.
Proof.
  intros (Hlen & Hstop & Hbefore).
  assert (Hend : forall fuel s, ready s ->
            length (List.filter is_Places (trace s)) = k ->
            ((0 < k)%nat -> truthy_opt (token_after answers k) = true) ->
            exists s',
              search_loop w fuel query coords radius cap (accumulated answers k)
                (token_after answers k) s
              = (Ok (accumulated answers k), s')
              /\ length (List.filter is_Places (trace s')) = k
              /\ ready s').
  { intros fuel s Hready Hcount Htok.
    destruct Hstop as [Hcap|[Hpos Hno]]; [|rewrite (Htok Hpos) in Hno; discriminate].
    apply Z.ltb_ge in Hcap. exists s.
    split; [destruct fuel; cbn [search_loop]; now rewrite Hcap|]. split; assumption. }
  induction fuel as [|fuel IH]; intros i s Hik Hfuel Hready Hcount Htok.
  - assert (Hi : i = k) by lia. rewrite Hi in Htok, Hcount |- *. now apply Hend.
  - destruct (Nat.eq_dec i k) as [Hi|Hne].
    + rewrite Hi in Htok, Hcount |- *. now apply Hend.
    + assert (Hlt : (i < k)%nat) by lia.
      assert (Hgo : Z.of_nat (length (accumulated answers i)) < cap).
      { specialize (Hbefore i Hlt). unfold stop_at in Hbefore. lia. }
      destruct (nth_error answers i) as [a|] eqn:Ha;
        [|apply nth_error_None in Ha; lia].
      cbn [search_loop]. apply Z.ltb_lt in Hgo. rewrite Hgo.
      destruct (search_page_turn query coords radius cap i a s Ha Hready Hcount)
        as (s2 & token & Hpg & Htoken & Hr2 & Hc2).
      unfold bind at 1. rewrite Hpg.
      destruct (truthy_opt (token_after answers (S i))) eqn:Hnext.
      * rewrite (Htoken eq_refl). apply IH; try lia; try assumption.
        intros _. exact Hnext.
      * assert (Hk : S i = k).
        { destruct (Nat.eq_dec (S i) k) as [E|E]; [exact E|].
          exfalso. apply (Hbefore (S i)); [lia|].
          right. split; [lia|exact Hnext]. }
        rewrite <- Hk. exists s2. split; [reflexivity|]. split; assumption.
Qed.

End Pagination.

(** ** The rate limiter, over a sequence of calls *)

Lemma issue_stamps (w : World) (N P : Z) (cs : list Call) (s : State) :
  1 <= N -> List.Forall well_behaved cs -> limiter_inv N P s ->
  length (stamps (trace (issue w cs s))) = (length (stamps (trace s)) + length cs)%nat.
Proof.
  intros HN Hcs. revert s.
  induction Hcs as [|[A f] cs Hf _ IH]; intros s Hinv; cbn [issue run_call length]; [lia|].
  rewrite IH by now apply rate_limited_api_call_inv.
  destruct (throttle_run w s) as (s1 & t & Hrun & _ & _ & _ & Hst & _).
  { destruct Hinv as [Hmax _ _ _ _ _]. rewrite Hmax. intros Hfull Hnil.
    rewrite Hnil in Hfull. cbn in Hfull. lia. }
  unfold rate_limited_api_call, wrapped, bind. rewrite Hrun.
  destruct (Hf s1) as (_ & Hs & _). rewrite Hs, Hst, length_app. cbn [length]. lia.
Qed.

(** The program's callees are calls into the world; they are well behaved. *)
Lemma callee_foreign {A} (e : Event) (answer : list Event -> Outcome A) :
  stamps [e] = [] -> callee (foreign e answer).
Proof.
  intros He s. rewrite foreign_run. cbn [snd after limiter trace clock].
  rewrite stamps_app, He, app_nil_r. repeat split. lia.
Qed.

(** C6: for any sequence of calls issued one after the other through a
    limiter of [N >= 1] calls per [P] ticks, every call records one
    timestamp and no window of [P] consecutive ticks holds more than [N] of
    the recorded timestamps.  The next call keeps the timestamps younger than
    [P], and when [N] of them remain its own timestamp is taken no earlier
    than [P] after the oldest one kept. *)
Theorem rate_limiter_window (w : World) (N P : Z) (cs : list Call) (s0 : State) :
  1 <= N ->
  limiter s0 = RateLimiter_init N P ->
  stamps (trace s0) = [] ->
  List.Forall well_behaved cs ->
  let s := issue w cs s0 in
  length (stamps (trace s)) = length cs
  /\ (forall t0, Z.of_nat (calls_in_window t0 P (stamps (trace s))) <= N)
  /\ exists s' t,
       throttle w s = (Ok tt, s')
       /\ calls (limiter s')
          = List.filter (fun x => reading w s - x <? P) (calls (limiter s)) ++ [t]
       /\ stamps (trace s') = stamps (trace s) ++ [t]
       /\ (N <= Z.of_nat (length (List.filter (fun x => reading w s - x <? P)
                                     (calls (limiter s)))) ->
           forall oldest, hd_error (List.filter (fun x => reading w s - x <? P)
                                      (calls (limiter s))) = Some oldest ->
                          oldest + P <= t).
Proof.
  intros HN Hl Hs Hcs s.
  assert (Hinv0 : limiter_inv N P s0) by (apply limiter_inv_fresh; [lia|assumption|assumption]).
  assert (Hinv : limiter_inv N P s) by now apply issue_inv.
  split; [|split].
  - unfold s. rewrite (issue_stamps w N P cs s0 HN Hcs Hinv0), Hs. reflexivity.
  - apply Hinv.
  - pose proof (kept_bounded w N P s Hinv) as Hb.
    destruct Hinv as [Hmax Hper _ _ _ _].
    destruct (throttle_run w s) as (s' & t & Hrun & _ & _ & Hlim & Hst & _ & Hwait & _).
    { rewrite Hmax. intros Hfull Hnil. rewrite Hnil in Hfull. cbn in Hfull. lia. }
    unfold kept in *. rewrite Hper, ?Hmax in *.
    exists s', t. split; [exact Hrun|]. split; [now rewrite Hlim|]. split; [exact Hst|].
    intros Hfull oldest Hold.
    destruct (List.filter _ (calls (limiter s))) as [|k0 rest] eqn:Hk; [discriminate Hold|].
    inversion Hold; subst oldest. eapply Hwait; [exact Hfull|reflexivity].
Qed.

(** Three calls through a limiter of two calls per ten ticks. *)
Lemma rate_limiter_window_witness :
  let s := issue sample_world three_calls small_limiter_state in
  length (stamps (trace s)) = 3%nat
  /\ (forall t0, Z.of_nat (calls_in_window t0 10 (stamps (trace s))) <= 2)
  /\ exists s' t,
       throttle sample_world s = (Ok tt, s')
       /\ calls (limiter s')
          = List.filter (fun x => reading sample_world s - x <? 10) (calls (limiter s)) ++ [t]
       /\ stamps (trace s') = stamps (trace s) ++ [t]
       /\ (2 <= Z.of_nat (length (List.filter (fun x => reading sample_world s - x <? 10)
                                     (calls (limiter s)))) ->
           forall oldest, hd_error (List.filter (fun x => reading sample_world s - x <? 10)
                                      (calls (limiter s))) = Some oldest ->
                          oldest + 10 <= t).
Proof.
  apply (rate_limiter_window sample_world 2 10 three_calls small_limiter_state).
  - lia.
  - reflexivity.
  - reflexivity.
  - unfold three_calls.
    repeat (apply List.Forall_cons; [apply callee_foreign; reflexivity|]).
    apply List.Forall_nil.
Defined.

(** The timestamps of five calls in a row through a limiter of two calls
    per ten ticks, each clock access taking one tick. *)
Example five_calls_two_per_ten :
  stamps (trace (issue sample_world (three_calls ++ [call (ret tt); call (ret tt)])
                   small_limiter_state))
  = [2; 4; 14; 16; 26].
Proof. reflexivity. Qed.

(** ** Pagination: the scenario and the general statement *)

Lemma three_pages_stop : stops_exactly_at 50 three_pages 3.
Proof.
  split; [cbn; lia|]. split.
  - right. split; [lia|reflexivity].
  - intros j Hj [Hcap|[Hpos Htok]].
    + destruct j as [|[|[|j]]]; [| | |lia]; vm_compute in Hcap; now apply Hcap.
    + destruct j as [|[|[|j]]]; [lia| | |lia]; discriminate Htok.
Qed.

(** C7: against a provider that answers the search calls in order,
    pagination stops exactly when the accumulated count reaches the cap or no
    continuation token is returned (a page without one, or a call that
    fails): it makes [k] calls, where [k] is the first number of calls after
    which one of the two holds, and accumulates their results.  With three pages of twenty results, tokens on the first two,
    and a cap of fifty, all three pages are fetched (sixty results), and the
    list is cut to its first fifty. *)
Theorem pagination_stops_at_cap_or_last_page :
  (forall (w : World) (answers : list Answer) (query : string) (coords : Coords)
          (radius cap : Z) (k fuel : nat) (s : State),
      (forall h q c r t, gmaps_places w h q c r t = served answers h q c r t) ->
      ready s ->
      List.filter is_Places (trace s) = [] ->
      stops_exactly_at cap answers k ->
      (k <= fuel)%nat ->
      exists s',
        search_loop w fuel query coords radius cap [] None s
        = (Ok (accumulated answers k), s')
        /\ length (List.filter is_Places (trace s')) = k)
  /\ stops_exactly_at 50 three_pages 3
  /\ length (accumulated three_pages 3) = 60%nat
  /\ slice_to (accumulated three_pages 3) 50 = map place_ref (seq 0 50)
  /\ (let run := get_google_maps_data sample_world 3 "AIza-sample" (LocStr "40.0,-73.0")
                   "coffee" 50 50000 initial_state in
      List.filter is_Places (trace (snd run))
      = [Places "coffee" (Float "41.5", Float "-72.25") 50000 None;
         Places "coffee" (Float "41.5", Float "-72.25") 50000 (Some "token1");
         Places "coffee" (Float "41.5", Float "-72.25") 50000 (Some "token2")]
      /\ exists data, fst run = Ok data
                      /\ map Name data = map place_id (map place_ref (seq 0 50))).
Proof.
  split; [|split; [|split; [|split]]].
  - intros w answers query coords radius cap k fuel s Hprov Hready Hnone Hstop Hfuel.
    destruct (search_loop_from w answers Hprov query coords radius cap k Hstop fuel 0%nat s)
      as (s' & Hrun & Hcount & _); try lia; try assumption.
    + now rewrite Hnone.
    + exists s'. split; assumption.
  - exact three_pages_stop.
  - reflexivity.
  - reflexivity.
  - cbv zeta. split; [vm_compute; reflexivity|].
    eexists. split; vm_compute; reflexivity.
Qed.

(** A call that fails returns no continuation token: pagination stops
    there, with the results accumulated before. *)
Example failing_call_ends_pagination :
  stops_exactly_at 50 page_then_failure 2
  /\ (let w := with_places sample_world (served page_then_failure) in
      let run := search_loop w 5 "coffee" (Float "41.5", Float "-72.25") 50000 50 [] None
                   initial_state in
      fst run = Ok (page_of 0)
      /\ length (List.filter is_Places (trace (snd run))) = 2%nat).
Proof.
  split.
  - split; [cbn; lia|]. split.
    + right. split; [lia|reflexivity].
    + intros j Hj [Hcap|[Hpos Htok]].
      * destruct j as [|[|j]]; [| |lia]; vm_compute in Hcap; now apply Hcap.
      * destruct j as [|[|j]]; [lia| |lia]; discriminate Htok.
  - vm_compute. split; reflexivity.
Qed.

(** The three pages of the scenario, served to the loop. *)
Lemma pagination_stops_at_cap_or_last_page_witness :
  exists s',
    search_loop sample_world 3 "coffee" (Float "41.5", Float "-72.25") 50000 50 [] None
      initial_state
    = (Ok (accumulated three_pages 3), s')
    /\ length (List.filter is_Places (trace s')) = 3%nat.
Proof.
  apply (proj1 pagination_stops_at_cap_or_last_page sample_world three_pages).
  - reflexivity.
  - exact ready_initial_state.
  - reflexivity.
  - exact three_pages_stop.
  - lia.
Defined.

(** ** Runs in the sample worlds *)

(** The text "40.0,-73.0" is not a pair: it is geocoded. *)
Lemma get_location_coordinates_pair_or_geocode_witness :
  In (Geocode (LocStr "40.0,-73.0"))
     (trace (snd (get_location_coordinates sample_world (LocStr "40.0,-73.0") initial_state))).
Proof.
  apply (proj2 (get_location_coordinates_pair_or_geocode sample_world initial_state)).
  - exact ready_initial_state.
  - reflexivity.
Defined.

(** C1 fails as stated: with SEARCH_LOCATION set to "40.0,-73.0" the driver
    makes a geocoding call with that text, and searches around the coordinates
    the geocoder answered, not around those of the text. *)
Lemma search_location_text_is_geocoded :
  os_getenv sample_world "SEARCH_LOCATION" = Some "40.0,-73.0"
  /\ List.filter is_Geocode (trace (snd (main sample_world 3 initial_state)))
     = [Geocode (LocStr "40.0,-73.0")]
  /\ List.filter is_Places (trace (snd (main sample_world 3 initial_state)))
     = [Places "coffee" (Float "41.5", Float "-72.25") 50000 None;
        Places "coffee" (Float "41.5", Float "-72.25") 50000 (Some "token1");
        Places "coffee" (Float "41.5", Float "-72.25") 50000 (Some "token2")].
Proof. vm_compute. repeat split. Qed.

(** For a negative cap the loop is not entered and the list is empty. *)
Example negative_cap_gives_nothing :
  fst (get_google_maps_data sample_world 3 "AIza-sample" (LocStr "40.0,-73.0") "coffee"
         (-1) 50000 initial_state) = Ok [].
Proof. vm_compute. reflexivity. Qed.

(** A place without website in the sample world. *)
Lemma get_place_details_email_needs_website_witness :
  exists record s',
    get_place_details sample_world "place1" initial_state = (Ok record, s')
    /\ (Email record <> None -> exists url, Website record = Some url /\ url <> "")
    /\ (truthy_opt (Website record) = false ->
        Email record = None
        /\ List.filter is_HttpGet (trace s') = List.filter is_HttpGet (trace initial_state)).
Proof.
  eexists _, _. split.
  - vm_compute. reflexivity.
  - apply (get_place_details_email_needs_website sample_world "place1" initial_state).
    vm_compute. reflexivity.
Defined.

(** The two kinds of place in the sample world: "place0" has a website and
    gets the first address found on it, "place1" has none and no page is
    requested for it. *)
Example enriched_with_and_without_website :
  (let run := get_place_details sample_world "place0" initial_state in
   option_map Email (match fst run with Ok r => Some r | _ => None end)
   = Some (Some "info@place0.example")
   /\ List.filter is_HttpGet (trace (snd run)) = [HttpGet "https://place0.example"])
  /\ (let run := get_place_details sample_world "place1" initial_state in
      option_map Email (match fst run with Ok r => Some r | _ => None end) = Some None
      /\ List.filter is_HttpGet (trace (snd run)) = []).
Proof. vm_compute. repeat split. Qed.

(** The world whose geocoder finds nothing. *)
Lemma location_not_found_ends_run_witness :
  (exists s1,
      get_google_maps_data nowhere_world 3 "AIza-sample" (LocStr "Atlantis") "coffee"
        50 50000 initial_state
      = (Ok [], s1)
      /\ files s1 = files initial_state /\ extends_by idle initial_state s1)
  /\ (exists s2,
         run_pipeline nowhere_world 3 (read_config nowhere_world) "AIza-sample" "Atlantis"
           "coffee" 50 50000 initial_state
         = (Ok tt, after s2 [Log ERROR "No data retrieved. Check the logs for errors." []])
         /\ files s2 = files initial_state /\ extends_by idle initial_state s2).
Proof.
  apply (location_not_found_ends_run nowhere_world 3 (read_config nowhere_world)
           "AIza-sample" "Atlantis" "coffee" 50 50000 initial_state).
  - exact ready_initial_state.
  - reflexivity.
  - intros h. left. reflexivity.
Defined.

(** C4 fails as stated: when the geocoder finds nothing, the orchestrator
    does not fail; it returns normally, with the empty list. *)
Lemma location_error_stays_in_orchestrator :
  gmaps_geocode nowhere_world [] (LocStr "Atlantis") = Ok []
  /\ fst (get_google_maps_data nowhere_world 3 "AIza-sample" (LocStr "Atlantis") "coffee"
            50 50000 initial_state)
     = Ok [].
Proof. vm_compute. split; reflexivity. Qed.

(** C5 fails as stated: the tabular file written for an empty list is a
    single empty line, not the header row of the field names. *)
Lemma empty_csv_has_no_header :
  files (snd (save_to_file sample_world [] "output" true true initial_state)) !! "output.csv"
  = Some nl
  /\ header_row = "Name,Address,Phone,Website,Email,Rating,Reviews,Types"
  /\ Some nl <> Some (header_row ++ nl)%string.
Proof. split; [|split]; [vm_compute; reflexivity|reflexivity|discriminate]. Qed.

(** The world with sync enabled and no table name. *)
Lemma sync_skipped_files_written_witness :
  (forall data s,
      exists s1,
        save_to_file sync_world data "output" true true s = (Ok tt, s1)
        /\ deliver sync_world (read_config sync_world) data s
           = (Ok tt, after s1 [sync_error_line])
        /\ (true = true -> files s1 !! "output.csv" = Some (to_csv sync_world data))
        /\ (true = true -> files s1 !! "output.json" = Some (json_dump sync_world data)))
  /\ (forall fuel s,
         List.filter is_sync (trace (snd (main sync_world fuel s)))
         = List.filter is_sync (trace s))
  /\ (forall fuel s api_key location query num_results radius record data s0,
         Some "AIza-sample" = Some api_key ->
         Some "40.0,-73.0" = Some location ->
         Some "coffee" = Some query ->
         parse_int "50" = Some num_results ->
         parse_int "50000" = Some radius ->
         get_google_maps_data sync_world fuel api_key (LocStr location) query num_results
           radius
           (after s (config_lines
                       (config_items (read_config sync_world) (AInt num_results)
                          (AInt radius)) location))
         = (Ok (record :: data), s0) ->
         main sync_world fuel s
         = deliver sync_world (read_config sync_world) (record :: data) s0).
Proof.
  apply (sync_skipped_files_written sync_world).
  - vm_compute. reflexivity.
  - vm_compute. reflexivity.
Defined.

(** The whole driver with sync enabled and no table name: the three search
    pages, fifty enrichments, both files, no sync event, and the error line
    last. *)
Example sync_world_run :
  let s := snd (main sync_world 3 initial_state) in
  USE_SUPABASE (read_config sync_world) = true
  /\ os_getenv sync_world "SUPABASE_TABLE_NAME" = None
  /\ List.filter is_sync (trace s) = []
  /\ length (List.filter is_Place (trace s)) = 50%nat
  /\ files s !! "output.csv" = Some (to_csv sync_world (records_of (fst sample_run)))
  /\ files s !! "output.json" = Some (json_dump sync_world (records_of (fst sample_run)))
  /\ List.last (trace s) (Stamp 0) = sync_error_line.
Proof. vm_compute. repeat split. Qed.

(** The world without API key: one option is reported. *)
Lemma invalid_configuration_stops_main_witness :
  main no_key_world 3 initial_state
  = (Ok tt, after initial_state (missing_lines ["GOOGLE_MAPS_API_KEY"])).
Proof.
  apply (proj1 (proj2 (invalid_configuration_stops_main no_key_world 3 initial_state))).
  vm_compute. discriminate.
Defined.

(** C9 fails as stated: with NUM_RESULTS and SEARCH_RADIUS both not
    integers the driver logs one error, about NUM_RESULTS; the invalid
    SEARCH_RADIUS is not logged. *)
Lemma second_invalid_number_is_not_logged :
  parse_int (NUM_RESULTS (read_config bad_numbers_world)) = None
  /\ SEARCH_RADIUS (read_config bad_numbers_world) = "xyz"
  /\ parse_int "xyz" = None
  /\ trace (snd (main bad_numbers_world 3 initial_state)) = [invalid_line "abc"]
  /\ ~ In (invalid_line "xyz") (trace (snd (main bad_numbers_world 3 initial_state))).
Proof.
  repeat split; try (vm_compute; reflexivity).
  vm_compute. intros [H|[]]. discriminate H.
Qed.

(** USE_SUPABASE=True enables sync; an unset OUTPUT_CSV is true. *)
Lemma boolean_options_witness :
  USE_SUPABASE (read_config sync_world) = true
  /\ OUTPUT_CSV (read_config sync_world) = true.
Proof.
  destruct (boolean_options sync_world) as (Hcsv & _ & Hsync & _).
  split.
  - apply Hsync. vm_compute.
    exists "T"%char, "r"%char, "u"%char, "e"%char. repeat split; auto.
  - apply Hcsv. vm_compute. exact I.
Defined.

(** * Further properties of the code *)

(** ** The e-mail extractor *)

(** X4: the extractor never raises: it returns the first address found on the
    page, or nothing when there is none; when the fetch or the parsing
    fails it logs the error and returns nothing. *)
Theorem extract_email_from_website_never_raises (w : World) (url : string) (s : State) :
  (forall e, fst (extract_email_from_website w url s) <> Raise e)
  /\ match page_emails w (trace s) url with
     | Ok (email :: _) =>
         extract_email_from_website w url s = (Ok (Some email), after s [HttpGet url])
     | Ok [] =>
         extract_email_from_website w url s = (Ok None, after s [HttpGet url])
     | Raise e =>
         extract_email_from_website w url s
         = (Ok None,
            after s [HttpGet url;
                     Log ERROR "Error extracting email from {url}: {e}" [AStr url; AExn e]])
     | OutOfFuel => fst (extract_email_from_website w url s) = OutOfFuel
     end.
Proof.
  unfold extract_email_from_website, try_except, bind. rewrite !foreign_run.
  destruct (page_emails w (trace s) url) as [[|email emails]|e|];
    unfold logger, emit, ret, after; cbn [fst snd clock reads limiter trace files];
    rewrite <- ?app_assoc; cbn [app];
    (split; [discriminate|]); reflexivity.
Qed.

(** ** Persistence: overwriting, and nothing else touched *)

Section Persistence.

Context (w : World).

Lemma save_to_file_files (data : list PlaceRecord) (output_file : string)
    (output_csv output_json : bool) (s : State) :
  exists s',
    save_to_file w data output_file output_csv output_json s = (Ok tt, s')
    /\ files s'
       = (if output_json then <[(output_file ++ ".json")%string := json_dump w data]> else id)
           ((if output_csv then <[(output_file ++ ".csv")%string := to_csv w data]> else id)
              (files s))
    /\ (output_csv = false -> output_json = false -> s' = s).
Proof.
  unfold save_to_file.
  destruct output_csv, output_json;
    unfold bind, write_file, logger, emit, ret; cbv beta iota zeta;
    eexists; (split; [reflexivity|]); (split; [reflexivity|]);
    intros H1 H2; try discriminate.
  now destruct s.
Qed.

Lemma save_to_file_outside (data : list PlaceRecord) (output_file : string)
    (output_csv output_json : bool) (s : State) :
  outside output_file s (snd (save_to_file w data output_file output_csv output_json s)).
Proof.
  destruct (save_to_file_files data output_file output_csv output_json s)
    as (s1 & Hrun & Hf & _).
  rewrite Hrun. cbn [snd]. intros path Hc Hj. rewrite Hf.
  destruct output_csv, output_json; cbn [id];
    repeat (rewrite lookup_insert_ne by congruence); reflexivity.
Qed.

End Persistence.

(** *** When a file may not open *)

Section DiskPersistence.

Context (w : World) (can_open : list Event -> string -> Outcome unit).

(** The files after a call that returned: what the flagged files are
    replaced by. *)
Lemma disk_save_to_file_Ok (data : list PlaceRecord) (output_file : string)
    (output_csv output_json : bool) (s s1 : State) :
  Disk.save_to_file w can_open data output_file output_csv output_json s = (Ok tt, s1) ->
  files s1
  = (if output_json then <[(output_file ++ ".json")%string := json_dump w data]> else id)
      ((if output_csv then <[(output_file ++ ".csv")%string := to_csv w data]> else id)
         (files s)).
Proof.
  unfold Disk.save_to_file.
  destruct output_csv, output_json;
    unfold bind, Disk.open_file, Disk.write, logger, emit, ret;
    cbv beta iota zeta; cbn [clock reads limiter trace files id];
    repeat match goal with
           | |- context [can_open ?h ?p] =>
               destruct (can_open h p) as [[]|?|];
               cbv beta iota zeta; cbn [clock reads limiter trace files]
           end;
    intros H; inversion H; cbn [files];
    rewrite ?lookup_insert_eq; cbn [default String.append];
    rewrite ?insert_insert_eq; reflexivity.
Qed.

(** Whatever the outcome, what a call can change. *)
Lemma disk_save_to_file_frame (data : list PlaceRecord) (output_file : string)
    (output_csv output_json : bool) (s : State) (path : string) :
  (output_csv = true -> path <> (output_file ++ ".csv")%string) ->
  (output_json = true -> path <> (output_file ++ ".json")%string) ->
  files (snd (Disk.save_to_file w can_open data output_file output_csv output_json s)) !! path
  = files s !! path.
Proof.
  intros Hc Hj. unfold Disk.save_to_file.
  destruct output_csv, output_json;
    try specialize (Hc eq_refl); try specialize (Hj eq_refl);
    unfold bind, Disk.open_file, Disk.write, logger, emit, ret;
    cbv beta iota zeta; cbn [clock reads limiter trace files];
    repeat match goal with
           | |- context [can_open ?h ?p] =>
               destruct (can_open h p) as [[]|?|];
               cbv beta iota zeta; cbn [clock reads limiter trace files]
           end;
    cbn [snd files]; repeat (rewrite lookup_insert_ne by congruence); reflexivity.
Qed.

(** When every file opens, this is the persistence step of the program
    model. *)
Lemma disk_save_to_file_when_files_open (data : list PlaceRecord) (output_file : string)
    (output_csv output_json : bool) (s : State) :
  (forall h path, can_open h path = Ok tt) ->
  Disk.save_to_file w can_open data output_file output_csv output_json s
  = save_to_file w data output_file output_csv output_json s.
Proof.
  intros Hopen. unfold Disk.save_to_file, save_to_file.
  destruct output_csv, output_json;
    unfold bind, Disk.open_file, Disk.write, write_file, logger, emit, ret;
    cbv beta iota zeta; cbn [clock reads limiter trace files];
    rewrite ?Hopen; cbv beta iota zeta; cbn [clock reads limiter trace files];
    rewrite ?Hopen; cbv beta iota zeta; cbn [clock reads limiter trace files];
    rewrite ?lookup_insert_eq; cbn [default String.append];
    rewrite ?insert_insert_eq; reflexivity.
Qed.

End DiskPersistence.

(** X11: the files are replaced, not appended to, because both are opened
    with the mode ['w']: when two calls in a row with the same records, stem
    and flags both return, every file holds after the second what it held
    after the first. *)
Theorem save_to_file_twice (w : World) (can_open : list Event -> string -> Outcome unit)
    (data : list PlaceRecord) (output_file : string) (output_csv output_json : bool)
    (s once twice : State) :
  Disk.save_to_file w can_open data output_file output_csv output_json s = (Ok tt, once) ->
  Disk.save_to_file w can_open data output_file output_csv output_json once = (Ok tt, twice) ->
  files twice = files once.
Proof.
  intros H1 H2.
  apply disk_save_to_file_Ok in H1. apply disk_save_to_file_Ok in H2.
  rewrite H2, H1.
  pose proof (csv_json_names_differ output_file) as Hne.
  apply map_eq. intros path.
  destruct output_csv, output_json; cbn [id];
    destruct (decide (path = (output_file ++ ".json")%string)) as [Hj|Hj];
    destruct (decide (path = (output_file ++ ".csv")%string)) as [Hc|Hc];
    try congruence; try rewrite Hj; try rewrite Hc;
    repeat first [ rewrite lookup_insert_eq | rewrite lookup_insert_ne by congruence ];
    reflexivity.
Qed.

(** X12: whether the files open or not, persistence touches no path other
    than [<stem>.csv] and [<stem>.json], and each of the two only when its
    flag is set; with both flags off it does nothing at all.  It has no
    handler: when the CSV file does not open, the exception leaves it at
    once, and the JSON file is not written. *)
Theorem save_to_file_touches_only_its_files (w : World)
    (can_open : list Event -> string -> Outcome unit) (data : list PlaceRecord)
    (output_file : string) (output_csv output_json : bool) (s : State) :
  let run := Disk.save_to_file w can_open data output_file output_csv output_json s in
  (forall path,
      path <> (output_file ++ ".csv")%string -> path <> (output_file ++ ".json")%string ->
      files (snd run) !! path = files s !! path)
  /\ (output_csv = false ->
      files (snd run) !! (output_file ++ ".csv")%string
      = files s !! (output_file ++ ".csv")%string)
  /\ (output_json = false ->
      files (snd run) !! (output_file ++ ".json")%string
      = files s !! (output_file ++ ".json")%string)
  /\ (output_csv = false -> output_json = false -> run = (Ok tt, s))
  /\ (forall e,
         output_csv = true ->
         can_open (trace s) (output_file ++ ".csv")%string = Raise e ->
         run = (Raise e, s)).
Proof.
  cbv zeta.
  pose proof (csv_json_names_differ output_file) as Hne.
  split; [|split; [|split; [|split]]].
  - intros path Hc Hj. now apply disk_save_to_file_frame.
  - intros Hcsv. apply disk_save_to_file_frame; [congruence|intros _; congruence].
  - intros Hjson. apply disk_save_to_file_frame; [intros _; congruence|congruence].
  - intros -> ->. unfold Disk.save_to_file, bind, ret. now destruct s.
  - intros e -> Hopen. unfold Disk.save_to_file. cbv zeta.
    unfold bind at 1, bind at 1, Disk.open_file. now rewrite Hopen.
Qed.

(** ** Remote sync *)

Section Sync.

Context (w : World).

(** One record: the insert is attempted and leaves one log line, whether it
    gives data, gives none or raises. *)
Lemma insert_items_cons (table_name : string) (item : PlaceRecord)
    (rest : list PlaceRecord) (s : State) :
  supabase_insert w (trace s) table_name item <> OutOfFuel ->
  exists line,
    is_Log line = true
    /\ insert_items w table_name (item :: rest) s
       = insert_items w table_name rest (after s [Insert table_name item; line]).
Proof.
  intros Hanswer. cbn [insert_items]. unfold bind at 1, try_except, bind at 1.
  rewrite foreign_run.
  destruct (supabase_insert w (trace s) table_name item) as [[|]|e|]; [| | |congruence];
    eexists; (split; [|unfold logger, emit, after; cbn [clock reads limiter trace files];
                        rewrite <- app_assoc; reflexivity]); reflexivity.
Qed.

Lemma insert_items_run (table_name : string) (data : list PlaceRecord) (s : State) :
  (forall h item, supabase_insert w h table_name item <> OutOfFuel) ->
  exists s',
    insert_items w table_name data s = (Ok tt, s')
    /\ List.filter is_Insert (trace s')
       = List.filter is_Insert (trace s) ++ map (Insert table_name) data
    /\ length (List.filter is_Log (trace s'))
       = (length (List.filter is_Log (trace s)) + length data)%nat
    /\ files s' = files s.
Proof.
  intros Hanswer. revert s. induction data as [|item rest IH]; intros s.
  - exists s. cbn. rewrite app_nil_r. repeat split; lia.
  - destruct (insert_items_cons table_name item rest s (Hanswer _ _)) as (line & Hline & Hrun).
    destruct (IH (after s [Insert table_name item; line])) as (s' & Hrest & Hins & Hlog & Hfiles).
    exists s'. rewrite Hrun. split; [exact Hrest|].
    cbn [after trace files] in Hins, Hlog, Hfiles.
    rewrite List.filter_app in Hins, Hlog. cbn [List.filter is_Insert is_Log] in Hins, Hlog.
    destruct line; try discriminate Hline.
    cbn [is_Insert is_Log] in Hins, Hlog.
    rewrite Hins, Hlog, <- app_assoc, length_app. cbn [app map length].
    repeat split; [lia|exact Hfiles].
Qed.

(** With remote sync switched off, no part of the driver adds a sync
    event. *)
Lemma emits_main_without_sync (fuel : nat) :
  USE_SUPABASE (read_config w) = false ->
  emits (fun e => negb (is_sync e)) (main w fuel).
Proof.
  intros Hsync.
  pose proof not_sync_through as through.
  unfold main. cbv zeta.
  destruct (missing_config (read_config w)) as [|k l].
  2:{ apply emits_bind; [apply emits_logger; exact through|intros _].
      apply emits_for_each. intros item. apply emits_logger; exact through. }
  apply emits_bind.
  { apply emits_try_except_ValueError; [|intros e; repeat emits_step through].
    unfold int_of. repeat emits_step through. }
  intros [[num_results radius]|]; [|apply emits_ret].
  destruct (GOOGLE_MAPS_API_KEY (read_config w)) as [api_key|]; [|apply emits_raise].
  destruct (SEARCH_LOCATION (read_config w)) as [location|]; [|apply emits_raise].
  destruct (SEARCH_QUERY (read_config w)) as [query|]; [|apply emits_raise].
  unfold run_pipeline.
  apply emits_bind; [apply emits_logger; exact through|intros _].
  apply emits_bind.
  { apply emits_for_each. intros kv. repeat emits_step through. }
  intros _. apply emits_bind; [apply emits_logger; exact through|intros _].
  apply emits_bind.
  { apply emits_get_google_maps_data; [exact through|exact not_sync_calls_out]. }
  intros [|record data]; [apply emits_logger; exact through|].
  unfold deliver. rewrite Hsync.
  apply emits_bind; [|intros _; apply emits_ret].
  apply emits_save_to_file; [exact through|exact not_sync_calls_out].
Qed.

End Sync.

(** X13: once the client is created, remote sync attempts the insert of every
    record, once each and in the order of the list, into the table named by
    SUPABASE_TABLE_NAME ("google_maps_data" when unset); an insert that gives
    no data or raises is logged and does not stop the following ones; each
    record leaves one log line, no file is touched, and the step returns
    normally. *)
Theorem add_to_supabase_attempts_every_record (w : World) (data : list PlaceRecord)
    (s : State) :
  supabase_create_client w (os_getenv w "SUPABASE_URL") (os_getenv w "SUPABASE_KEY") = Ok tt ->
  (forall h item, supabase_insert w h (sync_table w) item <> OutOfFuel) ->
  exists s',
    add_to_supabase w data s = (Ok tt, s')
    /\ List.filter is_Insert (trace s')
       = List.filter is_Insert (trace s) ++ map (Insert (sync_table w)) data
    /\ length (List.filter is_Log (trace s'))
       = (length (List.filter is_Log (trace s)) + length data)%nat
    /\ files s' = files s.
Proof.
  intros Hclient Hanswer. unfold add_to_supabase. cbv zeta.
  rewrite bind_emit. unfold bind at 1, reply. rewrite Hclient.
  fold (sync_table w).
  destruct (insert_items_run w (sync_table w) data
              (after s [CreateClient (os_getenv w "SUPABASE_URL") (os_getenv w "SUPABASE_KEY")])
              Hanswer)
    as (s' & Hrun & Hins & Hlog & Hfiles).
  exists s'. split; [exact Hrun|].
  cbn [after trace files] in Hins, Hlog, Hfiles.
  rewrite List.filter_app in Hins, Hlog. cbn in Hins, Hlog. rewrite app_nil_r in Hins, Hlog.
  auto.
Qed.

(** X14: when the client cannot be created, the exception leaves the end of the
    driver uncaught: the files have been written by then, and no insert is
    attempted. *)
Theorem sync_client_failure_after_files (w : World) (config : Config)
    (data : list PlaceRecord) (s : State) (e : exn) :
  USE_SUPABASE config = true ->
  all_set [os_getenv w "SUPABASE_URL"; os_getenv w "SUPABASE_KEY";
           os_getenv w "SUPABASE_TABLE_NAME"] = true ->
  supabase_create_client w (os_getenv w "SUPABASE_URL") (os_getenv w "SUPABASE_KEY")
  = Raise e ->
  let saved :=
    snd (save_to_file w data (OUTPUT_FILE config) (OUTPUT_CSV config) (OUTPUT_JSON config) s) in
  add_to_supabase w data saved
  = (Raise e,
     after saved [CreateClient (os_getenv w "SUPABASE_URL") (os_getenv w "SUPABASE_KEY")])
  /\ deliver w config data s
     = (Raise e,
        after saved [CreateClient (os_getenv w "SUPABASE_URL") (os_getenv w "SUPABASE_KEY")]).
Proof.
  intros Hsync Hset Hclient saved.
  assert (Hadd : add_to_supabase w data saved
                 = (Raise e,
                    after saved [CreateClient (os_getenv w "SUPABASE_URL")
                                   (os_getenv w "SUPABASE_KEY")])).
  { unfold add_to_supabase. cbv zeta. rewrite bind_emit. unfold bind, reply.
    rewrite Hclient. reflexivity. }
  split; [exact Hadd|].
  unfold deliver. rewrite Hsync, Hset. cbn [negb]. unfold bind at 1. subst saved.
  destruct (save_to_file_files w data (OUTPUT_FILE config) (OUTPUT_CSV config)
              (OUTPUT_JSON config) s) as (s1 & Hrun & _).
  rewrite Hrun in *. cbn [snd] in Hadd. exact Hadd.
Qed.

(** X15: remote sync is opt-in: unless USE_SUPABASE reads "true", the driver
    creates no client and inserts no row, whatever the other options are. *)
Theorem sync_disabled_never_syncs (w : World) (fuel : nat) (s : State) :
  USE_SUPABASE (read_config w) = false ->
  List.filter is_sync (trace (snd (main w fuel s))) = List.filter is_sync (trace s).
Proof.
  intros Hsync.
  apply extends_by_filter with (p := fun e => negb (is_sync e)).
  - intros e He. now destruct (is_sync e).
  - now apply emits_main_without_sync.
Qed.

(** ** The limiter, call by call *)

Section LimiterCalls.

Context (w : World).

(** One pass through [throttle] from a state with the invariant: below the
    limit only the timestamp is recorded; at the limit the caller sleeps
    first, for the time the oldest kept timestamp needs to leave the
    window. *)
Lemma throttle_shape (N P : Z) (s : State) :
  1 <= N -> limiter_inv N P s ->
  exists s' t,
    throttle w s = (Ok tt, s')
    /\ clock s' = t
    /\ reading w s <= t
    /\ limiter s' = {| max_calls := N; period := P; calls := kept w s ++ [t] |}
    /\ files s' = files s
    /\ ((Z.of_nat (length (kept w s)) < N /\ trace s' = trace s ++ [Stamp t])
        \/ (Z.of_nat (length (kept w s)) = N
            /\ exists oldest rest,
                kept w s = oldest :: rest
                /\ 0 < P - (reading w s - oldest)
                /\ oldest + P <= t
                /\ trace s' = trace s ++ [Sleep (P - (reading w s - oldest)); Stamp t])).
Proof.
  intros HN Hinv.
  pose proof (kept_bounded w N P s Hinv) as Hbound.
  destruct Hinv as [Hmax Hper _ _ _ _].
  unfold throttle, bind, time_time, time_sleep, tick, get_limiter, set_calls, emit, ret, raise, bind.
  cbn [clock reads limiter trace files max_calls period calls fst snd].
  fold (reading w s). fold (kept w s). rewrite Hmax, Hper.
  destruct (N <=? Z.of_nat (length (kept w s))) eqn:Hfull.
  - apply Z.leb_le in Hfull.
    destruct (kept w s) as [|oldest rest] eqn:Hk; [cbn in Hfull; lia|].
    assert (Hin : In oldest (kept w s)) by (rewrite Hk; now left).
    unfold kept in Hin. apply List.filter_In in Hin. destruct Hin as [_ Hrecent].
    rewrite Hper in Hrecent. apply Z.ltb_lt in Hrecent.
    replace (0 <? P - (reading w s - oldest)) with true by (symmetry; apply Z.ltb_lt; lia).
    cbn [clock reads limiter trace files max_calls period calls fst snd bind].
    eexists _, _. split; [reflexivity|].
    cbn [clock reads limiter trace files].
    split; [reflexivity|]. split; [lia|]. split; [reflexivity|]. split; [reflexivity|].
    right. split; [lia|]. exists oldest, rest.
    split; [reflexivity|]. split; [lia|]. split; [lia|].
    rewrite <- app_assoc. reflexivity.
  - apply Z.leb_gt in Hfull.
    cbn [clock reads limiter trace files max_calls period calls fst snd bind].
    eexists _, _. split; [reflexivity|].
    cbn [clock reads limiter trace files].
    split; [reflexivity|]. split; [lia|]. split; [reflexivity|]. split; [reflexivity|].
    left. split; [lia|reflexivity].
Qed.

(** A call through the limiter leaves at most [N + 1] timestamps in the
    log. *)
Lemma run_call_log_bounded (c : Call) (N P : Z) (s : State) :
  1 <= N -> well_behaved c -> limiter_inv N P s -> log_bounded N (run_call w c s).
Proof.
  intros HN Hc Hinv. destruct c as [A f]. cbn [run_call well_behaved] in *.
  pose proof (kept_bounded w N P s Hinv) as Hbound.
  destruct (throttle_shape N P s HN Hinv) as (s' & t & Hrun & _ & _ & Hlim & _).
  unfold rate_limited_api_call, wrapped, bind. rewrite Hrun.
  destruct (Hc s') as (Hl & _). unfold log_bounded.
  destruct (f s') as [[a|e|] s'']; cbn [snd] in *; rewrite Hl, Hlim; cbn [calls];
    rewrite length_app; cbn [length]; lia.
Qed.

Lemma issue_log_bounded (cs : list Call) (N P : Z) (s : State) :
  1 <= N -> List.Forall well_behaved cs -> limiter_inv N P s -> log_bounded N s ->
  log_bounded N (issue w cs s).
Proof.
  intros HN Hcs. revert s.
  induction Hcs as [|c cs Hc _ IH]; intros s Hinv Hlog; cbn [issue]; [assumption|].
  apply IH.
  - destruct c as [A f]. now apply rate_limited_api_call_inv.
  - now apply run_call_log_bounded with (P := P).
Qed.

End LimiterCalls.

(** X1: the limiter's log does not grow without bound: a limiter created for
    [N] calls per period holds at most [N + 1] timestamps after any sequence
    of calls (the entries older than a period are dropped at each call; the
    one that made the caller wait is dropped at the next call only). *)
Theorem limiter_log_bounded (w : World) (N P : Z) (cs : list Call) (s : State) :
  1 <= N ->
  limiter s = RateLimiter_init N P -> stamps (trace s) = [] ->
  List.Forall well_behaved cs ->
  Z.of_nat (length (calls (limiter (issue w cs s)))) <= N + 1.
Proof.
  intros HN Hl Hs Hcs.
  apply (issue_log_bounded w cs N P s HN Hcs).
  - apply limiter_inv_fresh; [lia|exact Hl|exact Hs].
  - unfold log_bounded. rewrite Hl. cbn. lia.
Qed.

(** X2: the limiter blocks only at the limit: while fewer than [N] timestamps
    of the last period are kept, a call records its timestamp and goes on
    at once; with [N] kept it sleeps first, for the positive time after which
    the oldest kept timestamp is a full period old, and records a timestamp
    that is at least one period after that oldest one. The log never keeps
    more than [N]. *)
Theorem throttle_sleeps_only_at_limit (w : World) (N P : Z) (s : State) :
  1 <= N -> limiter_inv N P s ->
  exists t,
    fst (throttle w s) = Ok tt
    /\ reading w s <= t
    /\ ((Z.of_nat (length (kept w s)) < N
         /\ trace (snd (throttle w s)) = trace s ++ [Stamp t])
        \/ (Z.of_nat (length (kept w s)) = N
            /\ exists oldest rest,
                kept w s = oldest :: rest
                /\ 0 < P - (reading w s - oldest)
                /\ oldest + P <= t
                /\ trace (snd (throttle w s))
                   = trace s ++ [Sleep (P - (reading w s - oldest)); Stamp t])).
Proof.
  intros HN Hinv.
  destruct (throttle_shape w N P s HN Hinv) as (s' & t & Hrun & _ & Ht & _ & _ & Hshape).
  exists t. rewrite Hrun. cbn [fst snd]. auto.
Qed.

(** X3: the limiter is transparent to the call it guards: a provider call that
    goes through it gets the provider's answer back unchanged, a result or
    an exception; and the timestamp is recorded before the call is made, so
    that a call that raises counts in the window like one that returns. *)
Theorem rate_limited_api_call_transparent {A : Type} (w : World) (N P : Z) (e : Event)
    (answer : list Event -> Outcome A) (s : State) :
  1 <= N -> limiter_inv N P s ->
  let run := rate_limited_api_call w (foreign e answer) s in
  exists waits t,
    forallb is_Sleep waits = true
    /\ trace (snd run) = trace s ++ waits ++ [Stamp t; e]
    /\ fst run = answer (trace s ++ waits ++ [Stamp t])
    /\ calls (limiter (snd run)) = kept w s ++ [t]
    /\ files (snd run) = files s.
Proof.
  intros HN Hinv run. subst run.
  destruct (throttle_shape w N P s HN Hinv) as (s' & t & Hrun & _ & _ & Hlim & Hfiles & Hshape).
  unfold rate_limited_api_call, wrapped, bind. rewrite Hrun, foreign_run.
  cbn [fst snd after trace limiter files]. rewrite Hlim, Hfiles. cbn [calls].
  destruct Hshape as [(_ & Htr)|(_ & oldest & rest & _ & _ & _ & Htr)]; rewrite Htr.
  - exists [], t. cbn [app forallb]. rewrite <- !app_assoc. cbn [app].
    destruct (answer (trace s ++ [Stamp t])); auto.
  - exists [Sleep (P - (reading w s - oldest))], t. cbn [app forallb is_Sleep].
    rewrite <- !app_assoc. cbn [app].
    destruct (answer (trace s ++ [Sleep (P - (reading w s - oldest)); Stamp t])); auto.
Qed.

(** ** What a component does to the files and to the trace *)

Section Steps.

Context (w : World) (ok : Event -> bool) (R : State -> State -> Prop).

Hypothesis R_refl : forall s, R s s.
Hypothesis R_trans : forall s1 s2 s3, R s1 s2 -> R s2 s3 -> R s1 s3.
Hypothesis R_quiet : forall s s', quietly ok s s' -> R s s'.
Hypothesis calls_out : forall e, is_WriteFile e = false -> is_sync e = false -> ok e = true.

Lemma steps_ret {A} (a : A) : steps R (ret a).
Proof. intros s. apply R_refl. Qed.

Lemma steps_raise {A} (e : exn) : steps R (@raise A e).
Proof. intros s. apply R_refl. Qed.

Lemma steps_reply {A} (o : Outcome A) : steps R (reply o).
Proof. intros s. apply R_refl. Qed.

Lemma steps_out_of_fuel {A} : steps R (@out_of_fuel A).
Proof. intros s. apply R_refl. Qed.

Lemma steps_emit (e : Event) : ok e = true -> steps R (emit e).
Proof.
  intros He s. apply R_quiet. split; [reflexivity|].
  apply (extends_by_after ok s [e]). cbn. now rewrite He.
Qed.

Lemma steps_logger lvl template args : steps R (logger lvl template args).
Proof. apply steps_emit. now apply calls_out. Qed.

Lemma steps_bind {A B} (m : M A) (k : A -> M B) :
  steps R m -> (forall a, steps R (k a)) -> steps R (bind m k).
Proof.
  intros Hm Hk s. unfold bind. specialize (Hm s).
  destruct (m s) as [[a|e|] s1]; cbn [snd] in *; [|assumption|assumption].
  eapply R_trans; [exact Hm|apply Hk].
Qed.

Lemma steps_try_except {A} (m : M A) (h : exn -> M A) :
  steps R m -> (forall e, steps R (h e)) -> steps R (try_except m h).
Proof.
  intros Hm Hh s. unfold try_except. specialize (Hm s).
  destruct (m s) as [[a|e|] s1]; cbn [snd] in *; [assumption| |assumption].
  eapply R_trans; [exact Hm|apply Hh].
Qed.

Lemma steps_try_except_ValueError {A} (m : M A) (h : exn -> M A) :
  steps R m -> (forall e, steps R (h e)) -> steps R (try_except_ValueError m h).
Proof.
  intros Hm Hh s. unfold try_except_ValueError. specialize (Hm s).
  destruct (m s) as [[a|[msg|key|msg|msg|msg]|] s1]; cbn [snd] in *; try assumption.
  eapply R_trans; [exact Hm|apply Hh].
Qed.

Lemma steps_submit {A} (m : M A) : steps R m -> steps R (submit m).
Proof.
  intros Hm s. unfold submit. specialize (Hm s). now destruct (m s).
Qed.

Lemma steps_for_each {A} (l : list A) (body : A -> M unit) :
  (forall x, steps R (body x)) -> steps R (for_each l body).
Proof.
  intros Hb. induction l as [|x l IH]; cbn [for_each]; [apply steps_ret|].
  apply steps_bind; [apply Hb|intros _; exact IH].
Qed.

Lemma steps_foreign {A} (e : Event) (answer : list Event -> Outcome A) :
  ok e = true -> steps R (foreign e answer).
Proof.
  intros He s. rewrite foreign_run. cbn [snd]. apply R_quiet. split; [reflexivity|].
  apply extends_by_after. cbn. now rewrite He.
Qed.

Lemma steps_throttle : steps R (throttle w).
Proof.
  intros s. apply R_quiet. destruct (throttle_timing w s) as [Hext Hfiles].
  split; [exact Hfiles|].
  eapply extends_by_weaken; [|exact Hext].
  intros e He. apply calls_out; now destruct e.
Qed.

Lemma steps_time_sleep (d : Z) : steps R (time_sleep w d).
Proof.
  intros s. apply R_quiet. split; [reflexivity|].
  exists [Sleep d]. split; [reflexivity|]. cbn. rewrite calls_out; reflexivity.
Qed.

Lemma steps_rate_limited_api_call {A} (f : M A) :
  steps R f -> steps R (rate_limited_api_call w f).
Proof. intros Hf. apply steps_bind; [apply steps_throttle|intros _; exact Hf]. Qed.

Ltac steps_step :=
  first
    [ apply steps_ret | apply steps_raise | apply steps_reply | apply steps_out_of_fuel
    | apply steps_logger
    | apply steps_time_sleep
    | apply steps_rate_limited_api_call
    | apply steps_foreign; apply calls_out; reflexivity
    | apply steps_emit; apply calls_out; reflexivity
    | apply steps_bind; [|intros ?]
    | apply steps_try_except; [|intros ?]
    | apply steps_try_except_ValueError; [|intros ?]
    | apply steps_submit
    | match goal with
      | |- steps _ (match ?x with _ => _ end) => destruct x
      | |- steps _ (if ?b then _ else _) => destruct b
      end ].

Lemma steps_get_location_coordinates (location : Location) :
  steps R (get_location_coordinates w location).
Proof.
  unfold get_location_coordinates.
  apply steps_bind; [apply steps_logger|intros _].
  destruct location as [str|[|a [|b [|c l]]]]; repeat steps_step.
Qed.

Lemma steps_extract_email_from_website (url : string) :
  steps R (extract_email_from_website w url).
Proof. unfold extract_email_from_website. repeat steps_step. Qed.

Lemma steps_get_place_details (place_id : string) : steps R (get_place_details w place_id).
Proof.
  unfold get_place_details.
  apply steps_bind; [repeat steps_step|intros details].
  apply steps_bind; [repeat steps_step|intros info].
  apply steps_bind; [|intros email; apply steps_ret].
  destruct (website info) as [url|]; [|apply steps_ret].
  destruct (truthy url); [|apply steps_ret].
  apply steps_bind; [apply steps_logger|intros _].
  apply steps_bind; [apply steps_extract_email_from_website|intros email].
  repeat steps_step.
Qed.

Lemma steps_search_page query coords radius num_results results token :
  steps R (search_page w query coords radius num_results results token).
Proof. unfold search_page. repeat steps_step. Qed.

Lemma steps_search_loop fuel query coords radius num_results results token :
  steps R (search_loop w fuel query coords radius num_results results token).
Proof.
  revert results token. induction fuel as [|fuel IH]; intros results token;
    cbn [search_loop]; destruct (Z.of_nat (length results) <? num_results);
    try apply steps_ret; try apply steps_out_of_fuel.
  apply steps_bind; [apply steps_search_page|].
  intros [[[|] results'] token']; [apply IH|apply steps_ret].
Qed.

Lemma steps_submit_all (places : list RawPlaceRef) : steps R (submit_all w places).
Proof.
  induction places as [|place places IH]; cbn [submit_all]; [apply steps_ret|].
  apply steps_bind; [repeat steps_step|intros id].
  apply steps_bind; [apply steps_submit, steps_get_place_details|intros future].
  apply steps_bind; [exact IH|intros futures; apply steps_ret].
Qed.

Lemma steps_collect (futures : list (Outcome PlaceRecord)) (data : list PlaceRecord) :
  steps R (collect futures data).
Proof.
  revert data. induction futures as [|[record|e|] futures IH]; intros data; cbn [collect].
  - apply steps_ret.
  - apply IH.
  - apply steps_bind; [apply steps_logger|intros _; apply IH].
  - apply steps_out_of_fuel.
Qed.

Lemma steps_get_google_maps_data fuel api_key location query num_results radius :
  steps R (get_google_maps_data w fuel api_key location query num_results radius).
Proof.
  unfold get_google_maps_data.
  apply steps_bind; [apply steps_emit; now apply calls_out|intros _].
  apply steps_bind; [apply steps_reply|intros _].
  apply steps_bind; [apply steps_logger|intros _].
  apply steps_bind.
  { apply steps_try_except; [|intros e; repeat steps_step].
    apply steps_bind; [apply steps_get_location_coordinates|intros c; apply steps_ret]. }
  intros [coords|]; [|apply steps_ret].
  apply steps_bind; [apply steps_search_loop|intros results].
  apply steps_bind; [apply steps_submit_all|intros futures].
  apply steps_bind; [apply steps_collect|intros data].
  repeat steps_step.
Qed.

(** The driver, for a relation that also holds across the sync events and
    the writing of the output files. *)
Hypothesis sync_out : forall e, is_sync e = true -> ok e = true.
Hypothesis saving :
  forall data,
    steps R (save_to_file w data (OUTPUT_FILE (read_config w)) (OUTPUT_CSV (read_config w))
               (OUTPUT_JSON (read_config w))).

Lemma steps_insert_items (table_name : string) (data : list PlaceRecord) :
  steps R (insert_items w table_name data).
Proof.
  induction data as [|item rest IH]; cbn [insert_items]; [apply steps_ret|].
  apply steps_bind; [|intros _; exact IH].
  apply steps_try_except; [|intros e; apply steps_logger].
  apply steps_bind; [apply steps_foreign; now apply sync_out|].
  intros [|]; apply steps_logger.
Qed.

Lemma steps_add_to_supabase (data : list PlaceRecord) : steps R (add_to_supabase w data).
Proof.
  unfold add_to_supabase. cbv zeta.
  apply steps_bind; [apply steps_emit; now apply sync_out|intros _].
  apply steps_bind; [apply steps_reply|intros _].
  apply steps_insert_items.
Qed.

Lemma steps_main (fuel : nat) : steps R (main w fuel).
Proof.
  unfold main. cbv zeta.
  destruct (missing_config (read_config w)) as [|k l].
  2:{ apply steps_bind; [apply steps_logger|intros _].
      apply steps_for_each. intros item. apply steps_logger. }
  apply steps_bind.
  { apply steps_try_except_ValueError; [|intros e; repeat steps_step].
    unfold int_of. repeat steps_step. }
  intros [[num_results radius]|]; [|apply steps_ret].
  destruct (GOOGLE_MAPS_API_KEY (read_config w)) as [api_key|]; [|apply steps_raise].
  destruct (SEARCH_LOCATION (read_config w)) as [location|]; [|apply steps_raise].
  destruct (SEARCH_QUERY (read_config w)) as [query|]; [|apply steps_raise].
  unfold run_pipeline.
  apply steps_bind; [apply steps_logger|intros _].
  apply steps_bind.
  { apply steps_for_each. intros kv. repeat steps_step. }
  intros _. apply steps_bind; [apply steps_logger|intros _].
  apply steps_bind; [apply steps_get_google_maps_data|].
  intros [|record data]; [apply steps_logger|].
  unfold deliver.
  apply steps_bind; [apply saving|intros _].
  destruct (USE_SUPABASE (read_config w)); [|apply steps_ret].
  destruct (negb _); [apply steps_logger|apply steps_add_to_supabase].
Qed.

End Steps.

Lemma quietly_refl ok s : quietly ok s s.
Proof. split; [reflexivity|apply extends_by_refl]. Qed.

Lemma quietly_trans ok s1 s2 s3 : quietly ok s1 s2 -> quietly ok s2 s3 -> quietly ok s1 s3.
Proof.
  intros [Hf1 He1] [Hf2 He2]. split; [congruence|].
  eapply extends_by_trans; eassumption.
Qed.

Lemma fetching_calls_out (e : Event) :
  is_WriteFile e = false -> is_sync e = false -> fetching e = true.
Proof. unfold fetching. now intros -> ->. Qed.

Lemma outside_refl stem s : outside stem s s.
Proof. intros path _ _. reflexivity. Qed.

Lemma outside_trans stem s1 s2 s3 : outside stem s1 s2 -> outside stem s2 s3 -> outside stem s1 s3.
Proof. intros H1 H2 path Hc Hj. rewrite H2, H1 by assumption. reflexivity. Qed.

Lemma outside_quiet stem s s' : quietly (fun _ => true) s s' -> outside stem s s'.
Proof. intros [Hf _] path _ _. now rewrite Hf. Qed.

Lemma get_google_maps_data_quietly (w : World) (fuel : nat) (api_key : string)
    (location : Location) (query : string) (num_results radius : Z) (s : State) :
  quietly fetching s
    (snd (get_google_maps_data w fuel api_key location query num_results radius s)).
Proof.
  apply (steps_get_google_maps_data w fetching (quietly fetching)
           (quietly_refl fetching) (quietly_trans fetching) (fun s s' H => H)
           fetching_calls_out).
Qed.

Lemma fetching_filter (q : Event -> bool) (s s' : State) :
  (forall e, q e = true -> is_WriteFile e || is_sync e = true) ->
  extends_by fetching s s' ->
  List.filter q (trace s') = List.filter q (trace s).
Proof.
  intros Hq Hext. apply extends_by_filter with (p := fetching); [|exact Hext].
  intros e He. unfold fetching in He. destruct (q e) eqn:Hqe; [|reflexivity].
  apply Hq in Hqe. destruct (is_WriteFile e), (is_sync e); discriminate.
Qed.

(** X10: the orchestrator only fetches: whatever the provider and the pages
    answer, and whether it returns or raises, it leaves every file as it was
    and adds no write and no sync event to the trace. *)
Theorem get_google_maps_data_only_fetches (w : World) (fuel : nat) (api_key : string)
    (location : Location) (query : string) (num_results radius : Z) (s : State) :
  let s' := snd (get_google_maps_data w fuel api_key location query num_results radius s) in
  files s' = files s
  /\ List.filter is_WriteFile (trace s') = List.filter is_WriteFile (trace s)
  /\ List.filter is_sync (trace s') = List.filter is_sync (trace s).
Proof.
  cbv zeta.
  destruct (get_google_maps_data_quietly w fuel api_key location query num_results radius s)
    as [Hfiles Hext].
  split; [exact Hfiles|]. split.
  - apply fetching_filter; [|exact Hext]. intros e ->. reflexivity.
  - apply fetching_filter; [|exact Hext]. intros e ->. apply orb_true_r.
Qed.

(** X16: the driver touches no file but its two output files: whatever the
    environment and the world, and however the run ends, a path other than
    [<OUTPUT_FILE>.csv] and [<OUTPUT_FILE>.json] holds after the run what it
    held before. *)
Theorem main_touches_only_output_files (w : World) (fuel : nat) (s : State)
    (path : string) :
  path <> (OUTPUT_FILE (read_config w) ++ ".csv")%string ->
  path <> (OUTPUT_FILE (read_config w) ++ ".json")%string ->
  files (snd (main w fuel s)) !! path = files s !! path.
Proof.
  intros Hc Hj.
  apply (steps_main w (fun _ => true) (outside (OUTPUT_FILE (read_config w)))
           (outside_refl _) (outside_trans _) (outside_quiet _)
           (fun _ _ _ => eq_refl) (fun _ _ => eq_refl)); [|exact Hc|exact Hj].
  intros data s0. apply save_to_file_outside.
Qed.

(** ** Outcomes of the orchestrator's steps *)

Lemma after_nil (s : State) : after s [] = s.
Proof. destruct s. unfold after. cbn. now rewrite app_nil_r. Qed.

Lemma try_bind_run {A B} (m : M A) (k : A -> M B) (h : exn -> M B) (s : State) :
  try_except (bind m k) h s
  = match m s with
    | (Ok a, s') => try_except (k a) h s'
    | (Raise e, s') => h e s'
    | (OutOfFuel, s') => (OutOfFuel, s')
    end.
Proof. unfold try_except, bind. destruct (m s) as [[a|e|] s']; reflexivity. Qed.

Lemma bind_reply {A B} (o : Outcome A) (k : A -> M B) (s : State) :
  bind (reply o) k s
  = match o with
    | Ok a => k a s
    | Raise e => (Raise e, s)
    | OutOfFuel => (OutOfFuel, s)
    end.
Proof. unfold bind, reply. destruct o; reflexivity. Qed.

Lemma raises_bind {A B} (m : M A) (k : A -> M B) (s : State) :
  raises (fst (m s)) = false ->
  (forall a s', m s = (Ok a, s') -> raises (fst (k a s')) = false) ->
  raises (fst (bind m k s)) = false.
Proof.
  intros Hm Hk. unfold bind. destruct (m s) as [[a|e|] s'] eqn:Hrun; cbn [fst raises] in *.
  - now apply Hk.
  - discriminate Hm.
  - reflexivity.
Qed.

Lemma forallb_firstn {A} (p : A -> bool) (n : nat) (l : list A) :
  forallb p l = true -> forallb p (firstn n l) = true.
Proof.
  revert l. induction n as [|n IH]; intros [|x l] H; cbn in *; try reflexivity.
  apply andb_prop in H. destruct H as [Hx Hl]. rewrite Hx. now apply IH.
Qed.

Lemma forallb_slice_to {A} (p : A -> bool) (l : list A) (n : Z) :
  forallb p l = true -> forallb p (slice_to l n) = true.
Proof. intros H. unfold slice_to. destruct (0 <=? n); now apply forallb_firstn. Qed.

Section Ranking.

Context {A : Type} (rank : nat -> nat).

Lemma insert_by_rank_perm (x : nat * A) (l : list (nat * A)) :
  Permutation (insert_by_rank rank x l) (x :: l).
Proof.
  induction l as [|y l IH]; cbn [insert_by_rank]; [reflexivity|].
  destruct (rank (fst x) <=? rank (fst y))%nat; [reflexivity|].
  rewrite IH. apply perm_swap.
Qed.

Lemma by_rank_perm (l : list (nat * A)) : Permutation (by_rank rank l) l.
Proof.
  induction l as [|x l IH]; cbn; [reflexivity|].
  unfold by_rank in IH. rewrite insert_by_rank_perm. now constructor.
Qed.

Lemma indexed_snd (i : nat) (l : list A) : map snd (indexed i l) = l.
Proof. revert i. induction l as [|x l IH]; intros i; cbn; [reflexivity|now rewrite IH]. Qed.

End Ranking.

Lemma filter_length_perm {A} (p : A -> bool) (l l' : list A) :
  Permutation l l' -> length (List.filter p l) = length (List.filter p l').
Proof.
  induction 1 as [|x l l' _ IH|x y l|l1 l2 l3 _ IH1 _ IH2]; cbn [List.filter].
  - reflexivity.
  - destruct (p x); cbn [length]; now rewrite IH.
  - destruct (p x), (p y); reflexivity.
  - congruence.
Qed.

Lemma successes_failed_length (futures : list (Outcome PlaceRecord)) :
  forallb settled futures = true ->
  (length (successes futures) + length (List.filter failed futures) = length futures)%nat.
Proof.
  unfold successes.
  induction futures as [|[record|e|] futures IH]; cbn; intros H; try discriminate;
    try specialize (IH H); lia.
Qed.

Lemma failure_lines_length (futures : list (Outcome PlaceRecord)) :
  length (failure_lines futures) = length (List.filter failed futures).
Proof.
  unfold failure_lines.
  induction futures as [|[record|e|] futures IH]; cbn; try rewrite IH; reflexivity.
Qed.

Section Outcomes.

Context (w : World).

Lemma as_completed_perm {A} (futures : list A) : Permutation (as_completed w futures) futures.
Proof.
  unfold as_completed. rewrite by_rank_perm. now rewrite indexed_snd.
Qed.

(** An answer that comes back through the limiter is one the provider
    gave. *)
Lemma rate_limited_foreign_answer {A} (e : Event) (answer : list Event -> Outcome A)
    (s s' : State) (a : A) :
  rate_limited_api_call w (foreign e answer) s = (Ok a, s') -> exists h, answer h = Ok a.
Proof.
  unfold rate_limited_api_call, wrapped, bind.
  destruct (throttle w s) as [[[]|e0|] s1]; try discriminate.
  rewrite foreign_run. intros H. exists (trace s1). congruence.
Qed.

(** One turn of the search loop never raises, and what it adds to the
    results is a page the provider returned. *)
Lemma search_page_outcome query coords radius num_results results token (s : State) :
  match fst (search_page w query coords radius num_results results token s) with
  | Ok (_, results', _) =>
      results' = results
      \/ exists h token0 response page,
          gmaps_places w h query coords radius token0 = Ok response
          /\ places_results response = Some page
          /\ results' = results ++ page
  | Raise _ => False
  | OutOfFuel => True
  end.
Proof.
  unfold search_page. rewrite try_except_logger.
  match goal with |- context [after s ?evs] => generalize (after s evs) end.
  intros s1.
  assert (Hturn : forall token0 s0,
    match fst (try_except
      (bind (rate_limited_api_call w
               (foreign (Places query coords radius token0)
                  (fun h => gmaps_places w h query coords radius token0)))
         (fun places =>
            page <- (match places_results places with
                     | Some page => ret page
                     | None => raise (KeyError "results")
                     end) ;;
            let results := results ++ page in
            let next_page_token := places_next_page_token places in
            logger INFO "Fetched {len(results)} results so far"
                   [AInt (Z.of_nat (length results))] ;;;
            if negb (truthy_opt next_page_token) then
              logger DEBUG "No more pages available" [] ;;;
              ret (false, results, next_page_token)
            else ret (true, results, next_page_token))%py)
      (fun e =>
         logger ERROR "Error fetching places: {e}" [AExn e] ;;;
         ret (false, results, token))%py s0) with
    | Ok (_, results', _) =>
        results' = results
        \/ exists h token0 response page,
            gmaps_places w h query coords radius token0 = Ok response
            /\ places_results response = Some page
            /\ results' = results ++ page
    | Raise _ => False
    | OutOfFuel => True
    end).
  { intros token0 s0. rewrite try_bind_run.
    destruct (rate_limited_api_call w _ s0) as [[places|e|] s2] eqn:Hcall.
    - apply rate_limited_foreign_answer in Hcall. destruct Hcall as [h Hanswer].
      rewrite try_bind_run.
      destruct (places_results places) as [page|] eqn:Hpage; unfold ret, raise; cbv beta iota.
      + cbv zeta. rewrite try_except_logger.
        destruct (negb (truthy_opt (places_next_page_token places)));
          [rewrite try_except_logger|]; unfold try_except, ret; cbn [fst];
          right; exists h, token0, places, page; auto.
      + rewrite bind_logger. unfold ret. cbn [fst]. now left.
    - rewrite bind_logger. unfold ret. cbn [fst]. now left.
    - exact I. }
  destruct (truthy_opt token).
  - rewrite try_except_sleep. apply Hturn.
  - apply Hturn.
Qed.

(** The search loop never raises, and a property of the results that every
    page of the provider keeps holds of what the loop returns. *)
Lemma search_loop_inv (Q : list RawPlaceRef -> Prop) fuel query coords radius num_results :
  (forall results h token0 response page,
      Q results ->
      gmaps_places w h query coords radius token0 = Ok response ->
      places_results response = Some page ->
      Q (results ++ page)) ->
  forall results token s,
    Q results ->
    match fst (search_loop w fuel query coords radius num_results results token s) with
    | Ok results' => Q results'
    | Raise _ => False
    | OutOfFuel => True
    end.
Proof.
  intros HQ. induction fuel as [|fuel IH]; intros results token s Hres; cbn [search_loop];
    destruct (Z.of_nat (length results) <? num_results); cbn; auto.
  unfold bind.
  pose proof (search_page_outcome query coords radius num_results results token s) as Hp.
  destruct (search_page w query coords radius num_results results token s)
    as [[[[b results'] token']|e|] s1]; cbn [fst] in Hp; [|contradiction|exact I].
  assert (Hres' : Q results').
  { destruct Hp as [->|(h & token0 & response & page & Hanswer & Hpage & ->)]; eauto. }
  destruct b; [now apply IH|exact Hres'].
Qed.

(** Submitting the detail tasks: every place needs its identifier. *)
Lemma submit_all_outcome (places : list RawPlaceRef) (s : State) :
  if forallb has_place_id places
  then exists futures s', submit_all w places s = (Ok futures, s')
  else fst (submit_all w places s) = Raise (KeyError "place_id").
Proof.
  revert s. induction places as [|place places IH]; intros s; cbn [submit_all forallb].
  - eexists _, _. reflexivity.
  - unfold has_place_id at 1. destruct (place_id place) as [id|]; cbn [andb].
    + rewrite bind_ret. unfold bind, submit, ret.
      destruct (get_place_details w id s) as [future s1].
      specialize (IH s1). destruct (forallb has_place_id places).
      * destruct IH as (futures & s' & Hrun). rewrite Hrun. eexists _, _. reflexivity.
      * destruct (submit_all w places s1) as [[futures|e|] s2]; cbn [fst] in *;
          congruence.
    + reflexivity.
Qed.

(** Collecting the futures that completed: the records in the order of
    the futures, one error line per failed future. *)
Lemma collect_run (futures : list (Outcome PlaceRecord)) (data : list PlaceRecord)
    (s : State) :
  forallb settled futures = true ->
  collect futures data s = (Ok (data ++ successes futures), after s (failure_lines futures)).
Proof.
  revert data s. induction futures as [|[record|e|] futures IH]; intros data s H;
    cbn [collect forallb settled andb] in *.
  - cbn. now rewrite app_nil_r, after_nil.
  - rewrite IH by exact H. cbn [successes failure_lines flat_map app].
    now rewrite <- app_assoc.
  - rewrite bind_logger, IH by exact H. rewrite after_after. reflexivity.
  - discriminate H.
Qed.

Lemma collect_never_raises (futures : list (Outcome PlaceRecord)) (data : list PlaceRecord)
    (s : State) :
  raises (fst (collect futures data s)) = false.
Proof.
  revert data s. induction futures as [|[record|e|] futures IH]; intros data s;
    cbn [collect]; try reflexivity.
  - apply IH.
  - rewrite bind_logger. apply IH.
Qed.

(** The location step of the orchestrator catches whatever the resolution
    raises. *)
Lemma coords_step_never_raises (location : Location) (s : State) :
  raises (fst (try_except
                 (c <- get_location_coordinates w location ;; ret (Some c))
                 (fun e =>
                    logger ERROR "Failed to get coordinates for location {location}: {e}"
                           [ALoc location; AExn e] ;;;
                    ret None) s)) = false.
Proof.
  rewrite try_bind_run.
  destruct (get_location_coordinates w location s) as [[c|e|] s1]; reflexivity.
Qed.

Lemma get_google_maps_data_client_failure fuel api_key location query num_results radius
    (s : State) (e : exn) :
  googlemaps_Client w api_key = Raise e ->
  get_google_maps_data w fuel api_key location query num_results radius s
  = (Raise e, after s [ClientInit api_key]).
Proof.
  intros Hclient. unfold get_google_maps_data.
  rewrite bind_emit, bind_reply, Hclient. reflexivity.
Qed.

End Outcomes.

(** X7: the detail tasks need the identifier of every place: with all
    identifiers there is one future per place, whatever the tasks do; a place
    without ['place_id'] makes the submission raise [KeyError]; and no [try]
    of the orchestrator is around the submission: a run of the orchestrator
    whose client was created, whose location step gave coordinates and whose
    search came back in state [s] with [places] kept raises that [KeyError]
    itself. *)
Theorem submit_all_needs_place_ids (w : World) (places : list RawPlaceRef) (s : State) :
  (forallb has_place_id places = true ->
   exists futures s',
     submit_all w places s = (Ok futures, s') /\ length futures = length places)
  /\ (forallb has_place_id places = false ->
      fst (submit_all w places s) = Raise (KeyError "place_id"))
  /\ (forall fuel api_key location query num_results radius s0 coords s1 found,
         googlemaps_Client w api_key = Ok tt ->
         get_location_coordinates w location
           (after s0 [ClientInit api_key;
                      Log INFO "Fetching data for query: {query} in location: {location}"
                        [AStr query; ALoc location]])
         = (Ok coords, s1) ->
         search_loop w fuel query coords radius num_results [] None s1 = (Ok found, s) ->
         slice_to found num_results = places ->
         forallb has_place_id places = false ->
         fst (get_google_maps_data w fuel api_key location query num_results radius s0)
         = Raise (KeyError "place_id")).
Proof.
  pose proof (submit_all_outcome w places s) as H.
  split; [|split].
  - intros Hids. rewrite Hids in H.
    destruct H as (futures & s' & Hrun). exists futures, s'. split; [exact Hrun|].
    eapply submit_all_length. exact Hrun.
  - intros Hids. now rewrite Hids in H.
  - intros fuel api_key location query num_results radius s0 coords s1 found
           Hclient Hloc Hsearch Hslice Hids.
    rewrite Hids in H. unfold get_google_maps_data.
    rewrite bind_emit, bind_reply, Hclient, bind_logger, after_after. cbn [app].
    unfold bind at 1. rewrite try_bind_run, Hloc. unfold try_except, ret at 1.
    unfold bind at 1. rewrite Hsearch. cbv zeta. rewrite Hslice.
    unfold bind at 1.
    destruct (submit_all w places s) as [[futures|e|] s3]; cbn [fst] in *; congruence.
Qed.

(** X8: collecting the completed futures: the records returned are those of
    the futures that gave a result, each once, in the order of completion;
    a future that raised gives no record and one error line, and stops
    nothing: records and failures add up to the number of futures. *)
Theorem collect_keeps_every_result (w : World) (futures : list (Outcome PlaceRecord))
    (s : State) :
  forallb settled futures = true ->
  let completed := as_completed w futures in
  collect completed [] s = (Ok (successes completed), after s (failure_lines completed))
  /\ Permutation (successes completed) (successes futures)
  /\ (length (successes completed) + length (List.filter failed futures)
      = length futures)%nat
  /\ length (failure_lines completed) = length (List.filter failed futures).
Proof.
  intros Hsettled completed. subst completed.
  pose proof (as_completed_perm w futures) as Hperm.
  assert (Hsettled' : forallb settled (as_completed w futures) = true).
  { apply forallb_forall. intros f Hf. rewrite forallb_forall in Hsettled.
    apply Hsettled. eapply Permutation_in; eassumption. }
  split; [now rewrite collect_run|].
  assert (Hdata : Permutation (successes (as_completed w futures)) (successes futures)).
  { unfold successes. now apply Permutation_flat_map. }
  split; [exact Hdata|].
  split.
  - rewrite (Permutation_length Hdata). now apply successes_failed_length.
  - rewrite failure_lines_length. now apply filter_length_perm.
Qed.

(** X9: no exception leaves the orchestrator once the client is created and
    the search results carry their identifiers: a failure of the location
    step, of a search call or of a detail task is logged where it
    happens. *)
Theorem get_google_maps_data_never_raises (w : World) (fuel : nat) (api_key : string)
    (location : Location) (query : string) (num_results radius : Z) (s : State) :
  raises (googlemaps_Client w api_key) = false ->
  provider_results_have_ids w ->
  raises (fst (get_google_maps_data w fuel api_key location query num_results radius s))
  = false.
Proof.
  intros Hclient Hids. unfold get_google_maps_data.
  rewrite bind_emit, bind_reply.
  destruct (googlemaps_Client w api_key) as [[]|e|]; [|discriminate Hclient|reflexivity].
  rewrite bind_logger.
  apply raises_bind; [apply coords_step_never_raises|].
  intros [coords|] s1 _; [|reflexivity].
  assert (Hloop : forall s0,
             match fst (search_loop w fuel query coords radius num_results [] None s0) with
             | Ok results => forallb has_place_id results = true
             | Raise _ => False
             | OutOfFuel => True
             end).
  { intros s0.
    apply (search_loop_inv w (fun results => forallb has_place_id results = true)); [|reflexivity].
    intros results h token0 response page Hres Hanswer Hpage.
    rewrite forallb_app, Hres. cbn [andb]. eapply Hids; eassumption. }
  apply raises_bind.
  { specialize (Hloop s1).
    destruct (fst (search_loop w fuel query coords radius num_results [] None s1));
      [reflexivity|contradiction|reflexivity]. }
  intros results s2 Hsearch.
  assert (Hres : forallb has_place_id results = true).
  { specialize (Hloop s1). now rewrite Hsearch in Hloop. }
  cbv zeta. apply raises_bind.
  { pose proof (submit_all_outcome w (slice_to results num_results) s2) as Hsubmit.
    rewrite forallb_slice_to in Hsubmit by exact Hres.
    destruct Hsubmit as (futures & s3 & Hrun). now rewrite Hrun. }
  intros futures s3 _. apply raises_bind; [apply collect_never_raises|].
  intros data s4 _. reflexivity.
Qed.

(** ** The result cap, and where the truncation happens *)

Lemma bind_cases {A B} (m : M A) (k : A -> M B) (s : State) :
  bind m k s
  = match m s with
    | (Ok a, s') => k a s'
    | (Raise e, s') => (Raise e, s')
    | (OutOfFuel, s') => (OutOfFuel, s')
    end.
Proof. reflexivity. Qed.

Lemma not_Place_through : lets_through not_Place.
Proof. intros e He. now destruct e. Qed.

Lemma detail_calls_extends (s s' : State) :
  extends_by not_Place s s' -> detail_calls s' = detail_calls s.
Proof.
  intros H. unfold detail_calls. f_equal.
  apply extends_by_filter with (p := not_Place); [|exact H].
  intros e He. unfold not_Place in He. now destruct (is_Place e).
Qed.

Lemma detail_calls_timing (s s' : State) :
  extends_by is_timing s s' -> detail_calls s' = detail_calls s.
Proof.
  intros H. unfold detail_calls. f_equal.
  apply extends_by_filter with (p := is_timing); [|exact H].
  intros e He. now destruct e.
Qed.

Lemma detail_calls_after (s : State) (evs : list Event) :
  detail_calls (after s evs) = (detail_calls s + length (List.filter is_Place evs))%nat.
Proof. unfold detail_calls. cbn [after trace]. now rewrite List.filter_app, length_app. Qed.

Lemma successes_cons (f : Outcome PlaceRecord) (futures : list (Outcome PlaceRecord)) :
  length (successes (f :: futures))
  = ((match f with Ok _ => 1 | _ => 0 end) + length (successes futures))%nat.
Proof. unfold successes. cbn [flat_map]. rewrite length_app. now destruct f. Qed.

Section Truncation.

Context (w : World).

Lemma emits_not_Place_location (location : Location) :
  emits not_Place (get_location_coordinates w location).
Proof.
  pose proof not_Place_through as through. unfold get_location_coordinates.
  apply emits_bind; [apply emits_logger; exact through|intros _].
  destruct location as [str|[|a [|b [|c l]]]]; repeat emits_step through.
Qed.

Lemma emits_not_Place_search_page query coords radius num_results results token :
  emits not_Place (search_page w query coords radius num_results results token).
Proof.
  pose proof not_Place_through as through. unfold search_page.
  apply emits_try_except; [|intros e; repeat emits_step through].
  apply emits_bind; [apply emits_logger; exact through|intros _].
  apply emits_bind; [|intros places; cbv zeta; repeat emits_step through].
  destruct (truthy_opt token).
  - apply emits_bind; [apply emits_time_sleep; exact through|intros _].
    apply emits_rate_limited_api_call; [exact through|]. apply emits_foreign. reflexivity.
  - apply emits_rate_limited_api_call; [exact through|]. apply emits_foreign. reflexivity.
Qed.

Lemma emits_not_Place_search_loop fuel query coords radius num_results results token :
  emits not_Place (search_loop w fuel query coords radius num_results results token).
Proof.
  revert results token. induction fuel as [|fuel IH]; intros results token;
    cbn [search_loop]; destruct (Z.of_nat (length results) <? num_results);
    try apply emits_ret; try apply emits_out_of_fuel.
  apply emits_bind; [apply emits_not_Place_search_page|].
  intros [[[|] results'] token']; [apply IH|apply emits_ret].
Qed.

(** A detail task makes at most one detail call, and exactly one when it
    gives a record. *)
Lemma get_place_details_calls (place_id : string) (s : State) :
  exists k : nat,
    detail_calls (snd (get_place_details w place_id s)) = (detail_calls s + k)%nat
    /\ (k <= 1)%nat
    /\ (forall record, fst (get_place_details w place_id s) = Ok record -> k = 1%nat).
Proof.
  pose proof not_Place_through as through.
  pose proof (throttle_timing w s) as [Hext _].
  apply detail_calls_timing in Hext.
  unfold get_place_details, rate_limited_api_call, wrapped.
  rewrite bind_assoc, bind_cases.
  destruct (throttle w s) as [[[]|e|] s1]; cbn [snd] in Hext.
  - rewrite bind_cases, foreign_run.
    assert (Hcall : detail_calls (after s1 [Place place_id]) = (detail_calls s + 1)%nat).
    { rewrite detail_calls_after, Hext. reflexivity. }
    destruct (gmaps_place w (trace s1) place_id) as [details|e|].
    + match goal with
      | |- context [snd (?m (after s1 ?evs))] => assert (Hm : emits not_Place m)
      end.
      { unfold extract_email_from_website. repeat emits_step through. }
      exists 1%nat. split; [|split; [lia|reflexivity]].
      rewrite (detail_calls_extends _ _ (Hm _)). exact Hcall.
    + exists 1%nat. cbn [fst snd]. split; [exact Hcall|]. split; [lia|discriminate].
    + exists 1%nat. cbn [fst snd]. split; [exact Hcall|]. split; [lia|discriminate].
  - exists 0%nat. cbn [fst snd]. split; [lia|]. split; [lia|discriminate].
  - exists 0%nat. cbn [fst snd]. split; [lia|]. split; [lia|discriminate].
Qed.

(** The submission makes at most one detail call per place, and at least
    one per future that gives a record. *)
Lemma submit_all_calls (places : list RawPlaceRef) (s s' : State)
    (futures : list (Outcome PlaceRecord)) :
  submit_all w places s = (Ok futures, s') ->
  exists k : nat,
    detail_calls s' = (detail_calls s + k)%nat
    /\ (length (successes futures) <= k)%nat
    /\ (k <= length places)%nat.
Proof.
  revert s s' futures. induction places as [|place places IH]; intros s s' futures H.
  - inversion H; subst. exists 0%nat. cbn. repeat split; lia.
  - cbn [submit_all] in H.
    bind_inv H as id s1 Hid. bind_inv H as future s2 Hfut. bind_inv H as rest s3 Hrest.
    inversion H; subst futures s'. clear H.
    assert (Hs1 : s1 = s) by (destruct (place_id place); inversion Hid; reflexivity).
    subst s1. unfold submit in Hfut.
    destruct (get_place_details_calls id s) as (k1 & Hk1 & Hle & Hok).
    destruct (get_place_details w id s) as [r s2'] eqn:Hdetails.
    inversion Hfut; subst future s2'. clear Hfut. cbn [fst snd] in Hk1, Hok.
    destruct (IH _ _ _ Hrest) as (k2 & Hk2 & Hsucc & Hlen).
    exists (k1 + k2)%nat. rewrite successes_cons. cbn [length].
    split; [lia|]. split; [|lia].
    destruct r as [record|e|]; [rewrite (Hok record eq_refl)|..]; lia.
Qed.

(** Collecting adds one record per future that gave one, and makes no
    detail call. *)
Lemma collect_records (futures : list (Outcome PlaceRecord)) (data data' : list PlaceRecord)
    (s s' : State) :
  collect futures data s = (Ok data', s') ->
  length data' = (length data + length (successes futures))%nat
  /\ detail_calls s' = detail_calls s.
Proof.
  revert data s. induction futures as [|[record|e|] futures IH]; intros data s H;
    cbn [collect] in H; rewrite ?successes_cons.
  - inversion H; subst. cbn. split; [lia|reflexivity].
  - apply IH in H. rewrite length_app in H. cbn [length] in H. destruct H. split; [lia|assumption].
  - rewrite bind_logger in H. apply IH in H. rewrite detail_calls_after in H. cbn in H.
    destruct H. split; lia.
  - discriminate H.
Qed.

End Truncation.

(** C2 (as amended): whatever pages the provider returns, the search
    results are cut to the cap before the enrichment: between the start and
    the end of the orchestrator at most [max 0 N] detail calls are made, and
    there are at most as many records as detail calls, since a detail task
    gives one record or none.  Hence at most [N] records for a cap [N >= 0];
    for a negative cap nothing is searched and the list is empty, which is
    more than [N] elements. *)
Theorem result_count_at_most_cap (w : World) (fuel : nat) (api_key : string)
    (location : Location) (query : string) (num_results radius : Z)
    (s s' : State) (data : list PlaceRecord) :
  get_google_maps_data w fuel api_key location query num_results radius s = (Ok data, s') ->
  (exists k : nat,
      detail_calls s' = (detail_calls s + k)%nat
      /\ (length data <= k)%nat
      /\ Z.of_nat k <= Z.max 0 num_results)
  /\ (0 <= num_results -> Z.of_nat (length data) <= num_results)
  /\ (num_results < 0 -> data = []).
Proof.
  intros H.
  assert (Hcalls : exists k : nat,
             detail_calls s' = (detail_calls s + k)%nat
             /\ (length data <= k)%nat
             /\ Z.of_nat k <= Z.max 0 num_results).
  { unfold get_google_maps_data in H.
    pose proof not_Place_through as through.
    rewrite bind_emit in H. bind_inv H as u2 s2 H2. rewrite bind_logger in H.
    unfold reply in H2. inversion H2; subst s2. clear H2.
    rewrite after_after in H. cbn [app] in H.
    bind_inv H as coords s4 Hcoords.
    assert (Hs4 : detail_calls s4 = detail_calls s).
    { match type of Hcoords with
      | ?m ?s3 = _ =>
          assert (Hm : emits not_Place m);
          [|specialize (Hm s3); rewrite Hcoords in Hm; cbn [snd] in Hm;
            rewrite (detail_calls_extends _ _ Hm), detail_calls_after; cbn; lia]
      end.
      apply emits_try_except; [|intros e; repeat emits_step through].
      apply emits_bind; [apply emits_not_Place_location|intros c; apply emits_ret]. }
    destruct coords as [location_coords|].
    - bind_inv H as found s5 Hsearch.
      bind_inv H as futures s6 Hsubmit.
      bind_inv H as collected s7 Hcollect.
      rewrite bind_logger in H. inversion H; subst data s'. clear H.
      assert (Hs5 : detail_calls s5 = detail_calls s4).
      { pose proof (emits_not_Place_search_loop w fuel query location_coords radius
                      num_results [] None s4) as Hm.
        rewrite Hsearch in Hm. now apply detail_calls_extends. }
      destruct (submit_all_calls w _ _ _ _ Hsubmit) as (k & Hk & Hsucc & Hlen).
      destruct (collect_records _ _ _ _ _ Hcollect) as (Hdata & Hs7).
      assert (Hperm : length (successes (as_completed w futures)) = length (successes futures)).
      { apply Permutation_length. unfold successes. apply Permutation_flat_map.
        apply as_completed_perm. }
      exists k. rewrite detail_calls_after. cbn [List.filter is_Place length].
      split; [lia|]. split; [cbn [length] in Hdata; lia|].
      destruct (Z_le_gt_dec 0 num_results) as [HN|HN].
      + pose proof (slice_to_length found num_results HN). lia.
      + rewrite search_loop_no_turn in Hsearch by lia. inversion Hsearch; subst found s5.
        replace (slice_to [] num_results) with (@nil RawPlaceRef) in Hlen
          by (unfold slice_to; destruct (0 <=? num_results); now rewrite firstn_nil).
        cbn [length] in Hlen. lia.
    - inversion H; subst data s'. exists 0%nat. cbn [length]. split; [lia|]. split; lia. }
  split; [exact Hcalls|].
  destruct Hcalls as (k & _ & Hdata & Hk). split.
  - intros HN. lia.
  - intros HN. destruct data; [reflexivity|]. cbn [length] in Hdata. lia.
Qed.

(** The sample run, with a cap of fifty. *)
Lemma result_count_at_most_cap_witness :
  (exists k : nat,
      detail_calls (snd sample_run) = (detail_calls initial_state + k)%nat
      /\ (length (records_of (fst sample_run)) <= k)%nat
      /\ Z.of_nat k <= Z.max 0 50)
  /\ (0 <= 50 -> Z.of_nat (length (records_of (fst sample_run))) <= 50)
  /\ (50 < 0 -> records_of (fst sample_run) = []).
Proof.
  apply (result_count_at_most_cap sample_world 3 "AIza-sample" (LocStr "40.0,-73.0")
           "coffee" 50 50000 initial_state (snd sample_run)).
  vm_compute. reflexivity.
Defined.

(** In that run three pages give sixty results; fifty detail calls are
    made, for the first fifty of them, and fifty records come back. *)
Example sample_run_truncates_before_enrichment :
  detail_calls (snd sample_run) = 50%nat
  /\ length (records_of (fst sample_run)) = 50%nat
  /\ List.filter is_Place (trace (snd sample_run))
     = map (fun i => Place ("place" ++ str_int (Z.of_nat i))%string) (seq 0 50).
Proof. vm_compute. repeat split. Qed.

(** C2 fails as stated for a negative cap: NUM_RESULTS=-1 is an integer for
    the driver, the orchestrator returns the empty list, and its length, 0,
    is not at most -1. *)
Lemma negative_cap_breaks_bound :
  parse_int "-1" = Some (-1)
  /\ fst (get_google_maps_data sample_world 3 "AIza-sample" (LocStr "40.0,-73.0") "coffee"
            (-1) 50000 initial_state) = Ok []
  /\ (Z.of_nat (length (records_of
                          (fst (get_google_maps_data sample_world 3 "AIza-sample"
                                  (LocStr "40.0,-73.0") "coffee" (-1) 50000 initial_state))))
      <=? -1) = false.
Proof. vm_compute. repeat split. Qed.

(** ** Failures that are passed on *)

(** X5: the enricher has no handler of its own around the provider call: an
    exception of the provider leaves it unchanged, and a response without
    ['result'] makes it raise [KeyError]; in both cases right after the
    call, so that no page is requested and nothing is logged. *)
Theorem get_place_details_passes_failures_on (w : World) (place_id : string) (s : State) :
  ready s ->
  let run := get_place_details w place_id s in
  exists waits,
    forallb is_timing waits = true
    /\ (forall e,
           gmaps_place w (trace s ++ waits) place_id = Raise e ->
           fst run = Raise e /\ trace (snd run) = trace s ++ waits ++ [Place place_id])
    /\ (forall response,
           gmaps_place w (trace s ++ waits) place_id = Ok response ->
           result response = None ->
           fst run = Raise (KeyError "result")
           /\ trace (snd run) = trace s ++ waits ++ [Place place_id]).
Proof.
  intros Hr run. subst run.
  destruct (rate_limited_api_call_run w
              (foreign (Place place_id) (fun h => gmaps_place w h place_id)) s Hr)
    as (s1 & waits & Hcall & _ & _ & Htr & Hwaits).
  exists waits. split; [exact Hwaits|].
  unfold get_place_details, bind. rewrite Hcall, foreign_run, Htr.
  split.
  - intros e He. rewrite He. cbn [fst snd after trace]. rewrite Htr, <- ?app_assoc. auto.
  - intros response Hresponse Hnone. rewrite Hresponse, Hnone.
    cbn [fst snd after trace raise]. rewrite Htr, <- ?app_assoc. auto.
Qed.

(** X6: what the resolution step gives for a location that is not a pair, by
    the geocoder's answer: the coordinates of the first match, whatever
    follows it; [ValueError] with the location in its message for an empty
    answer; the geocoder's own exception, unchanged.  The two failures are
    logged once here and raised again. *)
Theorem get_location_coordinates_by_answer (w : World) (location : Location) (s : State) :
  ready s -> is_pair location = false ->
  let run := get_location_coordinates w location s in
  let unable := ValueError ("Unable to geocode location: " ++ str_Location location)%string in
  exists h,
    (exists waits,
        forallb is_timing waits = true
        /\ h = trace s
               ++ Log DEBUG "Attempting to get coordinates for location: {location}"
                    [ALoc location] :: waits)
    /\ (forall m rest,
           gmaps_geocode w h location = Ok (m :: rest) ->
           fst run = Ok (lat m, lng m)
           /\ trace (snd run)
              = h ++ [Geocode location;
                      Log DEBUG "Geocoded {location} to coordinates: ({lat}, {lng})"
                        [ALoc location; ANum (lat m); ANum (lng m)]])
    /\ (gmaps_geocode w h location = Ok [] ->
        fst run = Raise unable
        /\ trace (snd run)
           = h ++ [Geocode location;
                   Log ERROR "Error geocoding location {location}: {e}"
                     [ALoc location; AExn unable]])
    /\ (forall e,
           gmaps_geocode w h location = Raise e ->
           fst run = Raise e
           /\ trace (snd run)
              = h ++ [Geocode location;
                      Log ERROR "Error geocoding location {location}: {e}"
                        [ALoc location; AExn e]]).
Proof.
  intros Hr Hp run unable. subst run unable.
  rewrite get_location_coordinates_else by exact Hp.
  set (log1 := Log DEBUG "Attempting to get coordinates for location: {location}" [ALoc location]).
  destruct (rate_limited_api_call_run w
              (foreign (Geocode location) (fun h => gmaps_geocode w h location))
              (after s [log1])) as (s1 & waits & Hcall & _ & _ & Htr & Hwaits).
  { now apply ready_after. }
  cbn [after trace] in Htr. rewrite <- app_assoc in Htr. cbn [app] in Htr.
  exists (trace s1). split; [exists waits; split; [exact Hwaits|exact Htr]|].
  rewrite try_bind_run, Hcall, foreign_run.
  split; [|split].
  - intros m rest Hanswer. rewrite Hanswer.
    unfold try_except, bind, logger, emit, ret, raise.
    cbn [fst snd after trace]. rewrite <- ?app_assoc. auto.
  - intros Hanswer. rewrite Hanswer.
    unfold try_except, bind, logger, emit, ret, raise.
    cbn [fst snd after trace]. rewrite <- ?app_assoc. auto.
  - intros e Hanswer. rewrite Hanswer.
    unfold try_except, bind, logger, emit, ret, raise.
    cbn [fst snd after trace]. rewrite <- ?app_assoc. auto.
Qed.

(** ** The ends of the driver *)

(** X17: the client is created outside every handler: when the constructor
    raises, for an API key it rejects, the exception leaves the orchestrator
    and the driver uncaught, right after the configuration was logged; no
    provider call was made and nothing was written. *)
Theorem client_failure_leaves_main (w : World) (fuel : nat)
    (api_key location query : string) (num_results radius : Z) (s : State) (e : exn) :
  GOOGLE_MAPS_API_KEY (read_config w) = Some api_key ->
  SEARCH_LOCATION (read_config w) = Some location ->
  SEARCH_QUERY (read_config w) = Some query ->
  parse_int (NUM_RESULTS (read_config w)) = Some num_results ->
  parse_int (SEARCH_RADIUS (read_config w)) = Some radius ->
  googlemaps_Client w api_key = Raise e ->
  main w fuel s
  = (Raise e,
     after s (config_lines (config_items (read_config w) (AInt num_results) (AInt radius))
                location
              ++ [ClientInit api_key])).
Proof.
  intros Hk Hl Hq Hn Hrad Hclient.
  rewrite (main_valid w fuel api_key location query num_results radius s Hk Hl Hq Hn Hrad).
  rewrite run_pipeline_unfold. unfold bind at 1.
  rewrite (get_google_maps_data_client_failure w fuel api_key (LocStr location) query
             num_results radius _ e Hclient).
  now rewrite after_after.
Qed.

(** X18: whenever the orchestrator comes back with no record, for whatever
    reason, the driver logs one error and returns: nothing was written, no
    file changed, and nothing is sent to the remote table. *)
Theorem no_data_ends_main (w : World) (fuel : nat)
    (api_key location query : string) (num_results radius : Z) (s s0 : State) :
  GOOGLE_MAPS_API_KEY (read_config w) = Some api_key ->
  SEARCH_LOCATION (read_config w) = Some location ->
  SEARCH_QUERY (read_config w) = Some query ->
  parse_int (NUM_RESULTS (read_config w)) = Some num_results ->
  parse_int (SEARCH_RADIUS (read_config w)) = Some radius ->
  get_google_maps_data w fuel api_key (LocStr location) query num_results radius
    (after s (config_lines (config_items (read_config w) (AInt num_results) (AInt radius))
                location))
  = (Ok [], s0) ->
  main w fuel s
  = (Ok tt, after s0 [Log ERROR "No data retrieved. Check the logs for errors." []])
  /\ files s0 = files s
  /\ List.filter is_WriteFile (trace s0) = List.filter is_WriteFile (trace s)
  /\ List.filter is_sync (trace s0) = List.filter is_sync (trace s).
Proof.
  intros Hk Hl Hq Hn Hrad Hrun.
  rewrite (main_valid w fuel api_key location query num_results radius s Hk Hl Hq Hn Hrad).
  rewrite run_pipeline_unfold. unfold bind at 1. rewrite Hrun.
  split; [reflexivity|].
  set (lines := config_lines _ _) in Hrun.
  pose proof (get_google_maps_data_quietly w fuel api_key (LocStr location) query
                num_results radius (after s lines)) as [Hfiles Hext].
  rewrite Hrun in Hfiles, Hext. cbn [snd after files] in Hfiles, Hext.
  assert (Hlines : extends_by fetching s (after s lines)).
  { apply extends_by_after. subst lines. unfold config_lines. apply forallb_forall.
    intros e [<-|He]; [reflexivity|].
    apply in_app_or in He. destruct He as [He|[<-|[]]]; [|reflexivity].
    apply in_flat_map in He. destruct He as (kv & _ & He).
    destruct (negb _); [|contradiction]. destruct He as [<-|[]]. reflexivity. }
  pose proof (extends_by_trans _ _ _ _ Hlines Hext) as Hall.
  split; [exact Hfiles|]. split.
  - apply fetching_filter; [|exact Hall]. intros e ->. reflexivity.
  - apply fetching_filter; [|exact Hall]. intros e ->. apply orb_true_r.
Qed.

(** X19: the run that succeeds with remote sync off: the driver ends with the
    persistence step on the records the orchestrator returned, and the files
    whose flag is set hold all of them. *)
Theorem main_saves_records (w : World) (fuel : nat)
    (api_key location query : string) (num_results radius : Z) (s s0 : State)
    (record : PlaceRecord) (data : list PlaceRecord) :
  let config := read_config w in
  GOOGLE_MAPS_API_KEY config = Some api_key ->
  SEARCH_LOCATION config = Some location ->
  SEARCH_QUERY config = Some query ->
  parse_int (NUM_RESULTS config) = Some num_results ->
  parse_int (SEARCH_RADIUS config) = Some radius ->
  USE_SUPABASE config = false ->
  get_google_maps_data w fuel api_key (LocStr location) query num_results radius
    (after s (config_lines (config_items config (AInt num_results) (AInt radius)) location))
  = (Ok (record :: data), s0) ->
  main w fuel s
  = save_to_file w (record :: data) (OUTPUT_FILE config) (OUTPUT_CSV config)
      (OUTPUT_JSON config) s0
  /\ fst (main w fuel s) = Ok tt
  /\ (OUTPUT_CSV config = true ->
      files (snd (main w fuel s)) !! (OUTPUT_FILE config ++ ".csv")%string
      = Some (to_csv w (record :: data)))
  /\ (OUTPUT_JSON config = true ->
      files (snd (main w fuel s)) !! (OUTPUT_FILE config ++ ".json")%string
      = Some (json_dump w (record :: data))).
Proof.
  intros config Hk Hl Hq Hn Hrad Hsync Hrun.
  assert (Hmain : main w fuel s
                  = save_to_file w (record :: data) (OUTPUT_FILE config) (OUTPUT_CSV config)
                      (OUTPUT_JSON config) s0).
  { rewrite (main_valid w fuel api_key location query num_results radius s Hk Hl Hq Hn Hrad).
    rewrite run_pipeline_unfold. fold config. unfold bind at 1. rewrite Hrun.
    unfold deliver. rewrite Hsync. unfold bind.
    destruct (save_to_file_files w (record :: data) (OUTPUT_FILE config) (OUTPUT_CSV config)
                (OUTPUT_JSON config) s0) as (s1 & Hsave & _).
    rewrite Hsave. reflexivity. }
  split; [exact Hmain|]. rewrite Hmain.
  destruct (save_to_file_files w (record :: data) (OUTPUT_FILE config) (OUTPUT_CSV config)
              (OUTPUT_JSON config) s0) as (s1 & Hsave & Hfiles & _).
  rewrite Hsave. cbn [fst snd]. rewrite Hfiles.
  pose proof (csv_json_names_differ (OUTPUT_FILE config)) as Hne.
  split; [reflexivity|]. split.
  - intros ->. destruct (OUTPUT_JSON config); cbn [id];
      [rewrite lookup_insert_ne by congruence|]; apply lookup_insert_eq.
  - intros ->. apply lookup_insert_eq.
Qed.

(** ** Edges of the search *)

Lemma anything_through : lets_through (fun _ => true).
Proof. intros e _. reflexivity. Qed.

(** X20: a continuation page is asked for only after the two-second pause:
    when the loop holds a page token, the next search call, made with that
    token, comes after a sleep of two seconds and the limiter's own wait, and
    the limiter stamps it at least two seconds after the turn began. *)
Theorem continuation_page_waits (w : World) (query : string) (coords : Coords)
    (radius num_results : Z) (results : list RawPlaceRef) (token : option string)
    (s : State) :
  ready s -> truthy_opt token = true ->
  exists waits t rest,
    forallb is_Sleep waits = true
    /\ clock s + 2 * second <= t
    /\ trace (snd (search_page w query coords radius num_results results token s))
       = trace s
         ++ [Log DEBUG
               "Searching for places. Current results: {len(results)}, Target: {num_results}"
               [AInt (Z.of_nat (length results)); AInt num_results];
             Sleep (2 * second)]
         ++ waits ++ [Stamp t; Places query coords radius token] ++ rest.
Proof.
  intros Hr Htoken. unfold search_page. rewrite try_except_logger, Htoken.
  rewrite try_except_sleep.
  set (log1 := Log DEBUG _ _).
  set (s1 := slept w (after s [log1]) (2 * second)).
  assert (Hr1 : ready s1).
  { apply ready_slept; [unfold second; lia|]. now apply ready_after. }
  assert (Hclock : clock s + 2 * second <= reading w s1).
  { unfold reading, s1. cbn [slept after clock]. lia. }
  assert (Htr1 : trace s1 = trace s ++ [log1; Sleep (2 * second)]).
  { unfold s1. cbn [slept after trace]. now rewrite <- app_assoc. }
  destruct (throttle_shape w RATE_LIMIT RATE_LIMIT_PERIOD s1)
    as (s2 & t & Hrun & _ & Ht & _ & _ & Hshape); [unfold RATE_LIMIT; lia|exact Hr1|].
  assert (Hwaits : exists waits,
             forallb is_Sleep waits = true
             /\ trace s2 = trace s ++ [log1; Sleep (2 * second)] ++ waits ++ [Stamp t]).
  { destruct Hshape as [(_ & Htr)|(_ & oldest & rest & _ & _ & _ & Htr)]; rewrite Htr, Htr1.
    - exists []. split; [reflexivity|]. now rewrite <- app_assoc.
    - exists [Sleep (RATE_LIMIT_PERIOD - (reading w s1 - oldest))].
      split; [reflexivity|]. now rewrite <- app_assoc. }
  destruct Hwaits as (waits & Hsleeps & Htr2).
  exists waits, t.
  assert (Hrest : forall (m : M (bool * list RawPlaceRef * option string)) s',
             emits (fun _ => true) m -> exists rest, trace (snd (m s')) = trace s' ++ rest).
  { intros m s' Hm. destruct (Hm s') as (rest & Hrest & _). now exists rest. }
  assert (Hcall : trace (after s2 [Places query coords radius token])
                  = trace s ++ [log1; Sleep (2 * second)] ++ waits
                    ++ [Stamp t; Places query coords radius token]).
  { cbn [after trace]. rewrite Htr2, <- !app_assoc. reflexivity. }
  rewrite try_bind_run. unfold rate_limited_api_call, wrapped. unfold bind at 1.
  rewrite Hrun, foreign_run.
  pose proof anything_through as through.
  destruct (gmaps_places w (trace s2) query coords radius token) as [places|e|].
  - match goal with
    | |- context [try_except ?m ?h ?s'] =>
        destruct (Hrest (try_except m h) s') as [rest Hsnd]
    end.
    { cbv zeta. repeat emits_step through. }
    exists rest. split; [exact Hsleeps|]. split; [lia|].
    rewrite Hsnd, Hcall, <- ?app_assoc. reflexivity.
  - match goal with
    | |- context [snd (?m (after s2 ?evs))] =>
        destruct (Hrest m (after s2 evs)) as [rest Hsnd]
    end.
    { repeat emits_step through. }
    exists rest. split; [exact Hsleeps|]. split; [lia|].
    rewrite Hsnd, Hcall, <- ?app_assoc. reflexivity.
  - exists []. split; [exact Hsleeps|]. split; [lia|].
    cbn [snd]. rewrite Hcall, <- ?app_assoc, ?app_nil_r. reflexivity.
Qed.

(** A selection that nothing of the list passes. *)
Lemma filter_none {A} (p q : A -> bool) (l : list A) :
  (forall x, p x = true -> q x = false) -> forallb p l = true -> List.filter q l = [].
Proof.
  intros Hpq. induction l as [|x l IH]; cbn; [reflexivity|].
  intros H. apply andb_prop in H. destruct H as [Hx Hl]. now rewrite (Hpq x Hx), IH.
Qed.

(** The resolution step in a ready state: it comes back, with coordinates
    or an exception, after exactly one geocoding call for a location that is
    not a pair and none for a pair, and nothing else that counts. *)
Lemma get_location_coordinates_geocodes (w : World) (location : Location) (s : State) :
  ready s -> (forall h, gmaps_geocode w h location <> OutOfFuel) ->
  exists r s',
    get_location_coordinates w location s = (r, s')
    /\ r <> OutOfFuel
    /\ files s' = files s
    /\ List.filter is_Geocode (trace s')
       = List.filter is_Geocode (trace s)
         ++ (if is_pair location then [] else [Geocode location])
    /\ List.filter is_pipeline_work (trace s') = List.filter is_pipeline_work (trace s).
Proof.
  intros Hr Hanswers. destruct (is_pair location) eqn:Hp.
  - destruct location as [str|[|a [|b [|c l]]]]; try discriminate Hp.
    unfold get_location_coordinates. rewrite !bind_logger, after_after. unfold ret.
    eexists _, _. split; [reflexivity|]. split; [discriminate|].
    cbn [after files trace]. rewrite !List.filter_app. cbn. rewrite !app_nil_r. auto.
  - rewrite get_location_coordinates_else by exact Hp.
    set (log1 := Log DEBUG "Attempting to get coordinates for location: {location}"
                   [ALoc location]).
    destruct (rate_limited_api_call_run w
                (foreign (Geocode location) (fun h => gmaps_geocode w h location))
                (after s [log1])) as (s1 & waits & Hcall & _ & Hfiles & Htr & Hwaits).
    { now apply ready_after. }
    cbn [after trace files] in Htr, Hfiles.
    assert (Hg : List.filter is_Geocode (trace s1) = List.filter is_Geocode (trace s)).
    { rewrite Htr, !List.filter_app.
      rewrite (filter_none is_timing is_Geocode waits) by (try exact Hwaits; now intros []).
      cbn. now rewrite !app_nil_r. }
    assert (Hw : List.filter is_pipeline_work (trace s1)
                 = List.filter is_pipeline_work (trace s)).
    { rewrite Htr, !List.filter_app.
      rewrite (filter_none is_timing is_pipeline_work waits)
        by (try exact Hwaits; now intros []).
      cbn. now rewrite !app_nil_r. }
    rewrite try_bind_run, Hcall, foreign_run.
    specialize (Hanswers (trace s1)).
    destruct (gmaps_geocode w (trace s1) location) as [[|m rest]|e|]; [| | |congruence];
      unfold try_except, bind, logger, emit, ret, raise;
      cbn [fst snd after trace files clock reads limiter];
      eexists _, _; (split; [reflexivity|]); (split; [discriminate|]);
      cbn [files trace]; rewrite !List.filter_app, Hg, Hw; cbn;
      rewrite ?app_nil_r, <- ?app_assoc; auto.
Qed.

(** X21: with a result cap that is not positive the orchestrator resolves the
    location and stops there: from a ready state, with the client created and
    a geocoder that answers, it makes the one geocoding call of the
    resolution step (none for a pair), no search call, no detail call and no
    page request, changes no file, and returns the empty list. *)
Theorem nonpositive_cap_fetches_nothing (w : World) (fuel : nat) (api_key : string)
    (location : Location) (query : string) (num_results radius : Z) (s : State) :
  ready s ->
  num_results <= 0 ->
  googlemaps_Client w api_key = Ok tt ->
  (forall h, gmaps_geocode w h location <> OutOfFuel) ->
  exists s',
    get_google_maps_data w fuel api_key location query num_results radius s = (Ok [], s')
    /\ List.filter is_Geocode (trace s')
       = List.filter is_Geocode (trace s)
         ++ (if is_pair location then [] else [Geocode location])
    /\ List.filter is_pipeline_work (trace s') = List.filter is_pipeline_work (trace s)
    /\ files s' = files s.
Proof.
  intros Hr HN Hclient Hanswers. unfold get_google_maps_data.
  rewrite bind_emit, bind_reply, Hclient, bind_logger, after_after. cbn [app].
  match goal with |- context [after s ?evs] => set (s0 := after s evs) end.
  destruct (get_location_coordinates_geocodes w location s0)
    as (r & s1 & Hloc & Hr1 & Hfiles & Hg & Hw); [now apply ready_after|exact Hanswers|].
  cbn [s0 after trace files] in Hfiles, Hg, Hw.
  rewrite !List.filter_app in Hg, Hw. cbn in Hg, Hw. rewrite !app_nil_r in Hg, Hw.
  unfold bind at 1. rewrite try_bind_run, Hloc.
  destruct r as [coords|e|]; [| |congruence].
  - unfold try_except, ret at 1. unfold bind at 1.
    rewrite search_loop_no_turn by exact HN. cbv zeta.
    replace (slice_to [] num_results) with (@nil RawPlaceRef)
      by (unfold slice_to; destruct (0 <=? num_results); now rewrite firstn_nil).
    cbn [submit_all]. rewrite bind_ret.
    change (as_completed w (@nil (Outcome PlaceRecord))) with (@nil (Outcome PlaceRecord)).
    cbn [collect]. rewrite bind_ret, bind_logger. unfold ret.
    eexists. split; [reflexivity|]. cbn [after trace files].
    rewrite !List.filter_app, Hg, Hw. cbn. rewrite !app_nil_r. auto.
  - rewrite bind_logger. unfold ret.
    eexists. split; [reflexivity|]. cbn [after trace files].
    rewrite !List.filter_app, Hg, Hw. cbn. rewrite !app_nil_r. auto.
Qed.

(** ** Further runs in the sample worlds *)

(** Three records sent to a table whose first insert raises and whose
    second gives no data. *)
Lemma add_to_supabase_attempts_every_record_witness :
  exists s',
    add_to_supabase flaky_sync_world three_records initial_state = (Ok tt, s')
    /\ List.filter is_Insert (trace s')
       = List.filter is_Insert (trace initial_state)
         ++ map (Insert (sync_table flaky_sync_world)) three_records
    /\ length (List.filter is_Log (trace s'))
       = (length (List.filter is_Log (trace initial_state)) + length three_records)%nat
    /\ files s' = files initial_state.
Proof.
  apply (add_to_supabase_attempts_every_record flaky_sync_world three_records initial_state).
  - reflexivity.
  - intros h item. unfold flaky_sync_world, with_sync, supabase_insert.
    destruct (length (List.filter is_Insert h)) as [|[|n]]; discriminate.
Defined.

(** The three inserts of that run: an exception, no data, success. *)
Example flaky_sync_log :
  List.filter is_Log (trace (snd (add_to_supabase flaky_sync_world three_records initial_state)))
  = [Log ERROR "Error adding item to Supabase: {e}" [AExn (ProviderError "timeout")];
     Log ERROR "Failed to add item: {item['Name']} to Supabase" [AOpt (Some "place1")];
     Log INFO "Successfully added item: {item['Name']} to Supabase" [AOpt (Some "place2")]]
  /\ sync_table flaky_sync_world = "places".
Proof. vm_compute. split; reflexivity. Qed.

(** The remote service refuses the client. *)
Lemma sync_client_failure_after_files_witness :
  let saved :=
    snd (save_to_file no_client_world three_records "output" true true initial_state) in
  add_to_supabase no_client_world three_records saved
  = (Raise (ProviderError "Invalid API key"),
     after saved [CreateClient (Some "https://db.example") (Some "secret")])
  /\ deliver no_client_world (read_config no_client_world) three_records initial_state
     = (Raise (ProviderError "Invalid API key"),
        after saved [CreateClient (Some "https://db.example") (Some "secret")]).
Proof.
  apply (sync_client_failure_after_files no_client_world (read_config no_client_world)
           three_records initial_state (ProviderError "Invalid API key"));
    vm_compute; reflexivity.
Defined.

(** In the sample world USE_SUPABASE is not set. *)
Lemma sync_disabled_never_syncs_witness :
  List.filter is_sync (trace (snd (main sample_world 3 initial_state)))
  = List.filter is_sync (trace initial_state).
Proof.
  apply (sync_disabled_never_syncs sample_world 3 initial_state). vm_compute. reflexivity.
Defined.

(** Three calls through a limiter of two calls per ten ticks. *)
Lemma limiter_log_bounded_witness :
  Z.of_nat (length (calls (limiter (issue sample_world three_calls small_limiter_state))))
  <= 2 + 1.
Proof.
  apply (limiter_log_bounded sample_world 2 10 three_calls small_limiter_state).
  - lia.
  - reflexivity.
  - reflexivity.
  - unfold three_calls.
    repeat (apply List.Forall_cons; [apply callee_foreign; reflexivity|]).
    apply List.Forall_nil.
Defined.

(** The bound is reached: the third of three calls in a row waited, and
    the log holds three timestamps. *)
Example limiter_log_at_bound :
  length (calls (limiter (issue sample_world three_calls small_limiter_state))) = 3%nat.
Proof. vm_compute. reflexivity. Qed.

Lemma two_calls_made_inv : limiter_inv 2 10 two_calls_made.
Proof.
  apply issue_inv.
  - lia.
  - unfold three_calls. cbn [firstn].
    repeat (apply List.Forall_cons; [apply callee_foreign; reflexivity|]).
    apply List.Forall_nil.
  - apply limiter_inv_fresh; [lia|reflexivity|reflexivity].
Qed.

(** The third call in a row through a limiter of two calls per ten
    ticks. *)
Lemma throttle_sleeps_only_at_limit_witness :
  exists t,
    fst (throttle sample_world two_calls_made) = Ok tt
    /\ reading sample_world two_calls_made <= t
    /\ ((Z.of_nat (length (kept sample_world two_calls_made)) < 2
         /\ trace (snd (throttle sample_world two_calls_made))
            = trace two_calls_made ++ [Stamp t])
        \/ (Z.of_nat (length (kept sample_world two_calls_made)) = 2
            /\ exists oldest rest,
                kept sample_world two_calls_made = oldest :: rest
                /\ 0 < 10 - (reading sample_world two_calls_made - oldest)
                /\ oldest + 10 <= t
                /\ trace (snd (throttle sample_world two_calls_made))
                   = trace two_calls_made
                     ++ [Sleep (10 - (reading sample_world two_calls_made - oldest));
                         Stamp t])).
Proof.
  apply (throttle_sleeps_only_at_limit sample_world 2 10 two_calls_made).
  - lia.
  - exact two_calls_made_inv.
Defined.

(** That third call sleeps seven ticks: the two timestamps are 2 and 4,
    the clock reads 5, and the new timestamp is 14. *)
Example third_call_waits :
  kept sample_world two_calls_made = [2; 4]
  /\ reading sample_world two_calls_made = 5
  /\ List.filter is_timing (trace (snd (throttle sample_world two_calls_made)))
     = [Stamp 2; Stamp 4; Sleep 7; Stamp 14].
Proof. vm_compute. repeat split. Qed.

(** A detail call that the provider refuses, through the module's
    limiter. *)
Lemma rate_limited_api_call_transparent_witness :
  let run :=
    rate_limited_api_call no_details_world
      (foreign (Place "place0") (fun h => gmaps_place no_details_world h "place0"))
      initial_state in
  exists waits t,
    forallb is_Sleep waits = true
    /\ trace (snd run) = trace initial_state ++ waits ++ [Stamp t; Place "place0"]
    /\ fst run = gmaps_place no_details_world (trace initial_state ++ waits ++ [Stamp t]) "place0"
    /\ calls (limiter (snd run)) = kept no_details_world initial_state ++ [t]
    /\ files (snd run) = files initial_state.
Proof.
  apply (rate_limited_api_call_transparent no_details_world RATE_LIMIT RATE_LIMIT_PERIOD
           (Place "place0") (fun h => gmaps_place no_details_world h "place0") initial_state).
  - unfold RATE_LIMIT. lia.
  - exact ready_initial_state.
Defined.

(** A file of the working directory that is not an output file. *)
Lemma main_touches_only_output_files_witness :
  files (snd (main sample_world 3 initial_state)) !! "notes.txt"
  = files initial_state !! "notes.txt".
Proof.
  apply (main_touches_only_output_files sample_world 3 initial_state "notes.txt").
  - vm_compute. discriminate.
  - vm_compute. discriminate.
Defined.

(** Three futures of which the second failed. *)
Lemma collect_keeps_every_result_witness :
  let completed := as_completed sample_world three_futures in
  collect completed [] initial_state
  = (Ok (successes completed), after initial_state (failure_lines completed))
  /\ Permutation (successes completed) (successes three_futures)
  /\ (length (successes completed) + length (List.filter failed three_futures)
      = length three_futures)%nat
  /\ length (failure_lines completed) = length (List.filter failed three_futures).
Proof.
  apply (collect_keeps_every_result sample_world three_futures initial_state). reflexivity.
Defined.

(** The pages of the sample provider list places with identifiers. *)
Lemma sample_world_results_have_ids : provider_results_have_ids sample_world.
Proof.
  intros h q c r t response page Hanswer Hpage.
  unfold sample_world, gmaps_places, served in Hanswer.
  destruct (length (List.filter is_Places h)) as [|[|[|n]]]; cbn in Hanswer;
    try (destruct n; discriminate Hanswer);
    inversion Hanswer; subst response; cbn in Hpage; inversion Hpage; subst page;
    vm_compute; reflexivity.
Qed.

(** The orchestrator in the sample world. *)
Lemma get_google_maps_data_never_raises_witness :
  raises (fst (get_google_maps_data sample_world 3 "AIza-sample" (LocStr "40.0,-73.0")
                 "coffee" 50 50000 initial_state))
  = false.
Proof.
  apply (get_google_maps_data_never_raises sample_world 3 "AIza-sample" (LocStr "40.0,-73.0")
           "coffee" 50 50000 initial_state).
  - reflexivity.
  - exact sample_world_results_have_ids.
Defined.

(** A provider that knows no detail of any place. *)
Lemma get_place_details_passes_failures_on_witness :
  let run := get_place_details no_details_world "place0" initial_state in
  exists waits,
    forallb is_timing waits = true
    /\ (forall e,
           gmaps_place no_details_world (trace initial_state ++ waits) "place0" = Raise e ->
           fst run = Raise e
           /\ trace (snd run) = trace initial_state ++ waits ++ [Place "place0"])
    /\ (forall response,
           gmaps_place no_details_world (trace initial_state ++ waits) "place0" = Ok response ->
           result response = None ->
           fst run = Raise (KeyError "result")
           /\ trace (snd run) = trace initial_state ++ waits ++ [Place "place0"]).
Proof.
  apply (get_place_details_passes_failures_on no_details_world "place0" initial_state).
  exact ready_initial_state.
Defined.

(** The failed detail task of that world, and its place in the collected
    run: the orchestrator logs it and returns no record. *)
Example refused_detail_call :
  fst (get_place_details no_details_world "place0" initial_state)
  = Raise (ProviderError "NOT_FOUND")
  /\ List.filter is_HttpGet (trace (snd (get_place_details no_details_world "place0"
                                          initial_state))) = []
  /\ fst (get_google_maps_data no_details_world 3 "AIza-sample" (LocStr "Paris") "coffee"
            2 50000 initial_state) = Ok [].
Proof. vm_compute. repeat split. Qed.

(** A place name in the sample world, whose geocoder has one match. *)
Lemma get_location_coordinates_by_answer_witness :
  let run := get_location_coordinates sample_world (LocStr "Paris") initial_state in
  let unable :=
    ValueError ("Unable to geocode location: " ++ str_Location (LocStr "Paris"))%string in
  exists h,
    (exists waits,
        forallb is_timing waits = true
        /\ h = trace initial_state
               ++ Log DEBUG "Attempting to get coordinates for location: {location}"
                    [ALoc (LocStr "Paris")] :: waits)
    /\ (forall m rest,
           gmaps_geocode sample_world h (LocStr "Paris") = Ok (m :: rest) ->
           fst run = Ok (lat m, lng m)
           /\ trace (snd run)
              = h ++ [Geocode (LocStr "Paris");
                      Log DEBUG "Geocoded {location} to coordinates: ({lat}, {lng})"
                        [ALoc (LocStr "Paris"); ANum (lat m); ANum (lng m)]])
    /\ (gmaps_geocode sample_world h (LocStr "Paris") = Ok [] ->
        fst run = Raise unable
        /\ trace (snd run)
           = h ++ [Geocode (LocStr "Paris");
                   Log ERROR "Error geocoding location {location}: {e}"
                     [ALoc (LocStr "Paris"); AExn unable]])
    /\ (forall e,
           gmaps_geocode sample_world h (LocStr "Paris") = Raise e ->
           fst run = Raise e
           /\ trace (snd run)
              = h ++ [Geocode (LocStr "Paris");
                      Log ERROR "Error geocoding location {location}: {e}"
                        [ALoc (LocStr "Paris"); AExn e]]).
Proof.
  apply (get_location_coordinates_by_answer sample_world (LocStr "Paris") initial_state).
  - exact ready_initial_state.
  - reflexivity.
Defined.

(** The outcomes of the resolution step in the sample world and in the
    world whose geocoder finds nothing. *)
Example resolution_outcomes :
  fst (get_location_coordinates sample_world (LocStr "Paris") initial_state)
  = Ok (Float "41.5", Float "-72.25")
  /\ fst (get_location_coordinates nowhere_world (LocStr "Atlantis") initial_state)
     = Raise (ValueError "Unable to geocode location: Atlantis").
Proof. vm_compute. split; reflexivity. Qed.

(** A client constructor that rejects the key. *)
Lemma client_failure_leaves_main_witness :
  main bad_key_world 3 initial_state
  = (Raise (ValueError "Invalid API key provided."),
     after initial_state
       (config_lines (config_items (read_config bad_key_world) (AInt 50) (AInt 50000))
          "40.0,-73.0"
        ++ [ClientInit "AIza-sample"])).
Proof.
  apply (client_failure_leaves_main bad_key_world 3 "AIza-sample" "40.0,-73.0" "coffee"
           50 50000 initial_state (ValueError "Invalid API key provided."));
    vm_compute; reflexivity.
Defined.

(** The world whose geocoder finds nothing: the orchestrator returns no
    record. *)
Lemma no_data_ends_main_witness :
  let s0 :=
    snd (get_google_maps_data nowhere_world 3 "AIza-sample" (LocStr "40.0,-73.0") "coffee"
           50 50000 (configured nowhere_world 50 50000 "40.0,-73.0")) in
  main nowhere_world 3 initial_state
  = (Ok tt, after s0 [Log ERROR "No data retrieved. Check the logs for errors." []])
  /\ files s0 = files initial_state
  /\ List.filter is_WriteFile (trace s0) = List.filter is_WriteFile (trace initial_state)
  /\ List.filter is_sync (trace s0) = List.filter is_sync (trace initial_state).
Proof.
  apply (no_data_ends_main nowhere_world 3 "AIza-sample" "40.0,-73.0" "coffee" 50 50000
           initial_state); vm_compute; reflexivity.
Defined.

(** The run of the driver in the sample world: fifty records, both
    files. *)
Lemma main_saves_records_witness :
  let config := read_config sample_world in
  let run :=
    get_google_maps_data sample_world 3 "AIza-sample" (LocStr "40.0,-73.0") "coffee"
      50 50000 (configured sample_world 50 50000 "40.0,-73.0") in
  let data := records_of (fst run) in
  let records := hd (sample_record "none") data :: tl data in
  main sample_world 3 initial_state
  = save_to_file sample_world records (OUTPUT_FILE config) (OUTPUT_CSV config)
      (OUTPUT_JSON config) (snd run)
  /\ fst (main sample_world 3 initial_state) = Ok tt
  /\ (OUTPUT_CSV config = true ->
      files (snd (main sample_world 3 initial_state)) !! (OUTPUT_FILE config ++ ".csv")%string
      = Some (to_csv sample_world records))
  /\ (OUTPUT_JSON config = true ->
      files (snd (main sample_world 3 initial_state)) !! (OUTPUT_FILE config ++ ".json")%string
      = Some (json_dump sample_world records)).
Proof.
  apply (main_saves_records sample_world 3 "AIza-sample" "40.0,-73.0" "coffee" 50 50000
           initial_state); vm_compute; reflexivity.
Defined.

(** That run: fifty records in each of the two files of the default
    stem. *)
Example sample_main_files :
  OUTPUT_FILE (read_config sample_world) = "output"
  /\ length (records_of (fst (get_google_maps_data sample_world 3 "AIza-sample"
                                (LocStr "40.0,-73.0") "coffee" 50 50000
                                (configured sample_world 50 50000 "40.0,-73.0"))))
     = 50%nat
  /\ map fst (map_to_list (files (snd (main sample_world 3 initial_state))))
     ≡ₚ ["output.csv"; "output.json"].
Proof.
  split; [vm_compute; reflexivity|]. split; [vm_compute; reflexivity|].
  vm_compute. apply perm_swap || reflexivity.
Qed.

(** The second turn of the search in the sample world, with the token of
    the first page. *)
Lemma continuation_page_waits_witness :
  exists waits t rest,
    forallb is_Sleep waits = true
    /\ clock initial_state + 2 * second <= t
    /\ trace (snd (search_page sample_world "coffee" (Float "41.5", Float "-72.25") 50000 50
                     (page_of 0) (Some "token1") initial_state))
       = trace initial_state
         ++ [Log DEBUG
               "Searching for places. Current results: {len(results)}, Target: {num_results}"
               [AInt (Z.of_nat (length (page_of 0))); AInt 50];
             Sleep (2 * second)]
         ++ waits
         ++ [Stamp t; Places "coffee" (Float "41.5", Float "-72.25") 50000 (Some "token1")]
         ++ rest.
Proof.
  apply (continuation_page_waits sample_world "coffee" (Float "41.5", Float "-72.25") 50000 50
           (page_of 0) (Some "token1") initial_state).
  - exact ready_initial_state.
  - reflexivity.
Defined.

(** A cap of zero in the sample world. *)
Lemma nonpositive_cap_fetches_nothing_witness :
  exists s',
    get_google_maps_data sample_world 3 "AIza-sample" (LocStr "40.0,-73.0") "coffee"
      0 50000 initial_state
    = (Ok [], s')
    /\ List.filter is_Geocode (trace s')
       = List.filter is_Geocode (trace initial_state)
         ++ (if is_pair (LocStr "40.0,-73.0") then [] else [Geocode (LocStr "40.0,-73.0")])
    /\ List.filter is_pipeline_work (trace s')
       = List.filter is_pipeline_work (trace initial_state)
    /\ files s' = files initial_state.
Proof.
  apply (nonpositive_cap_fetches_nothing sample_world 3 "AIza-sample" (LocStr "40.0,-73.0")
           "coffee" 0 50000 initial_state).
  - exact ready_initial_state.
  - lia.
  - reflexivity.
  - intros h. discriminate.
Defined.

(** Two calls in a row on a disk where every file opens. *)
Lemma save_to_file_twice_witness :
  let run := Disk.save_to_file sample_world any_file_opens three_records "output" true true in
  files (snd (run (snd (run initial_state)))) = files (snd (run initial_state)).
Proof.
  apply (save_to_file_twice sample_world any_file_opens three_records "output" true true
           initial_state); vm_compute; reflexivity.
Defined.

(** With the mode ['a'] the second writing would come after the first. *)
Example append_mode_would_add :
  (let once := snd (bind (Disk.open_file any_file_opens "output.json" Disk.mode_w)
                      (fun _ => Disk.write "output.json" "[]") initial_state) in
   files (snd (bind (Disk.open_file any_file_opens "output.json" Disk.mode_w)
                 (fun _ => Disk.write "output.json" "[]") once)) !! "output.json"
   = Some "[]")
  /\ (let once := snd (bind (Disk.open_file any_file_opens "output.json" Disk.mode_a)
                         (fun _ => Disk.write "output.json" "[]") initial_state) in
      files (snd (bind (Disk.open_file any_file_opens "output.json" Disk.mode_a)
                    (fun _ => Disk.write "output.json" "[]") once)) !! "output.json"
      = Some "[][]").
Proof. vm_compute. split; reflexivity. Qed.

(** A stem in a directory that is not there: the CSV file does not open,
    the exception leaves the persistence step, nothing is written. *)
Example unwritable_stem :
  Disk.save_to_file sample_world no_such_directory three_records "/nonexistent/output"
    true true initial_state
  = (Raise (ProviderError "No such file or directory"), initial_state).
Proof. vm_compute. reflexivity. Qed.

(** A search page with a result that has no identifier. *)
Lemma submit_all_needs_place_ids_witness :
  fst (get_google_maps_data nameless_world 3 "AIza-sample" (LocStr "Paris") "coffee"
         50 50000 initial_state)
  = Raise (KeyError "place_id").
Proof.
  set (s0 := after initial_state
               [ClientInit "AIza-sample";
                Log INFO "Fetching data for query: {query} in location: {location}"
                  [AStr "coffee"; ALoc (LocStr "Paris")]]).
  set (located := get_location_coordinates nameless_world (LocStr "Paris") s0).
  set (searched := search_loop nameless_world 3 "coffee" (Float "41.5", Float "-72.25")
                     50000 50 [] None (snd located)).
  apply (proj2 (proj2 (submit_all_needs_place_ids nameless_world nameless_page
                         (snd searched)))
           3%nat "AIza-sample" (LocStr "Paris") "coffee" 50 50000 initial_state
           (Float "41.5", Float "-72.25") (snd located) nameless_page);
    vm_compute; reflexivity.
Defined.
